(** * TextToVideo Converter Pro: the text pipeline of [src/app/layout.tsx]

    A shallow embedding of the page component's logic: the Segmenter
    ([splitText]), the word wrap of the Image Renderer ([wrapText]), the
    Speech-and-Capture Driver ([speakText], [speakChunk], [speakAndRecord]),
    the Video Composer ([composeVideo]) and the generate action
    ([handleGenerate]), followed by the properties the specification states
    about them.

    JavaScript strings are sequences of UTF-16 code units; [length], [slice],
    [trim] and the (non-unicode) regular expressions of the source all work on
    code units, so a string is a list of code units here.  JavaScript
    numbers are IEEE 754 doubles; where the source computes with them the
    operations are those of the library's specification of floating-point
    arithmetic. *)

From Equations Require Import Equations.
From Stdlib Require Import String Ascii List Arith ZArith NArith QArith Lia Bool.
From Stdlib Require Import SpecFloat.
Import ListNotations.
Close Scope Q_scope.

(** ** Strings *)

Module Js.

Definition char := N.
Definition str := list char.

(** A literal of the source, as code units. *)
Definition lit (s : string) : str := map N_of_ascii (list_ascii_of_string s).

Definition sp : char := 32%N.
Definition nl : char := 10%N.

(** ECMAScript WhiteSpace and LineTerminator code units: what
    [String.prototype.trim] strips and what [\s] matches. *)
Definition is_ws (c : char) : bool :=
  ((9 <=? c) && (c <=? 13) || (c =? 32) || (c =? 160) || (c =? 5760)
   || (8192 <=? c) && (c <=? 8202) || (c =? 8232) || (c =? 8233)
   || (c =? 8239) || (c =? 8287) || (c =? 12288) || (c =? 65279))%N.

Definition all_ws (s : str) : bool := forallb is_ws s.

(** [!s] on a string: true exactly for the empty string. *)
Definition falsy (s : str) : bool :=
  match s with [] => true | _ :: _ => false end.

Definition truthy (s : str) : bool := negb (falsy s).

Fixpoint dropWhile (p : char -> bool) (s : str) : str :=
  match s with
  | [] => []
  | c :: s' => if p c then dropWhile p s' else s
  end.

Fixpoint takeWhile (p : char -> bool) (s : str) : str :=
  match s with
  | [] => []
  | c :: s' => if p c then c :: takeWhile p s' else []
  end.

(** [s.trimStart()] *)
Definition trimStart (s : str) : str := dropWhile is_ws s.

(** [s.trimEnd()]: a code unit is kept when something is kept after it or
    when it is not white space itself. *)
Fixpoint trimEnd (s : str) : str :=
  match s with
  | [] => []
  | c :: s' =>
      match trimEnd s' with
      | [] => if is_ws c then [] else [c]
      | t => c :: t
      end
  end.

(** [s.trim()] *)
Definition trim (s : str) : str := trimEnd (trimStart s).

(** A string that [trim] leaves alone and that is not empty. *)
Definition Trimmed (s : str) : Prop := s <> [] /\ trim s = s.

(** [s.slice(a, b)] for [0 <= a] and [0 <= b]; an end before the start gives
    the empty string, an end past the length stops at the length. *)
Definition slice (s : str) (a b : nat) : str := firstn (b - a) (skipn a s).

(** [s.slice(a)] *)
Definition slice_from (s : str) (a : nat) : str := skipn a s.

(** [ps.join(" ")] *)
Fixpoint join_sp (ps : list str) : str :=
  match ps with
  | [] => []
  | [p] => p
  | p :: ps' => p ++ sp :: join_sp ps'
  end.

End Js.

(** ** Numbers *)

Module Double.

(** A JS number: a binary64 value, with 53 bits of precision and exponents
    below 1024. *)
Definition number : Type := spec_float.

(** The number an integer converts to: the integer itself below 2^53, the
    nearest double (ties to even) above. *)
Definition of_Z (n : Z) : number := binary_normalize 53 1024 n 0 false.

(** [x / y] *)
Definition div (x y : number) : number := SFdiv 53 1024 x y.

(** [x * y] *)
Definition mul (x y : number) : number := SFmul 53 1024 x y.

(** [Math.round(x)]: the integer nearest to [x], a half rounded towards
    plus infinity; [None] for NaN and the infinities, which [Math.round]
    gives back as they are. *)
Definition Math_round (x : number) : option Z :=
  match x with
  | S754_zero _ => Some 0%Z
  | S754_finite s m e =>
      let n := if s then Z.neg m else Z.pos m in
      Some (if (0 <=? e)%Z then n * 2 ^ e
            else (2 * n + 2 ^ (- e)) / 2 ^ (1 - e))%Z
  | _ => None
  end.

End Double.

Import Js.

(** ** The Segmenter: [splitText] *)

Module Segmenter.

(** The character class [[.!??]] of [sentenceRe], in which the source lists
    the question mark twice. *)
Definition is_term (c : char) : bool :=
  ((c =? 46) || (c =? 33) || (c =? 63))%N.

Definition is_nl (c : char) : bool := (c =? nl)%N.

(** A code unit at which [sentenceRe] can start a match. *)
Definition is_break (c : char) : bool := is_term c || is_nl c.

(** The search of [sentenceRe = /([.!??]+|\n+)/g] in the suffix [s] that
    starts at index [i]: the leftmost position where one alternative
    matches, the first alternative tried first, each one greedy.  The result
    is [(match.index, match[0].length)]. *)
Fixpoint exec_at (s : str) (i : nat) : option (nat * nat) :=
  match s with
  | [] => None
  | c :: s' =>
      if is_term c then Some (i, length (takeWhile is_term s))
      else if is_nl c then Some (i, length (takeWhile is_nl s))
      else exec_at s' (S i)
  end.

(** [sentenceRe.exec(remaining)] with the regex's [lastIndex] at
    [lastIndex].  After each successful match the regex's [lastIndex] is the
    end of the match, which is what the loop's own [lastIndex] holds. *)
Definition exec (remaining : str) (lastIndex : nat) : option (nat * nat) :=
  exec_at (skipn lastIndex remaining) lastIndex.

(** [if (segment) parts.push(segment)] *)
Definition push_truthy (parts : list str) (segment : str) : list str :=
  if truthy segment then parts ++ [segment] else parts.

Lemma exec_at_bounds s i index len :
  exec_at s i = Some (index, len) ->
  i <= index /\ 1 <= len /\ index + len <= i + length s.
Proof.
  revert i. induction s as [|c s IH]; intros i H; simpl in H; [discriminate|].
  destruct (is_term c) eqn:Ht.
  - inversion H; subst. simpl.
    assert (length (takeWhile is_term s) <= length s).
    { clear. induction s as [|d s IH]; simpl; [lia|]. destruct (is_term d); simpl; lia. }
    lia.
  - destruct (is_nl c) eqn:Hn.
    + inversion H; subst. simpl.
      assert (length (takeWhile is_nl s) <= length s).
      { clear. induction s as [|d s IH]; simpl; [lia|]. destruct (is_nl d); simpl; lia. }
      lia.
    + apply IH in H. simpl. lia.
Qed.

Lemma exec_bounds remaining lastIndex index len :
  exec remaining lastIndex = Some (index, len) ->
  lastIndex <= index /\ 1 <= len /\ index + len <= length remaining.
Proof.
  unfold exec. intros H. apply exec_at_bounds in H.
  rewrite length_skipn in H. lia.
Qed.

(** A value together with the equation that names it, so that the loop below
    keeps [exec remaining lastIndex = Some _] for its termination argument. *)
Definition inspect {A : Type} (x : A) : { y : A | x = y } := exist _ x eq_refl.

(** The [while ((match = sentenceRe.exec(remaining)) !== null)] loop of
    [splitText]; it returns [parts] and [lastIndex] as they are when [exec]
    returns [null]. *)
Equations? split_loop (remaining : str) (lastIndex : nat) (parts : list str)
  : list str * nat by wf (length remaining - lastIndex) lt :=
  split_loop remaining lastIndex parts with inspect (exec remaining lastIndex) := {
    | exist _ (Some (index, len)) E =>
        let end_ := index + len in
        let segment := trim (slice remaining lastIndex end_) in
        split_loop remaining end_ (push_truthy parts segment)
    | exist _ None _ => (parts, lastIndex) }.
Proof.
  apply exec_bounds in E. lia.
Qed.

(** One turn of [for (const p of parts)]; the loop state is
    [(merged, buf)]. *)
Definition merge_step (maxLen : Z) (st : list str * str) (p : str)
  : list str * str :=
  let '(merged, buf) := st in
  if (Z.of_nat (length (trim (buf ++ [sp] ++ p))) <=? maxLen)%Z
  then (merged, (if truthy buf then buf ++ [sp] else []) ++ p)
  else (push_truthy merged buf, p).

(** The segments of the trimmed input, before merging: [parts] after the
    tail has been pushed. *)
Definition segments (remaining : str) : list str :=
  let '(parts, lastIndex) := split_loop remaining 0 [] in
  let tail := trim (slice_from remaining lastIndex) in
  push_truthy parts tail.

Definition splitText (input : str) (maxLen : Z) : list str :=
  let remaining := trim input in
  let parts := segments remaining in
  let '(merged, buf) := fold_left (merge_step maxLen) parts ([], []) in
  let merged := push_truthy merged buf in
  match merged with
  | [] => [remaining]
  | _ :: _ => merged
  end.

(** A text with no split point inside: a stretch without terminators and
    newlines, then nothing but terminators up to its end. *)
Definition Unsplittable (p : str) : Prop :=
  exists body run,
    p = body ++ run /\
    forallb (fun c => negb (is_break c)) body = true /\
    forallb is_term run = true.

(** Not a code unit at which [sentenceRe] can start a match. *)
Definition nb (c : char) : bool := negb (is_break c).

(** The slices [remaining.slice(lastIndex, end)] the loop cuts: a stretch
    without a break, then the match. *)
Definition RawPiece (x : str) : Prop :=
  exists body m,
    x = body ++ m /\ forallb nb body = true /\
    (forallb is_term m = true \/ forallb is_nl m = true).

Definition trimmed_pieces (pcs : list str) : list str :=
  filter truthy (map trim pcs).

(** [Unsplittable], as a test. *)
Definition unsplittableb (x : str) : bool :=
  forallb is_term (dropWhile nb x).

(** The parts that went into one chunk: one part alone, or several whose
    join fits [maxLen]. *)
Definition OkGroup (maxLen : Z) (g : list str) : Prop :=
  g <> [] /\ Forall Trimmed g /\
  (length g = 1 \/ (Z.of_nat (length (join_sp g)) <= maxLen)%Z).

(** [Interleaved ps s]: the text [s] is the strings [ps], in order, each
    once, with nothing but white space before, between and after them. *)
Inductive Interleaved : list str -> str -> Prop :=
| Interleaved_nil w : all_ws w = true -> Interleaved [] w
| Interleaved_cons w p ps s :
    all_ws w = true -> Interleaved ps s -> Interleaved (p :: ps) (w ++ p ++ s).

(** A text with its white space taken out. *)
Definition squeeze (s : str) : str := filter (fun c => negb (is_ws c)) s.

End Segmenter.

(** ** The word wrap of the Image Renderer: [wrapText] *)

Module WordWrap.

(** [text.replace(/\s+/g, " ")]: every maximal run of white space becomes one
    space; [in_run] tells that the previous code unit was white space. *)
Fixpoint replace_ws (in_run : bool) (text : str) : str :=
  match text with
  | [] => []
  | c :: text' =>
      if is_ws c
      then (if in_run then replace_ws true text' else sp :: replace_ws true text')
      else c :: replace_ws false text'
  end.

(** [s.split(" ")]; the empty string gives one empty word. *)
Fixpoint split_sp (s : str) : list str :=
  match s with
  | [] => [[]]
  | c :: s' =>
      if (c =? sp)%N then [] :: split_sp s'
      else match split_sp s' with
           | [] => [[c]]
           | w :: ws => (c :: w) :: ws
           end
  end.

Definition words_of (text : str) : list str :=
  split_sp (trim (replace_ws false text)).

(** One turn of [for (const w of words)]; the loop state is [(lines, line)].
    [measure s] stands for [ctx.measureText(s).width]. *)
Definition wrap_step (measure : str -> Q) (maxWidth : Q)
  (st : list str * str) (w : str) : list str * str :=
  let '(lines, line) := st in
  let test := (if truthy line then line ++ [sp] else []) ++ w in
  if negb (Qle_bool (measure test) maxWidth)
  then (Segmenter.push_truthy lines line, w)
  else (lines, test).

Definition wrapText (measure : str -> Q) (text : str) (maxWidth : Q)
  : list str :=
  let words := words_of text in
  let '(lines, line) := fold_left (wrap_step measure maxWidth) words ([], []) in
  Segmenter.push_truthy lines line.

(** White space only as single spaces; [prev] tells that a space came just
    before. *)
Fixpoint single_spaced (prev : bool) (s : str) : bool :=
  match s with
  | [] => true
  | c :: s' =>
      if is_ws c then negb prev && (c =? sp)%N && single_spaced true s'
      else single_spaced false s'
  end.

(** No space first ([prev] set), last or twice in a row, so that splitting
    at spaces leaves no empty word. *)
Fixpoint tidy (prev : bool) (s : str) : bool :=
  match s with
  | [] => negb prev
  | c :: s' =>
      if (c =? sp)%N then negb prev && tidy true s' else tidy false s'
  end.

Definition no_sp (w : str) : bool := forallb (fun c => negb (c =? sp)%N) w.

(** The words that went into one line: one word alone, or several whose
    join measures within [maxWidth]. *)
Definition OkLine (measure : str -> Q) (maxWidth : Q) (g : list str) : Prop :=
  g <> [] /\ Forall (fun w => w <> []) g /\
  (length g = 1 \/ Qle_bool (measure (join_sp g)) maxWidth = true).

End WordWrap.

(** ** The job state and the platform *)

Module Pipeline.

Import Segmenter WordWrap.

Local Open Scope string_scope.

(** A byte stream ([Blob], [Uint8Array]). *)
Definition Blob := list N.

(** A thrown value or rejection reason, as far as the code looks at it:
    [err?.message] (absent when [err] has no such property or is nullish)
    and [String(err)]. *)
Record JsErr := { message : option str; toString : str }.

(** [err?.message ?? String(err)] *)
Definition error_text (err : JsErr) : str :=
  match message err with
  | Some m => m
  | None => toString err
  end.

(** [new Error(msg)] *)
Definition Error (msg : string) : JsErr :=
  {| message := Some (lit msg); toString := lit ("Error: " ++ msg) |}.

Record VoiceOption := {
  v_name : str;
  v_lang : str;
  v_voiceURI : str;
  v_default : bool }.

Inductive Status := st_idle | st_capturing | st_encoding | st_ready | st_error.

Record JobState := {
  text : str;
  voiceURI : option str;
  rate : Q;
  pitch : Q;
  volume : Q;
  mp3Url : option str;
  mp4Url : option str;
  imageUrl : option str;
  durationMs : option Z;
  status : Status;
  error : option str;
  progress : option Z }.

(** The object spreads [{ ...s, field: v }] of the [setState] updaters. *)
Definition set_mp3Url (v : option str) (s : JobState) : JobState :=
  {| text := text s; voiceURI := voiceURI s; rate := rate s; pitch := pitch s;
     volume := volume s; mp3Url := v; mp4Url := mp4Url s;
     imageUrl := imageUrl s; durationMs := durationMs s; status := status s;
     error := error s; progress := progress s |}.

Definition set_mp4Url (v : option str) (s : JobState) : JobState :=
  {| text := text s; voiceURI := voiceURI s; rate := rate s; pitch := pitch s;
     volume := volume s; mp3Url := mp3Url s; mp4Url := v;
     imageUrl := imageUrl s; durationMs := durationMs s; status := status s;
     error := error s; progress := progress s |}.

Definition set_imageUrl (v : option str) (s : JobState) : JobState :=
  {| text := text s; voiceURI := voiceURI s; rate := rate s; pitch := pitch s;
     volume := volume s; mp3Url := mp3Url s; mp4Url := mp4Url s;
     imageUrl := v; durationMs := durationMs s; status := status s;
     error := error s; progress := progress s |}.

Definition set_durationMs (v : option Z) (s : JobState) : JobState :=
  {| text := text s; voiceURI := voiceURI s; rate := rate s; pitch := pitch s;
     volume := volume s; mp3Url := mp3Url s; mp4Url := mp4Url s;
     imageUrl := imageUrl s; durationMs := v; status := status s;
     error := error s; progress := progress s |}.

Definition set_status (v : Status) (s : JobState) : JobState :=
  {| text := text s; voiceURI := voiceURI s; rate := rate s; pitch := pitch s;
     volume := volume s; mp3Url := mp3Url s; mp4Url := mp4Url s;
     imageUrl := imageUrl s; durationMs := durationMs s; status := v;
     error := error s; progress := progress s |}.

Definition set_error (v : option str) (s : JobState) : JobState :=
  {| text := text s; voiceURI := voiceURI s; rate := rate s; pitch := pitch s;
     volume := volume s; mp3Url := mp3Url s; mp4Url := mp4Url s;
     imageUrl := imageUrl s; durationMs := durationMs s; status := status s;
     error := v; progress := progress s |}.

Definition set_progress (v : option Z) (s : JobState) : JobState :=
  {| text := text s; voiceURI := voiceURI s; rate := rate s; pitch := pitch s;
     volume := volume s; mp3Url := mp3Url s; mp4Url := mp4Url s;
     imageUrl := imageUrl s; durationMs := durationMs s; status := status s;
     error := error s; progress := v |}.

(** [j'] is [j] but for its progress. *)
Definition progress_only (j j' : JobState) : Prop :=
  j' = set_progress (progress j') j.

(** What one [speechSynthesis.speak(u)] hands to the synthesizer. *)
Record Utterance := {
  u_text : str;
  u_voice : option VoiceOption;
  u_rate : Q;
  u_pitch : Q;
  u_volume : Q }.

(** The two [FFmpeg] instances of a job. *)
Inductive Stage := Transcode | Compose.

Inductive DrawCmd :=
| FillRect (x y w h : Z)
| FillText (font : string) (line : str) (x y : Z).

(** How an awaited operation ends: it resolves, it rejects (or throws), or
    it never settles. *)
Inductive Result (A : Type) :=
| Ok (a : A)
| Throw (e : JsErr)
| Pending.
Arguments Ok {A} a.
Arguments Throw {A} e.
Arguments Pending {A}.

(** The collaborators of the page, as the answers they give.  The [k] of
    [utterance_ends] is the position of the utterance in the job's sequence
    of [speak] calls: [Ok] when its [onend] fires, [Throw e] when its
    [onerror] fires with [e.error ?? e] being [e], [Pending] when neither
    does. *)
Record Platform := {
  getDisplayMedia : Result unit;
  newMediaRecorder : Result unit;
  speaking : bool;
  getVoices : list VoiceOption;
  utterance_ends : nat -> Utterance -> Result unit;
  recorder_stop : Result unit;
  recorded : Blob;
  elapsed : Z;
  ffmpeg_import : Stage -> Result unit;
  ffmpeg_load : Stage -> Result unit;
  ffmpeg_writeFile : Stage -> string -> Blob -> Result unit;
  ffmpeg_exec : Stage -> list string -> Result unit;
  ffmpeg_readFile : Stage -> string -> Result Blob;
  measureText : str -> Q;
  toBlob : list DrawCmd -> option Blob;
  createObjectURL : Blob -> str }.

(** What the page does to the outside, in order; the callbacks of the
    synthesizer are part of the record. *)
Inductive Event :=
| SetState (s : JobState)
| SetIsBusy (b : bool)
| GetDisplayMedia
| StopVideoTrackLater
| NewMediaRecorder
| RecorderStart
| RecorderStop
| SynthCancel
| SynthSpeak (k : nat) (u : Utterance)
| UtteranceEnd (k : nat)
| UtteranceError (k : nat) (e : JsErr)
| FfmpegImport (g : Stage)
| FfmpegLoad (g : Stage)
| FfmpegWriteFile (g : Stage) (name : string) (data : Blob)
| FfmpegExec (g : Stage) (args : list string)
| FfmpegReadFile (g : Stage) (name : string)
| CanvasDraw (cmds : list DrawCmd)
| CanvasToBlob
| CreateObjectURL (b : Blob)
| ConsoleError (e : JsErr).

(** The component while a handler runs: the job state as the pending
    [setState] updaters leave it, [isBusy], and the record of events. *)
Record Sys := {
  job : JobState;
  isBusy : bool;
  log : list Event }.

(** ** Asynchronous code as a state and exception monad *)

Definition M (A : Type) : Type := Sys -> Sys * Result A.

Definition ret {A} (a : A) : M A := fun s => (s, Ok a).

Definition bind {A B} (m : M A) (f : A -> M B) : M B :=
  fun s =>
    match m s with
    | (s', Ok a) => f a s'
    | (s', Throw e) => (s', Throw e)
    | (s', Pending) => (s', Pending)
    end.

Notation "x <- m ;; k" := (bind m (fun x => k))
  (at level 61, m at next level, right associativity).
Notation "m ;;; k" := (bind m (fun _ => k))
  (at level 61, right associativity).

Definition throw {A} (e : JsErr) : M A := fun s => (s, Throw e).

Definition emit (ev : Event) : M unit :=
  fun s => ({| job := job s; isBusy := isBusy s; log := log s ++ [ev] |}, Ok tt).

(** A call to a collaborator: recorded, then answered. *)
Definition call {A} (ev : Event) (answer : Result A) : M A :=
  fun s => ({| job := job s; isBusy := isBusy s; log := log s ++ [ev] |}, answer).

(** [setState((s) => f(s))] *)
Definition setState (f : JobState -> JobState) : M unit :=
  fun s => let j := f (job s) in
           ({| job := j; isBusy := isBusy s; log := log s ++ [SetState j] |}, Ok tt).

Definition setIsBusy (b : bool) : M unit :=
  fun s => ({| job := job s; isBusy := b; log := log s ++ [SetIsBusy b] |}, Ok tt).

(** [try { body } catch (err) { handler }]; a promise that never settles is
    not caught. *)
Definition try_catch {A} (body : M A) (handler : JsErr -> M A) : M A :=
  fun s =>
    match body s with
    | (s', Throw e) => handler e s'
    | r => r
    end.

(** [try { body } finally { fin }] *)
Definition try_finally {A} (body : M A) (fin : M unit) : M A :=
  fun s =>
    match body s with
    | (s', Pending) => (s', Pending)
    | (s', r) =>
        match fin s' with
        | (s'', Ok _) => (s'', r)
        | (s'', Throw e) => (s'', Throw e)
        | (s'', Pending) => (s'', Pending)
        end
    end.

(** ** The pipeline stages *)

Fixpoint str_eqb (a b : str) : bool :=
  match a, b with
  | [], [] => true
  | x :: a', y :: b' => (x =? y)%N && str_eqb a' b'
  | _, _ => false
  end.

(** [Math.round((index / chunks.length) * 25)], in doubles: the quotient is
    rounded to a double, then the product, then [Math.round] is taken.  The
    result is an integer except when it is NaN or an infinity, which takes
    a [chunks.length] of 0 or a length beyond the doubles; [splitText]
    never returns the first and no array has the second.  The job holds
    integers, so for these the exactly rounded quotient is written down. *)
Definition tts_progress (index total : nat) : Z :=
  match Double.Math_round
          (Double.mul
             (Double.div (Double.of_Z (Z.of_nat index))
                         (Double.of_Z (Z.of_nat total)))
             (Double.of_Z 25)) with
  | Some z => z
  | None => ((50 * Z.of_nat index + Z.of_nat total) / (2 * Z.of_nat total))%Z
  end.

Definition mp3_args : list string :=
  ["-i"; "in.webm"; "-vn"; "-acodec"; "libmp3lame"; "-b:a"; "192k"; "out.mp3"].

Definition probe_args : list string :=
  ["-i"; "audio.mp3"; "-f"; "null"; "-"].

Definition mp4_args : list string :=
  ["-loop"; "1";
   "-i"; "bg.png";
   "-i"; "audio.mp3";
   "-c:v"; "libx264";
   "-tune"; "stillimage";
   "-c:a"; "aac";
   "-b:a"; "192k";
   "-pix_fmt"; "yuv420p";
   "-shortest";
   "-movflags"; "+faststart";
   "-vf"; "fps=30,scale=1920:1080:flags=lanczos";
   "out.mp4"].

Section Page.

(** The platform, and what the closures of one render see: [state] and
    [voices]. *)
Variable pf : Platform.
Variable state : JobState.
Variable voices : list VoiceOption.

Definition selectedVoice : option VoiceOption :=
  match voiceURI state with
  | Some uri => find (fun v => str_eqb (v_voiceURI v) uri) voices
  | None => None
  end.

(** [speakChunk(chunk, onEnd, onError)]; [k] numbers the utterance for the
    record of events.  The callbacks are the continuations. *)
Definition speakChunk {A} (k : nat) (chunk : str)
  (onEnd : M A) (onError : JsErr -> M A) : M A :=
  let voice :=
    match selectedVoice with
    | Some sel =>
        find (fun v => str_eqb (v_voiceURI v) (v_voiceURI sel)) (getVoices pf)
    | None => None
    end in
  let u := {| u_text := chunk; u_voice := voice; u_rate := rate state;
              u_pitch := pitch state; u_volume := volume state |} in
  fun s =>
    match call (SynthSpeak k u) (utterance_ends pf k u) s with
    | (s', Ok _) => (emit (UtteranceEnd k) ;;; onEnd) s'
    | (s', Throw e) => (emit (UtteranceError k e) ;;; onError e) s'
    | (s', Pending) => (s', Pending)
    end.

(** The [onEnd] closure of [speakText], entered with [index] as it is
    before [index += 1]; [resolve()] is [ret tt] and [reject] is [throw].
    [chunks[index]] is read with the empty text for an index out of range,
    which the guard [index < chunks.length] excludes. *)
Equations? onEnd (chunks : list str) (index : nat) : M unit
  by wf (length chunks - index) lt :=
  onEnd chunks index :=
    let index' := index + 1 in
    setState (set_progress (Some (tts_progress index' (length chunks)))) ;;;
    match lt_dec index' (length chunks) with
    | left _ => speakChunk index' (nth index' chunks []) (onEnd chunks index') throw
    | right _ => ret tt
    end.
Proof. lia. Qed.

Definition speakText (input : str) : M unit :=
  (if speaking pf then emit SynthCancel else ret tt) ;;;
  let chunks := splitText input 1800 in
  speakChunk 0 (nth 0 chunks []) (onEnd chunks 0) throw.

Definition transcodeWebmToMp3 (webm : Blob) (onProgress : Z -> M unit)
  : M Blob :=
  call (FfmpegImport Transcode) (ffmpeg_import pf Transcode) ;;;
  call (FfmpegLoad Transcode) (ffmpeg_load pf Transcode) ;;;
  call (FfmpegWriteFile Transcode "in.webm" webm)
       (ffmpeg_writeFile pf Transcode "in.webm" webm) ;;;
  call (FfmpegExec Transcode mp3_args) (ffmpeg_exec pf Transcode mp3_args) ;;;
  data <- call (FfmpegReadFile Transcode "out.mp3")
               (ffmpeg_readFile pf Transcode "out.mp3") ;;
  onProgress 100%Z ;;;
  ret data.

Definition speakAndRecord (input : str) : M (Blob * Z) :=
  setIsBusy true ;;;
  setState (fun s => set_mp4Url None (set_mp3Url None (set_progress (Some 0%Z)
              (set_error None (set_status st_capturing s))))) ;;;
  try_finally
    (try_catch
       (call GetDisplayMedia (getDisplayMedia pf) ;;;
        emit StopVideoTrackLater ;;;
        call NewMediaRecorder (newMediaRecorder pf) ;;;
        emit RecorderStart ;;;
        speakText input ;;;
        call RecorderStop (recorder_stop pf) ;;;
        let webmBlob := recorded pf in
        let durationMs := elapsed pf in
        mp3Blob <- transcodeWebmToMp3 webmBlob (fun p =>
          setState (fun s => set_progress (Some p) (set_status st_encoding s))) ;;
        mp3Url <- call (CreateObjectURL mp3Blob) (Ok (createObjectURL pf mp3Blob)) ;;
        setState (fun s => set_durationMs (Some durationMs)
                             (set_mp3Url (Some mp3Url) s)) ;;;
        ret (mp3Blob, durationMs))
       (fun err =>
          emit (ConsoleError err) ;;;
          setState (fun s => set_error (Some (error_text err))
                               (set_status st_error s)) ;;;
          throw err))
    (setIsBusy false).

Definition title_font : string := "bold 64px Inter, system-ui, sans-serif".
Definition body_font : string := "28px Inter, system-ui, sans-serif".
Definition footer_font : string := "24px Inter, system-ui, sans-serif".

(** The body lines: [ctx.fillText(line, padding, y); y += 40]. *)
Fixpoint draw_lines (lines : list str) (padding y : Z) : list DrawCmd :=
  match lines with
  | [] => []
  | line :: rest =>
      FillText body_font line padding y :: draw_lines rest padding (y + 40)%Z
  end.

Definition generateImageFromText (input : str) (width height : Z)
  : M (Blob * str) :=
  let padding := 80%Z in
  let boxWidth := (width - padding * 2)%Z in
  let lines := wrapText (measureText pf) (slice input 0 800) (inject_Z boxWidth) in
  let cmds :=
    FillRect 0 0 width height
    :: FillText title_font (lit "TextToVideo Converter Pro") padding padding
    :: draw_lines (firstn 14 lines) padding (padding + 100)%Z
    ++ [FillText footer_font (lit "Gerado automaticamente a partir de texto")
          padding (height - padding - 32)%Z] in
  emit (CanvasDraw cmds) ;;;
  blob <- call CanvasToBlob
            (match toBlob pf cmds with
             | Some b => Ok b
             | None => Throw (Error "Falha ao gerar imagem")
             end) ;;
  url <- call (CreateObjectURL blob) (Ok (createObjectURL pf blob)) ;;
  ret (blob, url).

Definition composeVideo (mp3Blob imageBlob : Blob) (onProgress : Z -> M unit)
  : M Blob :=
  setState (fun s => set_progress (Some 40%Z) (set_status st_encoding s)) ;;;
  call (FfmpegImport Compose) (ffmpeg_import pf Compose) ;;;
  call (FfmpegLoad Compose) (ffmpeg_load pf Compose) ;;;
  call (FfmpegWriteFile Compose "bg.png" imageBlob)
       (ffmpeg_writeFile pf Compose "bg.png" imageBlob) ;;;
  call (FfmpegWriteFile Compose "audio.mp3" mp3Blob)
       (ffmpeg_writeFile pf Compose "audio.mp3" mp3Blob) ;;;
  call (FfmpegExec Compose probe_args) (ffmpeg_exec pf Compose probe_args) ;;;
  call (FfmpegExec Compose mp4_args) (ffmpeg_exec pf Compose mp4_args) ;;;
  mp4 <- call (FfmpegReadFile Compose "out.mp4")
              (ffmpeg_readFile pf Compose "out.mp4") ;;
  onProgress 100%Z ;;;
  ret mp4.

Definition too_long_message : str := lit "O texto excede 200.000 caracteres.".

Definition handleGenerate : M unit :=
  let input := trim (text state) in
  if falsy input then ret tt
  else if (200000 <? Z.of_nat (length input))%Z then
    setState (set_error (Some too_long_message))
  else
    try_catch
      (r <- speakAndRecord input ;;
       let '(mp3Blob, durationMs) := r in
       setState (fun s => set_progress (Some 55%Z) (set_status st_encoding s)) ;;;
       img <- generateImageFromText input 1920 1080 ;;
       let '(imageBlob, imageUrl) := img in
       setState (fun s => set_progress (Some 65%Z) (set_imageUrl (Some imageUrl) s)) ;;;
       mp4Blob <- composeVideo mp3Blob imageBlob (fun p =>
         setState (fun s => set_progress (Some (Z.max 70 p)) s)) ;;
       mp4Url <- call (CreateObjectURL mp4Blob) (Ok (createObjectURL pf mp4Blob)) ;;
       setState (fun s => set_durationMs (Some durationMs)
                            (set_mp4Url (Some mp4Url)
                               (set_progress (Some 100%Z)
                                  (set_status st_ready s)))))
      (fun _ => ret tt).

(** The component as the click on the generate button finds it. *)
Definition at_click : Sys := {| job := state; isBusy := false; log := [] |}.

End Page.

(** ** Reading the record of events *)

(** A call into a pipeline stage: capture, recording, speech, transcoding,
    rendering, composing, or the making of a download link. *)
Definition is_stage_call (ev : Event) : bool :=
  match ev with
  | SetState _ | SetIsBusy _ | ConsoleError _
  | UtteranceEnd _ | UtteranceError _ _ => false
  | _ => true
  end.


(** The events of the synthesizer and the progress updates between them. *)
Definition synth_event (ev : Event) : bool :=
  match ev with
  | SetState _ | SynthCancel | SynthSpeak _ _
  | UtteranceEnd _ | UtteranceError _ _ => true
  | _ => false
  end.

(** The argument lists of the encoder runs in a record. *)
Fixpoint exec_args (evs : list Event) : list (list string) :=
  match evs with
  | [] => []
  | FfmpegExec _ args :: evs' => args :: exec_args evs'
  | _ :: evs' => exec_args evs'
  end.

(** The order of the synthesizer's events in a record: [inl k] for chunk
    [k] handed over, [inr k] for its completion callback. *)
Fixpoint synth_order (evs : list Event) : list (nat + nat) :=
  match evs with
  | [] => []
  | SynthSpeak k _ :: evs' => inl k :: synth_order evs'
  | UtteranceEnd k :: evs' => inr k :: synth_order evs'
  | _ :: evs' => synth_order evs'
  end.

(** The option [flag] is given the value [value] in [args]. *)
Fixpoint has_opt (flag value : string) (args : list string) : bool :=
  match args with
  | a :: ((b :: _) as rest) =>
      (String.eqb a flag && String.eqb b value) || has_opt flag value rest
  | _ => false
  end.

(** [Spoken chunks k evs]: what the record can hold after chunk [k] has been
    handed to the synthesizer.  Nothing yet; or its error; or its end, the
    progress update, and then either nothing more (it was the last chunk)
    or chunk [k + 1] handed over and what follows that. *)
Inductive Spoken (chunks : list str) : nat -> list Event -> Prop :=
| Spoken_pending k : Spoken chunks k []
| Spoken_error k e : Spoken chunks k [UtteranceError k e]
| Spoken_last k j :
    progress j = Some (tts_progress (k + 1) (length chunks)) ->
    ~ k + 1 < length chunks ->
    Spoken chunks k [UtteranceEnd k; SetState j]
| Spoken_next k j u rest :
    progress j = Some (tts_progress (k + 1) (length chunks)) ->
    k + 1 < length chunks ->
    u_text u = nth (k + 1) chunks [] ->
    Spoken chunks (k + 1) rest ->
    Spoken chunks k
      (UtteranceEnd k :: SetState j :: SynthSpeak (k + 1) u :: rest).

End Pipeline.

(** ** Sample platforms and jobs *)

Module Samples.

Import Pipeline.

(** A platform on which everything works, but for the capture request and
    the utterances, which answer as given. *)
Definition platform_with (capture : Result unit)
  (utter : nat -> Utterance -> Result unit) : Platform :=
  {| getDisplayMedia := capture;
     newMediaRecorder := Ok tt;
     speaking := false;
     getVoices := [];
     utterance_ends := utter;
     recorder_stop := Ok tt;
     recorded := [26; 69; 223; 163]%N;
     elapsed := 1500%Z;
     ffmpeg_import := fun _ => Ok tt;
     ffmpeg_load := fun _ => Ok tt;
     ffmpeg_writeFile := fun _ _ _ => Ok tt;
     ffmpeg_exec := fun _ _ => Ok tt;
     ffmpeg_readFile := fun _ _ => Ok [73; 68; 51]%N;
     measureText := fun s => inject_Z (14 * Z.of_nat (length s));
     toBlob := fun _ => Some [137; 80; 78; 71]%N;
     createObjectURL := fun _ => lit "blob:local" |}.

(** The initial [useState] value of the page, with [input] typed in. *)
Definition fresh_job (input : str) : JobState :=
  {| text := input; voiceURI := None; rate := 1; pitch := 1; volume := 1;
     mp3Url := None; mp4Url := None; imageUrl := None; durationMs := None;
     status := st_idle; error := None; progress := None |}.

(** The user dismisses the capture prompt. *)
Definition denied : Platform :=
  platform_with (Throw (Error "Permission denied")) (fun _ _ => Ok tt).



(** The synthesizer fails on the second utterance; [e.error] is the error
    code, a string. *)
Definition synthesis_failed : JsErr :=
  {| message := None; toString := lit "synthesis-failed" |}.

Definition fails_second : Platform :=
  platform_with (Ok tt)
    (fun k _ => if Nat.eqb k 1 then Throw synthesis_failed else Ok tt).

(** The encoder fails on the probe of the audio and works otherwise. *)
Definition probe_failed : JsErr := Error "ffmpeg exited with code 1".

Definition probe_fails : Platform :=
  let pf := platform_with (Ok tt) (fun _ _ => Ok tt) in
  {| getDisplayMedia := getDisplayMedia pf;
     newMediaRecorder := newMediaRecorder pf;
     speaking := speaking pf;
     getVoices := getVoices pf;
     utterance_ends := utterance_ends pf;
     recorder_stop := recorder_stop pf;
     recorded := recorded pf;
     elapsed := elapsed pf;
     ffmpeg_import := ffmpeg_import pf;
     ffmpeg_load := ffmpeg_load pf;
     ffmpeg_writeFile := ffmpeg_writeFile pf;
     ffmpeg_exec := fun _ args =>
       if list_eq_dec string_dec args probe_args
       then Throw probe_failed else Ok tt;
     ffmpeg_readFile := ffmpeg_readFile pf;
     measureText := measureText pf;
     toBlob := toBlob pf;
     createObjectURL := createObjectURL pf |}.

(** Two sentences of 1,001 and 1,000 code units: too long for one chunk of
    1,800. *)
Definition two_chunk_text : str :=
  N.iter 1000 (cons 97%N) (lit ". ") ++ N.iter 1000 (cons 98%N) [].

(** One letter followed by 200,000 spaces: 200,001 code units. *)
Definition padded_text : str := 97%N :: N.iter 200000 (cons sp) [].

(** 200,001 letters. *)
Definition long_text : str := N.iter 200001 (cons 97%N) [].

End Samples.

(** ** Greedy grouping *)

Module Greedy.

(** [tight fits gs]: no group of [gs] could have taken the first string of
    the group after it; [fits buf p] tells whether [p] may be added to a
    group whose join is [buf]. *)
Fixpoint tight (fits : str -> str -> bool) (gs : list (list str)) : Prop :=
  match gs with
  | [] => True
  | g1 :: rest =>
      match rest with
      | [] => True
      | g2 :: _ => fits (join_sp g1) (hd [] g2) = false
      end /\ tight fits rest
  end.

(** The test of the merge loop of [splitText] on a non-empty [buf]. *)
Definition fits_len (maxLen : Z) (buf p : str) : bool :=
  (Z.of_nat (length buf + 1 + length p) <=? maxLen)%Z.

(** The test of the loop of [wrapText] on a non-empty [line]. *)
Definition fits_width (measure : str -> Q) (maxWidth : Q) (line w : str)
  : bool :=
  Qle_bool (measure (line ++ [sp] ++ w)) maxWidth.

End Greedy.

(** ** More readings of the record of events *)

Module Trace.

Import Segmenter Pipeline.

(** The texts handed to the synthesizer, in order. *)
Fixpoint spoken_texts (evs : list Event) : list str :=
  match evs with
  | [] => []
  | SynthSpeak _ u :: evs' => u_text u :: spoken_texts evs'
  | _ :: evs' => spoken_texts evs'
  end.

(** The utterance [speakChunk] builds for [chunk]. *)
Definition utterance_for (pf : Platform) (state : JobState)
  (voices : list VoiceOption) (chunk : str) : Utterance :=
  {| u_text := chunk;
     u_voice :=
       match selectedVoice state voices with
       | Some sel =>
           find (fun v => str_eqb (v_voiceURI v) (v_voiceURI sel)) (getVoices pf)
       | None => None
       end;
     u_rate := rate state; u_pitch := pitch state; u_volume := volume state |}.

(** What the record gains when chunk [k] of [chunks] is spoken to its end
    with the job at [j]: the hand-over, the completion callback and the
    progress update. *)
Definition tts_events (pf : Platform) (state : JobState)
  (voices : list VoiceOption) (chunks : list str) (j : JobState) (k : nat)
  : list Event :=
  [SynthSpeak k (utterance_for pf state voices (nth k chunks []));
   UtteranceEnd k;
   SetState (set_progress (Some (tts_progress (k + 1) (length chunks))) j)].

(** The platform's answer to chunk [k] as [speakChunk] hands it over. *)
Definition answer (pf : Platform) (state : JobState)
  (voices : list VoiceOption) (chunks : list str) (k : nat) : Result unit :=
  utterance_ends pf k (utterance_for pf state voices (nth k chunks [])).

Definition is_ok (r : Result unit) : bool :=
  match r with
  | Ok _ => true
  | _ => false
  end.

(** The first chunk that does not end well, if there is one. *)
Definition first_failure (pf : Platform) (state : JobState)
  (voices : list VoiceOption) (chunks : list str) : option nat :=
  find (fun k => negb (is_ok (answer pf state voices chunks k)))
       (seq 0 (length chunks)).

(** The callback event of an utterance that did not end well. *)
Definition failure_events (k : nat) (r : Result unit) : list Event :=
  match r with
  | Throw e => [UtteranceError k e]
  | _ => []
  end.

(** How a job that has entered the pipeline can stand when [handleGenerate]
    has resolved. *)
Inductive Ending (pf : Platform) (before after : JobState) : Prop :=
| Ended_ready mp3 img mp4 :
    status after = st_ready -> error after = None ->
    progress after = Some 100%Z ->
    mp3Url after = Some mp3 -> imageUrl after = Some img ->
    mp4Url after = Some mp4 -> durationMs after = Some (elapsed pf) ->
    Ending pf before after
| Ended_driver_failed m :
    status after = st_error -> error after = Some m ->
    mp3Url after = None -> mp4Url after = None ->
    imageUrl after = imageUrl before -> durationMs after = durationMs before ->
    Ending pf before after
| Ended_later_failed mp3 :
    status after = st_encoding -> error after = None ->
    mp3Url after = Some mp3 -> mp4Url after = None ->
    durationMs after = Some (elapsed pf) ->
    Ending pf before after.

(** What [handleGenerate] does once [speakAndRecord] has resolved with
    [mp3Blob] and [durationMs]: the rest of its [try] block. *)
Definition finish (pf : Platform) (input : str) (mp3Blob : Blob)
  (durationMs : Z) : M unit :=
  setState (fun s => set_progress (Some 55%Z) (set_status st_encoding s)) ;;;
  img <- generateImageFromText pf input 1920 1080 ;;
  let '(imageBlob, imageUrl) := img in
  setState (fun s => set_progress (Some 65%Z) (set_imageUrl (Some imageUrl) s)) ;;;
  mp4Blob <- composeVideo pf mp3Blob imageBlob (fun p =>
    setState (fun s => set_progress (Some (Z.max 70 p)) s)) ;;
  mp4Url <- call (CreateObjectURL mp4Blob) (Ok (createObjectURL pf mp4Blob)) ;;
  setState (fun s => set_durationMs (Some durationMs)
                       (set_mp4Url (Some mp4Url)
                          (set_progress (Some 100%Z)
                             (set_status st_ready s)))).

(** [speakText] as a plain iteration: the chunks before the first failure
    are spoken to their end; the failing chunk is handed over and its error,
    if any, comes back; nothing after it is spoken. *)
Definition tts_trace (pf : Platform) (state : JobState)
  (voices : list VoiceOption) (chunks : list str) (j : JobState)
  : list Event :=
  match first_failure pf state voices chunks with
  | None => flat_map (tts_events pf state voices chunks j) (seq 0 (length chunks))
  | Some f =>
      flat_map (tts_events pf state voices chunks j) (seq 0 f)
      ++ SynthSpeak f (utterance_for pf state voices (nth f chunks []))
      :: failure_events f (answer pf state voices chunks f)
  end.

Definition tts_result (pf : Platform) (state : JobState)
  (voices : list VoiceOption) (chunks : list str) : Result unit :=
  match first_failure pf state voices chunks with
  | None => Ok tt
  | Some f => answer pf state voices chunks f
  end.

(** The fields of the job that hold what the user has set. *)
Definition same_settings (j j' : JobState) : Prop :=
  text j' = text j /\ voiceURI j' = voiceURI j /\ rate j' = rate j /\
  pitch j' = pitch j /\ volume j' = volume j.



(** Every answer of the platform is a success. *)
Definition all_ok (pf : Platform) : Prop :=
  getDisplayMedia pf = Ok tt /\
  newMediaRecorder pf = Ok tt /\
  (forall k u, utterance_ends pf k u = Ok tt) /\
  recorder_stop pf = Ok tt /\
  (forall g, ffmpeg_import pf g = Ok tt) /\
  (forall g, ffmpeg_load pf g = Ok tt) /\
  (forall g n b, ffmpeg_writeFile pf g n b = Ok tt) /\
  (forall g a, ffmpeg_exec pf g a = Ok tt) /\
  (forall g n, exists b, ffmpeg_readFile pf g n = Ok b) /\
  (forall cmds, toBlob pf cmds <> None).

End Trace.

(** ** The steps of a stage *)

Module Steps.

Import Segmenter Pipeline Trace.

Local Open Scope string_scope.

(** How the platform answers a call, as far as it decides whether the
    stage goes on: well, with a rejection, or not at all.  Calls that
    cannot fail go well. *)
Definition answer_of (pf : Platform) (ev : Event) : Result unit :=
  match ev with
  | GetDisplayMedia => getDisplayMedia pf
  | NewMediaRecorder => newMediaRecorder pf
  | SynthSpeak k u => utterance_ends pf k u
  | RecorderStop => recorder_stop pf
  | FfmpegImport g => ffmpeg_import pf g
  | FfmpegLoad g => ffmpeg_load pf g
  | FfmpegWriteFile g name data => ffmpeg_writeFile pf g name data
  | FfmpegExec g args => ffmpeg_exec pf g args
  | FfmpegReadFile g name =>
      match ffmpeg_readFile pf g name with
      | Ok _ => Ok tt
      | Throw e => Throw e
      | Pending => Pending
      end
  | _ => Ok tt
  end.

(** Steps taken one after the other, up to and with the first that does
    not go well: the calls made and how it ends. *)
Fixpoint run_steps (pf : Platform) (steps : list Event)
  : list Event * Result unit :=
  match steps with
  | [] => ([], Ok tt)
  | ev :: rest =>
      match answer_of pf ev with
      | Ok _ => let '(made, r) := run_steps pf rest in (ev :: made, r)
      | Throw e => ([ev], Throw e)
      | Pending => ([ev], Pending)
      end
  end.

(** Chunk [k] handed to the synthesizer. *)
Definition speak_step (pf : Platform) (state : JobState)
  (voices : list VoiceOption) (chunks : list str) (k : nat) : Event :=
  SynthSpeak k (utterance_for pf state voices (nth k chunks [])).

(** The calls of [speakText] in the order of the source. *)
Definition speech_steps (pf : Platform) (state : JobState)
  (voices : list VoiceOption) (input : str) : list Event :=
  (if speaking pf then [SynthCancel] else [])
  ++ map (speak_step pf state voices (splitText input 1800))
         (seq 0 (length (splitText input 1800))).

(** The calls of [speakAndRecord] that can keep it from its result, in the
    order of the source: capture, recorder, speech, the stop of the
    recorder, and the five calls of [transcodeWebmToMp3]. *)
Definition driver_steps (pf : Platform) (state : JobState)
  (voices : list VoiceOption) (input : str) : list Event :=
  [GetDisplayMedia; StopVideoTrackLater; NewMediaRecorder; RecorderStart]
  ++ speech_steps pf state voices input
  ++ [RecorderStop;
      FfmpegImport Transcode; FfmpegLoad Transcode;
      FfmpegWriteFile Transcode "in.webm" (recorded pf);
      FfmpegExec Transcode mp3_args;
      FfmpegReadFile Transcode "out.mp3"].

(** The calls of [composeVideo] in the order of the source. *)
Definition compose_steps (mp3Blob imageBlob : Blob) : list Event :=
  [FfmpegImport Compose; FfmpegLoad Compose;
   FfmpegWriteFile Compose "bg.png" imageBlob;
   FfmpegWriteFile Compose "audio.mp3" mp3Blob;
   FfmpegExec Compose probe_args;
   FfmpegExec Compose mp4_args;
   FfmpegReadFile Compose "out.mp4"].

End Steps.

(** ** Reading the drawing *)

Module Canvas.

Import Pipeline.

Local Open Scope string_scope.

(** The [fillText] calls made in the body font: the text and where it is
    put. *)
Fixpoint body_lines (cmds : list DrawCmd) : list (str * (Z * Z)) :=
  match cmds with
  | [] => []
  | FillText font line x y :: rest =>
      if String.eqb font body_font then (line, (x, y)) :: body_lines rest
      else body_lines rest
  | _ :: rest => body_lines rest
  end.

(** The files written into the encoder's file system. *)
Fixpoint written (evs : list Event) : list (Stage * string * Blob) :=
  match evs with
  | [] => []
  | FfmpegWriteFile g name data :: evs' => (g, name, data) :: written evs'
  | _ :: evs' => written evs'
  end.

(** The files read back from the encoder's file system. *)
Fixpoint read_back (evs : list Event) : list (Stage * string) :=
  match evs with
  | [] => []
  | FfmpegReadFile g name :: evs' => (g, name) :: read_back evs'
  | _ :: evs' => read_back evs'
  end.

End Canvas.

(** ** The controls of the page *)

Module Controls.

Import Pipeline.

(** [{ ...s, voiceURI: v }] *)
Definition set_voiceURI (v : option str) (s : JobState) : JobState :=
  {| text := text s; voiceURI := v; rate := rate s; pitch := pitch s;
     volume := volume s; mp3Url := mp3Url s; mp4Url := mp4Url s;
     imageUrl := imageUrl s; durationMs := durationMs s; status := status s;
     error := error s; progress := progress s |}.

(** [disabled={isBusy || !state.text.trim()}] of the generate button. *)
Definition generate_disabled (busy : bool) (state : JobState) : bool :=
  busy || falsy (trim (text state)).

(** [maxLength={200_000}] of the text area. *)
Definition maxLength : Z := 200000%Z.

(** [s.startsWith(prefix)] *)
Fixpoint startsWith (s prefix : str) : bool :=
  match prefix with
  | [] => true
  | p :: prefix' =>
      match s with
      | [] => false
      | c :: s' => (c =? p)%N && startsWith s' prefix'
      end
  end.

(** [!state.voiceURI]: no voice chosen, or the empty string. *)
Definition no_voice (state : JobState) : bool :=
  match voiceURI state with
  | None => true
  | Some uri => falsy uri
  end.

Section Voices.

(** [String.prototype.toLowerCase], left to the platform. *)
Variable toLowerCase : str -> str.

Definition is_pt (v : VoiceOption) : bool :=
  startsWith (toLowerCase (v_lang v)) (lit "pt").

(** [loadVoices()]: the list given to [setVoices], and the updater given to
    [setState] when there is one. *)
Definition loadVoices (pf : Platform) (state : JobState)
  : list VoiceOption * option (JobState -> JobState) :=
  let mapped := getVoices pf in
  (mapped,
   match mapped with
   | first :: _ =>
       if no_voice state then
         let pt := find is_pt mapped in
         Some (set_voiceURI
                 (Some (v_voiceURI (match pt with
                                    | Some v => v
                                    | None => first
                                    end))))
       else None
   | [] => None
   end).

(** The job and the voice list once [loadVoices] has run and its updates
    are in. *)
Definition voices_loaded (pf : Platform) (state : JobState)
  : JobState * list VoiceOption :=
  match loadVoices pf state with
  | (mapped, Some upd) => (upd state, mapped)
  | (mapped, None) => (state, mapped)
  end.

End Voices.

End Controls.

(** ** Voices to try the controls on *)

Module VoiceSamples.

Import Pipeline.

(** Lower case for the letters A to Z, other code units as they are. *)
Definition ascii_lower (s : str) : str :=
  map (fun c => if ((65 <=? c) && (c <=? 90))%N then (c + 32)%N else c) s.

Definition voice_en : VoiceOption :=
  {| v_name := lit "Samantha"; v_lang := lit "en-US";
     v_voiceURI := lit "urn:voice:samantha"; v_default := true |}.

Definition voice_pt : VoiceOption :=
  {| v_name := lit "Luciana"; v_lang := lit "PT-br";
     v_voiceURI := lit "urn:voice:luciana"; v_default := false |}.

(** A platform on which everything works, with two voices. *)
Definition two_voices : Platform :=
  let pf := Samples.platform_with (Ok tt) (fun _ _ => Ok tt) in
  {| getDisplayMedia := getDisplayMedia pf;
     newMediaRecorder := newMediaRecorder pf;
     speaking := speaking pf;
     getVoices := [voice_en; voice_pt];
     utterance_ends := utterance_ends pf;
     recorder_stop := recorder_stop pf;
     recorded := recorded pf;
     elapsed := elapsed pf;
     ffmpeg_import := ffmpeg_import pf;
     ffmpeg_load := ffmpeg_load pf;
     ffmpeg_writeFile := ffmpeg_writeFile pf;
     ffmpeg_exec := ffmpeg_exec pf;
     ffmpeg_readFile := ffmpeg_readFile pf;
     measureText := measureText pf;
     toBlob := toBlob pf;
     createObjectURL := createObjectURL pf |}.

End VoiceSamples.

(** ** The theme toggle *)

Module ThemeToggle.

Local Open Scope string_scope.

(** [theme === "system" ? systemTheme : theme]; [None] is [undefined]. *)
Definition activeTheme (theme systemTheme : option string) : option string :=
  match theme with
  | Some t => if String.eqb t "system" then systemTheme else theme
  | None => theme
  end.

(** The argument of [setTheme] in [onClick]. *)
Definition onClick (theme systemTheme : option string) : string :=
  match activeTheme theme systemTheme with
  | Some a => if String.eqb a "dark" then "light" else "dark"
  | None => "dark"
  end.

End ThemeToggle.

(** * Properties *)

(** ** White space and [trim] *)

Module JsFacts.

Arguments is_ws : simpl never.

Lemma all_ws_app a b : all_ws (a ++ b) = all_ws a && all_ws b.
Proof. apply forallb_app. Qed.

Lemma takeWhile_dropWhile p s : takeWhile p s ++ dropWhile p s = s.
Proof.
  induction s as [|c s IH]; simpl; [reflexivity|].
  destruct (p c); simpl; [now rewrite IH | reflexivity].
Qed.

Lemma takeWhile_all p s : forallb p (takeWhile p s) = true.
Proof.
  induction s as [|c s IH]; simpl; [reflexivity|].
  destruct (p c) eqn:E; simpl; [now rewrite E | reflexivity].
Qed.

Lemma dropWhile_head p s c r : dropWhile p s = c :: r -> p c = false.
Proof.
  induction s as [|d s IH]; simpl; [discriminate|].
  destruct (p d) eqn:E; [exact IH|].
  intros H; inversion H; subst; exact E.
Qed.

Lemma dropWhile_all p s : forallb p s = true -> dropWhile p s = [].
Proof.
  induction s as [|c s IH]; simpl; [reflexivity|].
  destruct (p c); simpl; [exact IH | discriminate].
Qed.

Lemma dropWhile_app_all p w x :
  forallb p w = true -> dropWhile p (w ++ x) = dropWhile p x.
Proof.
  induction w as [|c w IH]; simpl; [reflexivity|].
  destruct (p c); simpl; [exact IH | discriminate].
Qed.

Lemma trimEnd_nil s : trimEnd s = [] <-> all_ws s = true.
Proof.
  induction s as [|c s IH]; simpl; [tauto|].
  destruct (trimEnd s) as [|t ts] eqn:E.
  - destruct (is_ws c) eqn:Ec; simpl.
    + split; [intros _; now apply IH | reflexivity].
    + split; [discriminate | discriminate].
  - split; [discriminate|].
    intros H. apply andb_true_iff in H. destruct H as [_ H].
    apply IH in H. discriminate.
Qed.

Lemma trimEnd_split s : exists w, s = trimEnd s ++ w /\ all_ws w = true.
Proof.
  induction s as [|c s [w [Hs Hw]]]; simpl.
  - exists []. split; reflexivity.
  - destruct (trimEnd s) as [|t ts] eqn:E.
    + destruct (is_ws c) eqn:Ec.
      * exists (c :: s). split; [reflexivity|].
        simpl. rewrite Ec. apply trimEnd_nil. exact E.
      * exists s. split; [reflexivity|]. apply trimEnd_nil. exact E.
    + exists w. split; [|exact Hw]. simpl in *. f_equal. exact Hs.
Qed.

Lemma trimEnd_snoc s c : is_ws c = false -> trimEnd (s ++ [c]) = s ++ [c].
Proof.
  intros Hc. induction s as [|d s IH]; simpl.
  - now rewrite Hc.
  - rewrite IH. destruct (s ++ [c]) eqn:E; [|reflexivity].
    destruct s; discriminate.
Qed.

Lemma trimEnd_app_ws x w : all_ws w = true -> trimEnd (x ++ w) = trimEnd x.
Proof.
  intros Hw. induction x as [|c x IH]; simpl.
  - apply trimEnd_nil. exact Hw.
  - now rewrite IH.
Qed.

Lemma trimEnd_last s d : trimEnd s <> [] -> is_ws (last (trimEnd s) d) = false.
Proof.
  induction s as [|c s IH]; simpl; [congruence|].
  destruct (trimEnd s) as [|t ts] eqn:E.
  - destruct (is_ws c) eqn:Ec; [congruence|]. intros _. exact Ec.
  - intros _. apply IH. discriminate.
Qed.

Lemma trimEnd_cons c s :
  is_ws c = false -> exists r, trimEnd (c :: s) = c :: r.
Proof.
  intros Hc. simpl. destruct (trimEnd s) as [|t ts].
  - rewrite Hc. now exists [].
  - now exists (t :: ts).
Qed.

Lemma trimStart_split s :
  exists w, s = w ++ trimStart s /\ all_ws w = true.
Proof.
  exists (takeWhile is_ws s). split.
  - symmetry. apply takeWhile_dropWhile.
  - apply takeWhile_all.
Qed.

(** [trim] only removes white space, at both ends. *)
Lemma trim_split s :
  exists w1 w2, s = w1 ++ trim s ++ w2 /\ all_ws w1 = true /\ all_ws w2 = true.
Proof.
  destruct (trimStart_split s) as [w1 [H1 Hw1]].
  destruct (trimEnd_split (trimStart s)) as [w2 [H2 Hw2]].
  exists w1, w2. unfold trim. rewrite <- H2. auto.
Qed.

(** Neither end of a non-empty [trim] result is white space. *)
Lemma trim_edges s c r :
  trim s = c :: r -> is_ws c = false /\ is_ws (last (c :: r) c) = false.
Proof.
  unfold trim. intros H.
  destruct (trimStart s) as [|d y] eqn:Ey; [discriminate|].
  assert (Hd : is_ws d = false) by (eapply dropWhile_head; exact Ey).
  destruct (trimEnd_cons d y Hd) as [r' Hr']. rewrite Hr' in H.
  inversion H; subst. split; [exact Hd|].
  rewrite <- Hr'. apply trimEnd_last. rewrite Hr'. discriminate.
Qed.

Lemma trim_fixed c r :
  is_ws c = false -> is_ws (last (c :: r) c) = false -> trim (c :: r) = c :: r.
Proof.
  intros Hc Hl. unfold trim, trimStart. simpl dropWhile. rewrite Hc.
  assert (E : c :: r = removelast (c :: r) ++ [last (c :: r) c])
    by (apply app_removelast_last; discriminate).
  rewrite E. apply trimEnd_snoc. exact Hl.
Qed.

Lemma trim_idem s : trim (trim s) = trim s.
Proof.
  destruct (trim s) as [|c r] eqn:E; [reflexivity|].
  apply trim_edges in E. destruct E. now apply trim_fixed.
Qed.

Lemma trim_nil s : trim s = [] <-> all_ws s = true.
Proof.
  split.
  - intros H. destruct (trim_split s) as [w1 [w2 [Hs [H1 H2]]]].
    rewrite H in Hs. simpl in Hs. rewrite Hs, all_ws_app, H1, H2. reflexivity.
  - intros H. unfold trim, trimStart.
    unfold all_ws in H. now rewrite dropWhile_all.
Qed.

Lemma trim_app_ws_r x w : all_ws w = true -> trim (x ++ w) = trim x.
Proof.
  intros Hw. unfold trim, trimStart.
  destruct (dropWhile is_ws x) as [|c y] eqn:E.
  - assert (Hx : all_ws x = true).
    { apply trim_nil. unfold trim, trimStart. now rewrite E. }
    rewrite dropWhile_all; [reflexivity|].
    fold (all_ws (x ++ w)). now rewrite all_ws_app, Hx, Hw.
  - assert (H : dropWhile is_ws (x ++ w) = (c :: y) ++ w).
    { clear Hw. revert E. induction x as [|d x IH]; simpl; [discriminate|].
      destruct (is_ws d); [exact IH|].
      intros E; inversion E; subst; reflexivity. }
    rewrite H. now apply trimEnd_app_ws.
Qed.

Lemma trim_app_ws_l w x : all_ws w = true -> trim (w ++ x) = trim x.
Proof.
  intros Hw. unfold trim, trimStart. now rewrite dropWhile_app_all.
Qed.

Lemma Trimmed_trim s : trim s <> [] -> Trimmed (trim s).
Proof. intros H. split; [exact H | apply trim_idem]. Qed.

Lemma Trimmed_edges s :
  Trimmed s <->
  exists c r, s = c :: r /\ is_ws c = false /\ is_ws (last (c :: r) c) = false.
Proof.
  split.
  - intros [Hne Ht]. destruct s as [|c r]; [congruence|].
    exists c, r. split; [reflexivity|]. apply (trim_edges (c :: r)). exact Ht.
  - intros [c [r [-> [Hc Hl]]]]. split; [discriminate | now apply trim_fixed].
Qed.

Lemma last_cons_default (b : str) c d e : last (c :: b) d = last (c :: b) e.
Proof.
  revert c. induction b as [|y b IH]; intros c; [reflexivity|].
  change (last (y :: b) d = last (y :: b) e). apply IH.
Qed.

Lemma last_app_cons (a b : str) c d e : last (a ++ c :: b) d = last (c :: b) e.
Proof.
  induction a as [|x a IH].
  - apply last_cons_default.
  - change ((x :: a) ++ c :: b) with (x :: (a ++ c :: b)).
    destruct (a ++ c :: b) as [|c0 l] eqn:E; [destruct a; discriminate|].
    change (last (x :: c0 :: l) d) with (last (c0 :: l) d). exact IH.
Qed.

(** Joining two trimmed strings, with anything between, gives a trimmed
    string. *)
Lemma Trimmed_app a m b : Trimmed a -> Trimmed b -> Trimmed (a ++ m ++ b).
Proof.
  intros Ha Hb. apply Trimmed_edges in Ha. apply Trimmed_edges in Hb.
  destruct Ha as [c [r [-> [Hc _]]]]. destruct Hb as [d [q [-> [_ Hl]]]].
  apply Trimmed_edges. exists c, (r ++ m ++ d :: q).
  split; [reflexivity|]. split; [exact Hc|].
  change (c :: r ++ m ++ d :: q) with ((c :: r) ++ m ++ d :: q).
  rewrite app_assoc. now rewrite (last_app_cons _ q d c d).
Qed.

End JsFacts.

(** ** Numbers *)

Module DoubleFacts.

Import Double.

Lemma div_eucl_mul (a b : Z) : (0 < b)%Z -> Z.div_eucl (b * a) b = (a, 0%Z).
Proof.
  intros Hb.
  pose proof (Z.div_mul a b ltac:(lia)) as Hq.
  pose proof (Z.mod_mul a b ltac:(lia)) as Hr.
  rewrite (Z.mul_comm a b) in Hq, Hr.
  unfold Z.div in Hq. unfold Z.modulo in Hr.
  destruct (Z.div_eucl (b * a) b) as [q r]. now subst.
Qed.

(** A finite number divided by itself is 1. *)
Lemma div_diag s m e :
  div (S754_finite s m e) (S754_finite s m e)
  = S754_finite false 4503599627370496 (-52).
Proof.
  unfold div, SFdiv, SFdiv_core_binary. cbv zeta.
  rewrite !Z.sub_diag.
  change (Z.min (fexp 53 1024 0) 0) with (-53)%Z.
  change (0 - -53)%Z with 53%Z. cbv iota beta.
  rewrite Z.shiftl_mul_pow2 by lia.
  change IntDef.Z.div_eucl with Z.div_eucl.
  rewrite div_eucl_mul by lia.
  assert (Hl : new_location (Z.pos m) 0 = loc_Exact).
  { unfold new_location. destruct (Z.even (Z.pos m)); reflexivity. }
  rewrite Hl. destruct s; vm_compute; reflexivity.
Qed.







End DoubleFacts.

(** ** The Segmenter *)

Module SegmenterFacts.

Import Segmenter JsFacts.

Arguments is_term : simpl never.
Arguments is_nl : simpl never.
Arguments is_break : simpl never.

Lemma is_nl_ws c : is_nl c = true -> is_ws c = true.
Proof.
  unfold is_nl. intros H. apply N.eqb_eq in H. subst. reflexivity.
Qed.

Lemma is_term_not_ws c : is_term c = true -> is_ws c = false.
Proof.
  unfold is_term. intros H.
  apply orb_true_iff in H. destruct H as [H|H].
  - apply orb_true_iff in H. destruct H as [H|H];
      apply N.eqb_eq in H; subst; reflexivity.
  - apply N.eqb_eq in H; subst; reflexivity.
Qed.

Lemma exec_at_None s i :
  exec_at s i = None -> forallb nb s = true.
Proof.
  revert i. induction s as [|c s IH]; intros i; simpl; [reflexivity|].
  unfold nb at 1, is_break.
  destruct (is_term c); [discriminate|].
  destruct (is_nl c); [discriminate|].
  intros H. simpl. eapply IH. exact H.
Qed.

Lemma exec_at_nb s i : forallb nb s = true -> exec_at s i = None.
Proof.
  revert i. induction s as [|c s IH]; intros i; simpl; [reflexivity|].
  unfold nb at 1, is_break.
  destruct (is_term c); [discriminate|].
  destruct (is_nl c); [discriminate|].
  simpl. intros H. apply IH. exact H.
Qed.

Lemma exec_at_Some s i index len :
  exec_at s i = Some (index, len) ->
  exists body m rest,
    s = body ++ m ++ rest /\ index = i + length body /\ len = length m /\
    forallb nb body = true /\
    (forallb is_term m = true \/ forallb is_nl m = true).
Proof.
  revert i. induction s as [|c s IH]; intros i; simpl; [discriminate|].
  destruct (is_term c) eqn:Ht.
  - intros H. inversion H; subst.
    exists [], (c :: takeWhile is_term s), (dropWhile is_term s).
    simpl. rewrite takeWhile_dropWhile, Ht, takeWhile_all.
    repeat split; auto.
  - destruct (is_nl c) eqn:Hn.
    + intros H. inversion H; subst.
      exists [], (c :: takeWhile is_nl s), (dropWhile is_nl s).
      simpl. rewrite takeWhile_dropWhile, Hn, takeWhile_all.
      repeat split; auto.
    + intros H. apply IH in H.
      destruct H as [body [m [rest [Hs [Hi [Hl [Hb Hm]]]]]]].
      exists (c :: body), m, rest. simpl. subst s.
      unfold nb at 1, is_break. rewrite Ht, Hn. simpl.
      repeat split; auto. lia.
Qed.

Lemma push_truthy_app parts seg :
  push_truthy parts seg = parts ++ filter truthy [seg].
Proof.
  unfold push_truthy. simpl. destruct (truthy seg); [reflexivity|].
  now rewrite app_nil_r.
Qed.

Lemma firstn_app_exact (a b : str) : firstn (length a) (a ++ b) = a.
Proof.
  rewrite firstn_app, Nat.sub_diag, firstn_all. simpl. apply app_nil_r.
Qed.

Lemma skipn_app_exact (a b : str) : skipn (length a) (a ++ b) = b.
Proof.
  rewrite skipn_app, Nat.sub_diag, skipn_all. reflexivity.
Qed.

(** What the loop and the push of the tail compute, read off the text that
    is still ahead of [lastIndex]. *)
Lemma split_loop_pieces remaining lastIndex parts :
  exists pcs,
    skipn lastIndex remaining = concat pcs /\
    Forall RawPiece pcs /\
    push_truthy (fst (split_loop remaining lastIndex parts))
      (trim (slice_from remaining (snd (split_loop remaining lastIndex parts))))
    = parts ++ trimmed_pieces pcs.
Proof.
  funelim (split_loop remaining lastIndex parts).
  - clear Heqcall.
    match goal with
    | IH : exists _, _ |- _ => destruct IH as [pcs [Hrest [Hraw Hres]]]
    end.
    match goal with H0 : _ = _ :> sigma _ |- _ => clear H0 | _ => idtac end.
    pose proof (exec_at_Some _ _ _ _ E) as E'.
    destruct E' as [body [m [rest [Hs [Hi [Hl [Hb Hm]]]]]]].
    assert (Hslice : slice remaining lastIndex (index + len) = body ++ m).
    { unfold slice. rewrite Hs.
      replace (index + len - lastIndex) with (length (body ++ m))
        by (rewrite length_app; lia).
      rewrite app_assoc. apply firstn_app_exact. }
    assert (Hskip : skipn (index + len) remaining = rest).
    { replace (index + len) with (length (body ++ m) + lastIndex)
        by (rewrite length_app; lia).
      rewrite <- skipn_skipn, Hs, app_assoc. apply skipn_app_exact. }
    exists ((body ++ m) :: pcs). split; [|split].
    + simpl. rewrite <- Hrest, Hskip, <- app_assoc. exact Hs.
    + constructor; [|exact Hraw]. exists body, m. auto.
    + rewrite Hres, Hslice, push_truthy_app. unfold trimmed_pieces.
      simpl. rewrite <- app_assoc. f_equal.
      destruct (truthy (trim (body ++ m))); reflexivity.
  - exists [skipn lastIndex remaining]. split; [|split].
    + simpl. now rewrite app_nil_r.
    + constructor; [|constructor].
      exists (skipn lastIndex remaining), []. rewrite app_nil_r.
      split; [reflexivity|]. split; [|left; reflexivity].
      eapply exec_at_None. unfold exec in e. exact e.
    + simpl. unfold slice_from. apply push_truthy_app.
Qed.

Lemma split_loop_None remaining lastIndex parts :
  exec remaining lastIndex = None ->
  split_loop remaining lastIndex parts = (parts, lastIndex).
Proof.
  intros H. funelim (split_loop remaining lastIndex parts).
  - congruence.
  - reflexivity.
Qed.

Lemma segments_pieces remaining :
  exists pcs,
    remaining = concat pcs /\ Forall RawPiece pcs /\
    segments remaining = trimmed_pieces pcs.
Proof.
  destruct (split_loop_pieces remaining 0 []) as [pcs [Hc [Hr Hs]]].
  exists pcs. split; [exact Hc|]. split; [exact Hr|].
  unfold segments. destruct (split_loop remaining 0 []) as [ps li].
  exact Hs.
Qed.

Lemma truthy_nonempty s : truthy s = true <-> s <> [].
Proof. destruct s; unfold truthy; simpl; split; congruence. Qed.

Lemma trimmed_pieces_Trimmed pcs : Forall Trimmed (trimmed_pieces pcs).
Proof.
  unfold trimmed_pieces. apply Forall_forall. intros p Hp.
  apply filter_In in Hp. destruct Hp as [Hin Ht].
  apply in_map_iff in Hin. destruct Hin as [x [<- _]].
  apply Trimmed_trim. now apply truthy_nonempty.
Qed.

(** *** Texts without a split point *)

Lemma forallb_dropWhile p q s :
  forallb p s = true -> forallb p (dropWhile q s) = true.
Proof.
  induction s as [|c s IH]; simpl; [reflexivity|].
  intros H. destruct (q c); [|exact H].
  apply andb_true_iff in H. apply IH. apply H.
Qed.

Lemma unsplittableb_suffix a x :
  unsplittableb (a ++ x) = true -> unsplittableb x = true.
Proof.
  unfold unsplittableb. induction a as [|c a IH]; simpl; [auto|].
  destruct (nb c); [exact IH|].
  simpl. intros H. apply andb_true_iff in H. destruct H as [_ H].
  rewrite forallb_app in H. apply andb_true_iff in H.
  apply forallb_dropWhile. apply H.
Qed.

Lemma unsplittableb_prefix x b :
  unsplittableb (x ++ b) = true -> unsplittableb x = true.
Proof.
  unfold unsplittableb. induction x as [|c x IH]; simpl; [reflexivity|].
  destruct (nb c); [exact IH|].
  simpl. intros H. apply andb_true_iff in H. destruct H as [Hc H].
  rewrite forallb_app in H. apply andb_true_iff in H.
  rewrite Hc. apply H.
Qed.

Lemma unsplittableb_Unsplittable x :
  unsplittableb x = true <-> Unsplittable x.
Proof.
  split.
  - intros H. exists (takeWhile nb x), (dropWhile nb x).
    split; [symmetry; apply takeWhile_dropWhile|].
    split; [apply (takeWhile_all nb) | exact H].
  - intros [body [run [-> [Hb Hr]]]]. unfold unsplittableb.
    rewrite dropWhile_app_all by exact Hb.
    now apply forallb_dropWhile.
Qed.

Lemma forallb_nl_ws m : forallb is_nl m = true -> all_ws m = true.
Proof.
  unfold all_ws. induction m as [|c m IH]; simpl; [reflexivity|].
  intros H. apply andb_true_iff in H. destruct H as [Hc H].
  rewrite (is_nl_ws _ Hc). now apply IH.
Qed.

(** What is left of a cut slice after [trim] has no split point inside. *)
Lemma RawPiece_trim_Unsplittable x : RawPiece x -> Unsplittable (trim x).
Proof.
  intros [body [m [-> [Hb [Hm|Hm]]]]]; apply unsplittableb_Unsplittable.
  - destruct (trim_split (body ++ m)) as [w1 [w2 [Hs _]]].
    apply unsplittableb_prefix with (b := w2).
    apply unsplittableb_suffix with (a := w1).
    rewrite <- Hs. apply unsplittableb_Unsplittable.
    exists body, m. auto.
  - rewrite trim_app_ws_r by now apply forallb_nl_ws.
    destruct (trim_split body) as [w1 [w2 [Hs _]]].
    apply unsplittableb_prefix with (b := w2).
    apply unsplittableb_suffix with (a := w1).
    rewrite <- Hs. apply unsplittableb_Unsplittable.
    exists body, []. rewrite app_nil_r. auto.
Qed.

Lemma trimmed_pieces_Unsplittable pcs :
  Forall RawPiece pcs -> Forall Unsplittable (trimmed_pieces pcs).
Proof.
  intros H. unfold trimmed_pieces. apply Forall_forall. intros p Hp.
  apply filter_In in Hp. destruct Hp as [Hin _].
  apply in_map_iff in Hin. destruct Hin as [x [<- Hx]].
  apply RawPiece_trim_Unsplittable.
  rewrite Forall_forall in H. now apply H.
Qed.

(** *** Coverage *)

Lemma Interleaved_ws_l w ps s :
  all_ws w = true -> Interleaved ps s -> Interleaved ps (w ++ s).
Proof.
  intros Hw H. destruct H as [w' Hw' | w' p ps s Hw' H].
  - constructor. now rewrite all_ws_app, Hw, Hw'.
  - rewrite app_assoc. constructor; [|exact H].
    now rewrite all_ws_app, Hw, Hw'.
Qed.

Lemma Interleaved_ws_r w ps s :
  all_ws w = true -> Interleaved ps s -> Interleaved ps (s ++ w).
Proof.
  intros Hw H. induction H as [w' Hw' | w' p ps s Hw' H IH].
  - constructor. now rewrite all_ws_app, Hw', Hw.
  - rewrite <- !app_assoc. constructor; assumption.
Qed.

Lemma Interleaved_trim x s ps :
  Interleaved ps s -> Interleaved (filter truthy [trim x] ++ ps) (x ++ s).
Proof.
  intros H. destruct (trim_split x) as [w1 [w2 [Hx [H1 H2]]]].
  destruct (trim x) as [|c t] eqn:E.
  - change (filter truthy [[]] ++ ps) with ps.
    apply Interleaved_ws_l; [|exact H]. now apply trim_nil.
  - change (filter truthy [c :: t] ++ ps) with ((c :: t) :: ps).
    rewrite Hx, <- !app_assoc.
    constructor; [exact H1|]. now apply Interleaved_ws_l.
Qed.

Lemma trimmed_pieces_cons x pcs :
  trimmed_pieces (x :: pcs) = filter truthy [trim x] ++ trimmed_pieces pcs.
Proof.
  unfold trimmed_pieces. simpl. destruct (truthy (trim x)); reflexivity.
Qed.

Lemma trimmed_pieces_Interleaved pcs :
  Interleaved (trimmed_pieces pcs) (concat pcs).
Proof.
  induction pcs as [|x pcs IH].
  - now constructor.
  - rewrite trimmed_pieces_cons. simpl concat. now apply Interleaved_trim.
Qed.

Lemma squeeze_app a b : squeeze (a ++ b) = squeeze a ++ squeeze b.
Proof. apply filter_app. Qed.

Lemma squeeze_ws w : all_ws w = true -> squeeze w = [].
Proof.
  unfold all_ws, squeeze. induction w as [|c w IH]; simpl; [reflexivity|].
  intros H. apply andb_true_iff in H. destruct H as [Hc H].
  rewrite Hc. simpl. now apply IH.
Qed.

Lemma Interleaved_squeeze ps s :
  Interleaved ps s -> squeeze s = squeeze (concat ps).
Proof.
  induction 1 as [w Hw | w p ps s Hw H IH]; simpl.
  - now apply squeeze_ws.
  - rewrite !squeeze_app, IH, (squeeze_ws _ Hw). reflexivity.
Qed.

(** *** Merging *)

Lemma join_sp_cons2 a b g : join_sp (a :: b :: g) = a ++ [sp] ++ join_sp (b :: g).
Proof. reflexivity. Qed.

Lemma join_sp_snoc g p :
  g <> [] -> join_sp (g ++ [p]) = join_sp g ++ [sp] ++ p.
Proof.
  induction g as [|a g IH]; [congruence|]. intros _.
  destruct g as [|b g]; [reflexivity|].
  change ((a :: b :: g) ++ [p]) with (a :: b :: (g ++ [p])).
  rewrite !join_sp_cons2.
  change (b :: g ++ [p]) with ((b :: g) ++ [p]).
  rewrite IH by discriminate. now rewrite <- !app_assoc.
Qed.

Lemma join_sp_Trimmed g :
  g <> [] -> Forall Trimmed g -> Trimmed (join_sp g).
Proof.
  induction g as [|a g IH]; [congruence|]. intros _ H.
  inversion H as [|? ? Ha Hg]; subst.
  destruct g as [|b g]; [exact Ha|].
  rewrite join_sp_cons2. apply Trimmed_app; [exact Ha|].
  apply IH; [discriminate | exact Hg].
Qed.

Lemma squeeze_join_sp g : squeeze (join_sp g) = squeeze (concat g).
Proof.
  induction g as [|a g IH]; [reflexivity|].
  destruct g as [|b g]; [simpl; now rewrite app_nil_r|].
  rewrite join_sp_cons2. rewrite !squeeze_app, IH.
  change (squeeze [sp]) with (@nil char).
  change (concat (a :: b :: g)) with (a ++ concat (b :: g)).
  now rewrite squeeze_app.
Qed.

Lemma OkGroup_single maxLen p : Trimmed p -> OkGroup maxLen [p].
Proof.
  intros H. split; [discriminate|]. split; [now constructor | now left].
Qed.

Lemma merge_step_groups maxLen gm gb p :
  Trimmed p -> Forall (OkGroup maxLen) gm -> gb = [] \/ OkGroup maxLen gb ->
  exists gm' gb',
    merge_step maxLen (map join_sp gm, join_sp gb) p
      = (map join_sp gm', join_sp gb') /\
    Forall (OkGroup maxLen) gm' /\ OkGroup maxLen gb' /\
    concat gm' ++ gb' = (concat gm ++ gb) ++ [p].
Proof.
  intros Hp Hgm [->|Hgb].
  - exists gm, [p]. split; [|split; [exact Hgm|split]].
    + unfold merge_step. simpl join_sp.
      destruct (_ <=? _)%Z; reflexivity.
    + now apply OkGroup_single.
    + now rewrite app_nil_r.
  - pose proof Hgb as [Hne [Hall _]].
    pose proof (join_sp_Trimmed gb Hne Hall) as Hbuf.
    unfold merge_step.
    assert (Ht : trim (join_sp gb ++ [sp] ++ p) = join_sp gb ++ [sp] ++ p)
      by (apply Trimmed_app; assumption).
    rewrite Ht.
    destruct (_ <=? _)%Z eqn:Hle.
    + exists gm, (gb ++ [p]). split; [|split; [exact Hgm|split]].
      * destruct Hbuf as [Hb _]. apply truthy_nonempty in Hb. rewrite Hb.
        rewrite join_sp_snoc by exact Hne. now rewrite <- app_assoc.
      * split; [destruct gb; discriminate|]. split.
        -- apply Forall_app. split; [exact Hall | now constructor].
        -- right. rewrite join_sp_snoc by exact Hne.
           now apply Z.leb_le.
      * now rewrite !app_assoc.
    + exists (gm ++ [gb]), [p]. split; [|split; [|split]].
      * rewrite push_truthy_app. simpl filter.
        destruct Hbuf as [Hb _]. apply truthy_nonempty in Hb. rewrite Hb.
        now rewrite map_app.
      * apply Forall_app. split; [exact Hgm | now constructor].
      * now apply OkGroup_single.
      * rewrite concat_app. simpl. now rewrite app_nil_r.
Qed.

Lemma merge_fold_groups maxLen parts : forall gm gb,
  Forall Trimmed parts ->
  Forall (OkGroup maxLen) gm -> gb = [] \/ OkGroup maxLen gb ->
  exists gm' gb',
    fold_left (merge_step maxLen) parts (map join_sp gm, join_sp gb)
      = (map join_sp gm', join_sp gb') /\
    Forall (OkGroup maxLen) gm' /\ (gb' = [] \/ OkGroup maxLen gb') /\
    (parts <> [] -> gb' <> []) /\
    concat gm' ++ gb' = (concat gm ++ gb) ++ parts.
Proof.
  induction parts as [|p parts IH]; intros gm gb Hps Hgm Hgb.
  - exists gm, gb. rewrite app_nil_r. repeat split; auto.
  - inversion Hps as [|? ? Hp Hps']; subst.
    destruct (merge_step_groups maxLen gm gb p Hp Hgm Hgb)
      as [gm1 [gb1 [Hstep [Hgm1 [Hgb1 Hcat1]]]]].
    destruct (IH gm1 gb1 Hps' Hgm1 (or_intror Hgb1))
      as [gm' [gb' [Hfold [Hgm' [Hgb' [Hne Hcat]]]]]].
    exists gm', gb'. cbn [fold_left]. rewrite Hstep, Hfold.
    split; [reflexivity|]. split; [exact Hgm'|]. split; [exact Hgb'|].
    split.
    + intros _. destruct parts as [|q parts].
      * simpl in Hfold. inversion Hfold as [[Hm Hj]].
        destruct Hgb1 as [Hn1 [Hall1 _]].
        pose proof (join_sp_Trimmed gb1 Hn1 Hall1) as [Hb _].
        intros ->. apply Hb. rewrite Hj. reflexivity.
      * apply Hne. discriminate.
    + rewrite Hcat, Hcat1, <- !app_assoc. reflexivity.
Qed.

Lemma Interleaved_nil_ws s : Interleaved [] s -> all_ws s = true.
Proof. inversion 1; assumption. Qed.

Lemma segments_nonempty remaining :
  Trimmed remaining -> segments remaining <> [].
Proof.
  intros [Hne Ht] Hs.
  destruct (segments_pieces remaining) as [pcs [Hc [_ Hseg]]].
  pose proof (trimmed_pieces_Interleaved pcs) as Hi.
  rewrite <- Hseg, Hs, <- Hc in Hi.
  apply Interleaved_nil_ws, trim_nil in Hi. congruence.
Qed.

(** [splitText] never returns the empty list, so that [chunks[0]] is there
    for [speakText]. *)
Lemma splitText_nonempty input maxLen : splitText input maxLen <> [].
Proof.
  unfold splitText. cbv zeta.
  destruct (fold_left _ _ _) as [merged buf].
  destruct (push_truthy merged buf); discriminate.
Qed.

(** The chunks are the segments of the trimmed input, grouped in order and
    each group joined with single spaces. *)
Lemma splitText_groups input maxLen :
  trim input <> [] ->
  exists groups,
    splitText input maxLen = map join_sp groups /\
    Forall (OkGroup maxLen) groups /\
    concat groups = segments (trim input).
Proof.
  intros Hne. pose proof (Trimmed_trim input Hne) as Hrem.
  assert (Hparts : Forall Trimmed (segments (trim input))).
  { destruct (segments_pieces (trim input)) as [pcs [_ [_ ->]]].
    apply trimmed_pieces_Trimmed. }
  destruct (merge_fold_groups maxLen (segments (trim input)) [] [] Hparts
              (Forall_nil _) (or_introl eq_refl))
    as [gm [gb [Hfold [Hgm [Hgb [Hgbne Hcat]]]]]].
  change (map join_sp [], join_sp []) with (@nil str, @nil char) in Hfold.
  change (concat [] ++ []) with (@nil str) in Hcat. simpl app in Hcat.
  specialize (Hgbne (segments_nonempty _ Hrem)).
  destruct Hgb as [Hgb|Hgb]; [congruence|].
  exists (gm ++ [gb]). split; [|split].
  - unfold splitText. cbv zeta. rewrite Hfold, push_truthy_app. simpl filter.
    destruct Hgb as [Hn [Hall _]].
    pose proof (join_sp_Trimmed gb Hn Hall) as [Hb _].
    apply truthy_nonempty in Hb. rewrite Hb, map_app. simpl.
    destruct (map join_sp gm ++ [join_sp gb]) eqn:E; [|reflexivity].
    destruct (map join_sp gm); discriminate.
  - apply Forall_app. split; [exact Hgm | now constructor].
  - rewrite concat_app. simpl. rewrite app_nil_r. exact Hcat.
Qed.

End SegmenterFacts.

(** *** What the specification says of the Segmenter *)

Module SegmenterSpec.

Import Segmenter JsFacts SegmenterFacts.

(** The text of the specification's first scenario, with room for all of
    it in one chunk and without. *)
Example splitText_scenario_one_chunk :
  splitText (lit "Hello world. This is a test.") 1800
    = [lit "Hello world. This is a test."].
Proof. reflexivity. Qed.

Example splitText_scenario_two_chunks :
  splitText (lit "Hello world. This is a test.") 20
    = [lit "Hello world."; lit "This is a test."].
Proof. reflexivity. Qed.

(** A split at a terminator with no space after it gains one when the two
    segments are merged; newlines are split points and are dropped; a
    segment longer than [maxLen] stays whole. *)
Example splitText_merge_adds_space :
  splitText (lit "a.b") 10 = [lit "a. b"].
Proof. reflexivity. Qed.

Example splitText_newlines :
  splitText [97; 10; 10; 98; 33; 63; 10; 99]%N 3 = [lit "a"; lit "b!?"; lit "c"].
Proof. reflexivity. Qed.

Example splitText_long_segment :
  splitText (lit "one two three. four.") 5 = [lit "one two three."; lit "four."].
Proof. reflexivity. Qed.

Lemma squeeze_chunks groups :
  squeeze (concat (map join_sp groups)) = squeeze (concat (concat groups)).
Proof.
  induction groups as [|g groups IH]; [reflexivity|].
  simpl. rewrite concat_app, !squeeze_app, IH, squeeze_join_sp. reflexivity.
Qed.

Lemma segments_Interleaved input :
  Interleaved (segments (trim input)) input.
Proof.
  assert (Hi : Interleaved (segments (trim input)) (trim input)).
  { destruct (segments_pieces (trim input)) as [pcs [Hc [_ Hseg]]].
    rewrite Hseg, Hc. apply trimmed_pieces_Interleaved. }
  destruct (trim_split input) as [w1 [w2 [Hs [H1 H2]]]].
  set (ps := segments (trim input)) in *. rewrite Hs.
  apply Interleaved_ws_l; [exact H1|]. now apply Interleaved_ws_r.
Qed.

Lemma segments_Unsplittable remaining :
  Forall Unsplittable (segments remaining).
Proof.
  destruct (segments_pieces remaining) as [pcs [_ [Hraw ->]]].
  now apply trimmed_pieces_Unsplittable.
Qed.

(** C1.  For an input whose trimmed form is not empty and any [maxLen],
    every chunk of [splitText] is at most [maxLen] long, unless it is one
    single segment, with no split point inside, that is longer than
    [maxLen]; the chunks are the segments of the input, grouped in order and
    joined with single spaces, and the segments are the whole input, each
    once and in order, up to the white space between them: chunks and input
    agree once white space is taken out. *)
Theorem splitText_bounded_and_covering (input : str) (maxLen : Z) :
  trim input <> [] ->
  (forall c, In c (splitText input maxLen) ->
     (Z.of_nat (length c) <= maxLen)%Z \/
     ((maxLen < Z.of_nat (length c))%Z /\
      In c (segments (trim input)) /\ Unsplittable c)) /\
  (exists groups,
     splitText input maxLen = map join_sp groups /\
     Forall (fun g => g <> []) groups /\
     concat groups = segments (trim input)) /\
  Interleaved (segments (trim input)) input /\
  squeeze (concat (splitText input maxLen)) = squeeze input.
Proof.
  intros Hne.
  destruct (splitText_groups input maxLen Hne) as [groups [Hs [Hok Hcat]]].
  split; [|split; [|split]].
  - intros c Hc. rewrite Hs in Hc. apply in_map_iff in Hc.
    destruct Hc as [g [<- Hg]].
    rewrite Forall_forall in Hok. destruct (Hok g Hg) as [_ [_ Hlen]].
    destruct (Z_le_gt_dec (Z.of_nat (length (join_sp g))) maxLen) as [Hle|Hgt];
      [now left|].
    destruct Hlen as [H1|Hle]; [|lia]. right.
    destruct g as [|p [|q g]]; try discriminate. simpl.
    assert (Hin : In p (segments (trim input))).
    { rewrite <- Hcat. apply in_concat. exists [p]. split; [exact Hg|now left]. }
    split; [simpl in Hgt; lia|]. split; [exact Hin|].
    pose proof (segments_Unsplittable (trim input)) as Hu.
    rewrite Forall_forall in Hu. now apply Hu.
  - exists groups. split; [exact Hs|]. split; [|exact Hcat].
    eapply Forall_impl; [|exact Hok]. intros g Hg. apply Hg.
  - apply segments_Interleaved.
  - rewrite Hs, squeeze_chunks, Hcat. symmetry.
    apply Interleaved_squeeze. apply segments_Interleaved.
Qed.

Lemma splitText_bounded_and_covering_witness :
  trim (lit "  Hi there. Go!  ") <> [] /\
  squeeze (concat (splitText (lit "  Hi there. Go!  ") 9))
    = squeeze (lit "  Hi there. Go!  ").
Proof.
  assert (H : trim (lit "  Hi there. Go!  ") <> []) by (vm_compute; discriminate).
  split; [exact H|].
  apply (splitText_bounded_and_covering (lit "  Hi there. Go!  ") 9 H).
Defined.

(** C2, as the code has it.  An input that is empty or all white space gives
    one chunk, the empty string. *)
Theorem splitText_blank (input : str) (maxLen : Z) :
  all_ws input = true -> splitText input maxLen = [[]].
Proof.
  intros H. apply trim_nil in H. unfold splitText. rewrite H. reflexivity.
Qed.

Lemma splitText_blank_witness :
  all_ws (lit "  ") = true /\ splitText (lit "  ") 1800 = [[]].
Proof.
  split; [reflexivity|]. apply (splitText_blank (lit "  ") 1800). reflexivity.
Defined.

(** C2 as stated fails: blank input does not give the empty sequence. *)
Lemma splitText_blank_not_empty :
  all_ws (lit "  ") = true /\ all_ws [] = true /\
  splitText (lit "  ") 1800 <> [] /\ splitText [] 1800 <> [].
Proof.
  repeat split; try reflexivity; vm_compute; discriminate.
Qed.

(** C7.  An input with no terminator and no newline gives exactly one
    chunk, the trimmed input. *)
Theorem splitText_no_break (input : str) (maxLen : Z) :
  forallb (fun c => negb (is_term c || is_nl c)) input = true ->
  splitText input maxLen = [trim input].
Proof.
  intros H.
  assert (Hrem : forallb nb (trim input) = true).
  { destruct (trim_split input) as [w1 [w2 [Hs _]]].
    change (forallb nb input = true) in H.
    rewrite Hs, !forallb_app in H.
    apply andb_true_iff in H. destruct H as [_ H].
    apply andb_true_iff in H. apply H. }
  assert (Hseg : segments (trim input) = push_truthy [] (trim input)).
  { unfold segments. rewrite split_loop_None by apply (exec_at_nb _ 0 Hrem).
    unfold slice_from. simpl skipn. now rewrite trim_idem. }
  unfold splitText. cbv zeta. rewrite Hseg.
  destruct (trim input) as [|c r] eqn:E; [reflexivity|].
  change (push_truthy [] (c :: r)) with [c :: r].
  cbn [fold_left]. unfold merge_step.
  destruct (_ <=? _)%Z; reflexivity.
Qed.

Lemma splitText_no_break_witness :
  forallb (fun c => negb (is_term c || is_nl c))
    (lit "  no end of sentence here ") = true /\
  splitText (lit "  no end of sentence here ") 5
    = [trim (lit "  no end of sentence here ")].
Proof.
  split; [reflexivity|].
  apply (splitText_no_break (lit "  no end of sentence here ") 5). reflexivity.
Defined.



End SegmenterSpec.

(** ** The word wrap *)

Module WordWrapFacts.

Import Segmenter WordWrap JsFacts SegmenterFacts.

Lemma sp_is_ws c : (c =? sp)%N = true -> is_ws c = true.
Proof. intros H. apply N.eqb_eq in H. subst. reflexivity. Qed.

Lemma replace_ws_single_spaced text :
  forall b, single_spaced b (replace_ws b text) = true.
Proof.
  induction text as [|c text IH]; intros b; simpl; [reflexivity|].
  destruct (is_ws c) eqn:Ec.
  - destruct b; [apply IH|]. simpl.
    change (is_ws sp) with true. simpl. apply IH.
  - simpl. rewrite Ec. apply IH.
Qed.

Lemma single_spaced_weaken s : forall b,
  single_spaced b s = true -> single_spaced false s = true.
Proof.
  destruct s as [|c s]; intros b; simpl; [reflexivity|].
  destruct (is_ws c); [|auto].
  destruct b; simpl; [discriminate | auto].
Qed.

Lemma single_spaced_suffix a s : forall b,
  single_spaced b (a ++ s) = true -> single_spaced false s = true.
Proof.
  induction a as [|c a IH]; intros b; simpl.
  - apply single_spaced_weaken.
  - destruct (is_ws c).
    + intros H. apply andb_true_iff in H. destruct H as [_ H].
      now apply IH in H.
    + apply IH.
Qed.

Lemma single_spaced_prefix s a : forall b,
  single_spaced b (s ++ a) = true -> single_spaced b s = true.
Proof.
  induction s as [|c s IH]; intros b; simpl; [reflexivity|].
  destruct (is_ws c).
  - intros H. apply andb_true_iff in H. destruct H as [H1 H].
    rewrite H1. simpl. now apply IH in H.
  - apply IH.
Qed.

Lemma tidy_of_single_spaced s : forall b,
  single_spaced b s = true ->
  (s <> [] -> is_ws (last s sp) = false) ->
  (b = true -> s <> []) ->
  tidy b s = true.
Proof.
  induction s as [|c s IH]; intros b Hs Hl Hb; simpl.
  - destruct b; [exfalso; now apply Hb | reflexivity].
  - simpl in Hs. destruct (c =? sp)%N eqn:Ec.
    + rewrite (sp_is_ws _ Ec) in Hs.
      apply andb_true_iff in Hs. destruct Hs as [Hs1 Hs].
      apply andb_true_iff in Hs1. destruct Hs1 as [Hs1 _].
      rewrite Hs1. simpl. apply IH; [exact Hs| |].
      * intros Hne. specialize (Hl ltac:(discriminate)).
        destruct s as [|d s]; [congruence|]. exact Hl.
      * intros _ ->. specialize (Hl ltac:(discriminate)). simpl in Hl.
        rewrite (sp_is_ws _ Ec) in Hl. discriminate.
    + destruct (is_ws c) eqn:Ew.
      * apply andb_true_iff in Hs. destruct Hs as [Hs1 _].
        apply andb_true_iff in Hs1. destruct Hs1 as [_ Hs1]. congruence.
      * apply IH; [exact Hs| |discriminate].
        intros Hne. specialize (Hl ltac:(discriminate)).
        destruct s as [|d s]; [congruence|]. exact Hl.
Qed.

(** The normalized text [text.replace(/\s+/g, " ").trim()] is tidy, unless
    it is empty. *)
Lemma normalized_tidy text :
  trim (replace_ws false text) <> [] ->
  tidy true (trim (replace_ws false text)) = true.
Proof.
  intros Hne.
  destruct (trim_split (replace_ws false text)) as [w1 [w2 [Hs _]]].
  pose proof (replace_ws_single_spaced text false) as Hss.
  rewrite Hs in Hss. apply single_spaced_suffix in Hss.
  apply single_spaced_prefix in Hss.
  pose proof (Trimmed_trim _ Hne) as Ht. apply Trimmed_edges in Ht.
  destruct Ht as [c [r [E [Hc Hl]]]]. rewrite E in *.
  assert (Hf : tidy false (c :: r) = true).
  { apply tidy_of_single_spaced; [exact Hss| |discriminate].
    intros _. now rewrite (last_cons_default r c sp c). }
  simpl in *. destruct (c =? sp)%N eqn:Ec; [|exact Hf].
  rewrite (sp_is_ws _ Ec) in Hc. discriminate.
Qed.

Lemma split_sp_nonnil s : split_sp s <> [].
Proof.
  destruct s as [|c s]; simpl; [discriminate|].
  destruct (c =? sp)%N; [discriminate|].
  destruct (split_sp s); discriminate.
Qed.

Lemma join_sp_cons a ws :
  ws <> [] -> join_sp (a :: ws) = a ++ sp :: join_sp ws.
Proof. destruct ws; [congruence | reflexivity]. Qed.

(** Splitting at spaces and joining with spaces gives the text back. *)
Lemma join_split_sp s : join_sp (split_sp s) = s.
Proof.
  induction s as [|c s IH]; simpl; [reflexivity|].
  destruct (c =? sp)%N eqn:Ec.
  - rewrite join_sp_cons by apply split_sp_nonnil.
    apply N.eqb_eq in Ec. subst c. simpl. now rewrite IH.
  - destruct (split_sp s) as [|w ws] eqn:E; [now apply split_sp_nonnil in E|].
    destruct ws as [|w2 ws]; simpl in *; now rewrite IH.
Qed.

Lemma split_sp_no_sp s : Forall (fun w => no_sp w = true) (split_sp s).
Proof.
  induction s as [|c s IH]; simpl; [now constructor|].
  destruct (c =? sp)%N eqn:Ec; [now constructor|].
  destruct (split_sp s) as [|w ws]; [constructor; [|constructor]|].
  - simpl. now rewrite Ec.
  - inversion IH; subst. constructor; [|assumption].
    simpl. rewrite Ec. assumption.
Qed.

Lemma split_sp_tidy s :
  (tidy true s = true -> Forall (fun w => w <> []) (split_sp s)) /\
  (tidy false s = true -> Forall (fun w => w <> []) (tl (split_sp s))).
Proof.
  induction s as [|c s [IH1 IH2]]; simpl.
  - split; [discriminate | constructor].
  - destruct (c =? sp)%N; simpl.
    + split; [discriminate | exact IH1].
    + destruct (split_sp s) as [|w ws] eqn:E; [now apply split_sp_nonnil in E|].
      simpl in *. split; intros H; [constructor; [discriminate|]|]; now apply IH2.
Qed.

Lemma split_sp_word w : no_sp w = true -> split_sp w = [w].
Proof.
  induction w as [|c w IH]; simpl; [reflexivity|].
  intros H. apply andb_true_iff in H. destruct H as [Hc H].
  apply negb_true_iff in Hc. rewrite Hc, (IH H). reflexivity.
Qed.

Lemma split_sp_app w s :
  no_sp w = true -> split_sp (w ++ sp :: s) = w :: split_sp s.
Proof.
  induction w as [|c w IH]; simpl; [reflexivity|].
  intros H. apply andb_true_iff in H. destruct H as [Hc H].
  apply negb_true_iff in Hc. rewrite Hc, (IH H). reflexivity.
Qed.

(** Joining words that hold no space and splitting again gives the words
    back. *)
Lemma split_join_sp ws :
  ws <> [] -> Forall (fun w => no_sp w = true) ws ->
  split_sp (join_sp ws) = ws.
Proof.
  induction ws as [|w ws IH]; [congruence|]. intros _ H.
  inversion H as [|? ? Hw Hws]; subst.
  destruct ws as [|w2 ws]; [now apply split_sp_word|].
  rewrite join_sp_cons by discriminate.
  rewrite split_sp_app by exact Hw. f_equal. apply IH; [discriminate|exact Hws].
Qed.

(** *** The wrapping loop *)

Section Wrap.

Variable measure : str -> Q.
Variable maxWidth : Q.

Local Abbreviation OkLine := (WordWrap.OkLine measure maxWidth).

Lemma join_sp_nonempty g :
  g <> [] -> Forall (fun w : str => w <> []) g -> join_sp g <> [].
Proof.
  destruct g as [|a g]; [congruence|]. intros _ H.
  inversion H as [|? ? Ha _]; subst.
  destruct g as [|b g]; [exact Ha|].
  rewrite join_sp_cons2. destruct a; [congruence | discriminate].
Qed.

Lemma wrap_step_groups gl gc w :
  w <> [] -> Forall OkLine gl -> gc = [] \/ OkLine gc ->
  exists gl' gc',
    wrap_step measure maxWidth (map join_sp gl, join_sp gc) w
      = (map join_sp gl', join_sp gc') /\
    Forall OkLine gl' /\ OkLine gc' /\
    concat gl' ++ gc' = (concat gl ++ gc) ++ [w].
Proof.
  intros Hw Hgl [->|Hgc].
  - exists gl, [w]. split; [|split; [exact Hgl|split]].
    + unfold wrap_step. simpl join_sp.
      change (truthy []) with false. simpl app.
      destruct (negb _); reflexivity.
    + split; [discriminate|]. split; [now constructor | now left].
    + now rewrite app_nil_r.
  - pose proof Hgc as [Hne [Hall _]].
    pose proof (join_sp_nonempty gc Hne Hall) as Hline.
    unfold wrap_step. apply truthy_nonempty in Hline. rewrite Hline.
    assert (Ht : (join_sp gc ++ [sp]) ++ w = join_sp (gc ++ [w])).
    { rewrite join_sp_snoc by exact Hne. now rewrite <- app_assoc. }
    rewrite Ht.
    destruct (Qle_bool (measure (join_sp (gc ++ [w]))) maxWidth) eqn:Hle; simpl.
    + exists gl, (gc ++ [w]). split; [reflexivity|]. split; [exact Hgl|].
      split.
      * split; [destruct gc; discriminate|]. split.
        -- apply Forall_app. split; [exact Hall | now constructor].
        -- now right.
      * now rewrite !app_assoc.
    + exists (gl ++ [gc]), [w]. split; [|split; [|split]].
      * rewrite push_truthy_app. simpl filter. rewrite Hline.
        now rewrite map_app.
      * apply Forall_app. split; [exact Hgl | now constructor].
      * split; [discriminate|]. split; [now constructor | now left].
      * rewrite concat_app. simpl. now rewrite app_nil_r.
Qed.

Lemma wrap_fold_groups words : forall gl gc,
  Forall (fun w => w <> []) words ->
  Forall OkLine gl -> gc = [] \/ OkLine gc ->
  exists gl' gc',
    fold_left (wrap_step measure maxWidth) words (map join_sp gl, join_sp gc)
      = (map join_sp gl', join_sp gc') /\
    Forall OkLine gl' /\ (gc' = [] \/ OkLine gc') /\
    concat gl' ++ gc' = (concat gl ++ gc) ++ words.
Proof.
  induction words as [|w words IH]; intros gl gc Hws Hgl Hgc.
  - exists gl, gc. rewrite app_nil_r. repeat split; auto.
  - inversion Hws as [|? ? Hw Hws']; subst.
    destruct (wrap_step_groups gl gc w Hw Hgl Hgc)
      as [gl1 [gc1 [Hstep [Hgl1 [Hgc1 Hcat1]]]]].
    destruct (IH gl1 gc1 Hws' Hgl1 (or_intror Hgc1))
      as [gl' [gc' [Hfold [Hgl' [Hgc' Hcat]]]]].
    exists gl', gc'. cbn [fold_left]. rewrite Hstep, Hfold.
    split; [reflexivity|]. split; [exact Hgl'|]. split; [exact Hgc'|].
    rewrite Hcat, Hcat1, <- !app_assoc. reflexivity.
Qed.

(** The lines are the words of the normalized text, grouped in order and
    each group joined with single spaces. *)
Lemma wrapText_groups text :
  trim (replace_ws false text) <> [] ->
  exists groups,
    wrapText measure text maxWidth = map join_sp groups /\
    Forall OkLine groups /\
    concat groups = words_of text.
Proof.
  intros Hne.
  assert (Hws : Forall (fun w => w <> []) (words_of text)).
  { apply split_sp_tidy. now apply normalized_tidy. }
  destruct (wrap_fold_groups (words_of text) [] [] Hws (Forall_nil _)
              (or_introl eq_refl))
    as [gl [gc [Hfold [Hgl [Hgc Hcat]]]]].
  change (map join_sp [], join_sp []) with (@nil str, @nil char) in Hfold.
  change (concat [] ++ []) with (@nil str) in Hcat. simpl app in Hcat.
  unfold wrapText. cbv zeta. rewrite Hfold, push_truthy_app.
  destruct Hgc as [->|Hgc].
  - exists gl. simpl. rewrite !app_nil_r in *. auto.
  - exists (gl ++ [gc]). split; [|split].
    + simpl filter. destruct Hgc as [Hn [Hall _]].
      pose proof (join_sp_nonempty gc Hn Hall) as Hb.
      apply truthy_nonempty in Hb. now rewrite Hb, map_app.
    + apply Forall_app. split; [exact Hgl | now constructor].
    + rewrite concat_app. simpl. rewrite app_nil_r. exact Hcat.
Qed.

Lemma wrapText_blank text :
  trim (replace_ws false text) = [] -> wrapText measure text maxWidth = [].
Proof.
  intros H. unfold wrapText, words_of. rewrite H. simpl.
  unfold wrap_step. simpl. destruct (negb _); reflexivity.
Qed.

Lemma join_sp_app g h :
  g <> [] -> h <> [] -> join_sp (g ++ h) = join_sp g ++ sp :: join_sp h.
Proof.
  induction g as [|a g IH]; [congruence|]. intros _ Hh.
  destruct g as [|b g].
  - simpl app. now apply join_sp_cons.
  - change ((a :: b :: g) ++ h) with (a :: ((b :: g) ++ h)).
    rewrite join_sp_cons by discriminate.
    rewrite IH by (discriminate || exact Hh).
    rewrite join_sp_cons2. now rewrite <- app_assoc.
Qed.

Lemma join_sp_concat groups :
  Forall (fun g : list str => g <> []) groups ->
  join_sp (map join_sp groups) = join_sp (concat groups).
Proof.
  induction groups as [|g groups IH]; [reflexivity|]. intros H.
  inversion H as [|? ? Hg Hgs]; subst.
  destruct groups as [|h groups].
  - simpl. now rewrite app_nil_r.
  - change (map join_sp (g :: h :: groups))
      with (join_sp g :: map join_sp (h :: groups)).
    rewrite join_sp_cons by discriminate. rewrite (IH Hgs).
    change (concat (g :: h :: groups)) with (g ++ concat (h :: groups)).
    rewrite join_sp_app; [reflexivity | exact Hg |].
    inversion Hgs; subst. simpl. destruct h; [congruence | discriminate].
Qed.

End Wrap.

End WordWrapFacts.

(** *** What the specification says of the word wrap *)

Module WordWrapSpec.

Import Segmenter WordWrap JsFacts SegmenterFacts WordWrapFacts.

(** Seven units a code unit, forty units a line. *)
Example wrapText_greedy :
  wrapText (fun s => inject_Z (7 * Z.of_nat (length s)))
    (lit "  to be   or not to be ") 40
    = [lit "to be"; lit "or"; lit "not"; lit "to be"].
Proof. reflexivity. Qed.

Example wrapText_long_word :
  wrapText (fun s => inject_Z (7 * Z.of_nat (length s)))
    (lit "a incomprehensible b") 40
    = [lit "a"; lit "incomprehensible"; lit "b"].
Proof. reflexivity. Qed.

(** C3.  No line of [wrapText] measures more than [maxWidth], except a line
    that is one whole word of the text, alone, whose own measure is more
    than [maxWidth]. *)
Theorem wrapText_lines_fit (measure : str -> Q) (text : str) (maxWidth : Q) :
  forall line, In line (wrapText measure text maxWidth) ->
    (measure line <= maxWidth)%Q \/
    (In line (words_of text) /\ (maxWidth < measure line)%Q).
Proof.
  intros line Hin.
  destruct (trim (replace_ws false text)) as [|c r] eqn:E.
  - rewrite wrapText_blank in Hin by exact E. destruct Hin.
  - destruct (wrapText_groups measure maxWidth text) as [groups [Hs [Hok Hcat]]];
      [rewrite E; discriminate|].
    rewrite Hs in Hin. apply in_map_iff in Hin. destruct Hin as [g [<- Hg]].
    rewrite Forall_forall in Hok. destruct (Hok g Hg) as [_ [_ Hlen]].
    destruct (Qle_bool (measure (join_sp g)) maxWidth) eqn:Hle.
    + left. now apply Qle_bool_iff.
    + destruct Hlen as [H1|H1]; [|congruence]. right.
      destruct g as [|w [|w2 g]]; try discriminate. simpl in *. split.
      * rewrite <- Hcat. apply in_concat. exists [w]. split; [exact Hg|now left].
      * apply Qnot_le_lt. intros H. apply Qle_bool_iff in H. congruence.
Qed.

Lemma wrapText_lines_fit_witness :
  let measure := fun s : str => inject_Z (Z.of_nat (length s)) in
  In (lit "world.") (wrapText measure (lit "  Hello   world. ") 5) /\
  ((measure (lit "world.") <= 5)%Q \/
   (In (lit "world.") (words_of (lit "  Hello   world. ")) /\
    (5 < measure (lit "world."))%Q)).
Proof.
  intros measure.
  assert (H : In (lit "world.") (wrapText measure (lit "  Hello   world. ") 5))
    by (vm_compute; auto).
  split; [exact H|].
  apply (wrapText_lines_fit measure (lit "  Hello   world. ") 5 _ H).
Defined.

Lemma split_join_groups groups :
  Forall (fun g : list str => g <> []) groups ->
  Forall (fun w => no_sp w = true) (concat groups) ->
  concat (map split_sp (map join_sp groups)) = concat groups.
Proof.
  induction groups as [|g groups IH]; [reflexivity|]. intros Hne Hns.
  inversion Hne; subst. simpl in *. apply Forall_app in Hns.
  destruct Hns as [Hg Hgs].
  rewrite split_join_sp by assumption. now rewrite IH.
Qed.

Lemma measure_word_le_line (measure : str -> Q) g w :
  (forall a b, (measure a <= measure (a ++ sp :: b))%Q /\
               (measure b <= measure (a ++ sp :: b))%Q) ->
  In w g -> (measure w <= measure (join_sp g))%Q.
Proof.
  intros Hmono. induction g as [|a g IH]; intros Hin; [destruct Hin|].
  destruct g as [|b g].
  - destruct Hin as [->|[]]. apply Qle_refl.
  - rewrite join_sp_cons by discriminate. destruct Hin as [->|Hin].
    + apply Hmono.
    + eapply Qle_trans; [apply IH; exact Hin | apply Hmono].
Qed.

(** With a measure that does not shrink when text is added to either side,
    a word wider than [maxWidth] always sits alone on its line. *)
Lemma wrapText_wide_word_alone (measure : str -> Q) (text : str) (maxWidth : Q) :
  (forall a b, (measure a <= measure (a ++ sp :: b))%Q /\
               (measure b <= measure (a ++ sp :: b))%Q) ->
  forall line w,
    In line (wrapText measure text maxWidth) -> In w (split_sp line) ->
    (maxWidth < measure w)%Q -> line = w.
Proof.
  intros Hmono line w Hin Hw Hwide.
  destruct (trim (replace_ws false text)) as [|c r] eqn:E.
  - rewrite wrapText_blank in Hin by exact E. destruct Hin.
  - destruct (wrapText_groups measure maxWidth text) as [groups [Hs [Hok Hcat]]];
      [rewrite E; discriminate|].
    rewrite Hs in Hin. apply in_map_iff in Hin. destruct Hin as [g [<- Hg]].
    rewrite Forall_forall in Hok. destruct (Hok g Hg) as [Hne [_ Hlen]].
    assert (Hns : Forall (fun w => no_sp w = true) g).
    { apply Forall_forall. intros x Hx.
      pose proof (split_sp_no_sp (trim (replace_ws false text))) as Hall.
      fold (words_of text) in Hall. rewrite <- Hcat in Hall.
      rewrite Forall_forall in Hall. apply Hall.
      apply in_concat. exists g. auto. }
    rewrite split_join_sp in Hw by assumption.
    destruct Hlen as [H1|Hle].
    + destruct g as [|w' [|w2 g]]; try discriminate.
      destruct Hw as [->|[]]. reflexivity.
    + exfalso. apply Qle_bool_iff in Hle.
      apply (Qlt_not_le _ _ Hwide).
      eapply Qle_trans; [|exact Hle]. now apply measure_word_le_line.
Qed.

(** C9.  [wrapText] loses and repeats nothing: its lines joined with single
    spaces are the text with every run of white space made one space and
    the ends trimmed; and the words of the lines, in order, are the words of
    that normalized text. *)
Theorem wrapText_lossless (measure : str -> Q) (text : str) (maxWidth : Q) :
  join_sp (wrapText measure text maxWidth) = trim (replace_ws false text) /\
  concat (map split_sp (wrapText measure text maxWidth))
    = filter truthy (words_of text).
Proof.
  destruct (trim (replace_ws false text)) as [|c r] eqn:E.
  - rewrite wrapText_blank by exact E. unfold words_of. rewrite E.
    split; reflexivity.
  - assert (Hne : trim (replace_ws false text) <> [])
      by (rewrite E; discriminate).
    destruct (wrapText_groups measure maxWidth text Hne)
      as [groups [Hs [Hok Hcat]]].
    assert (Hgs : Forall (fun g : list str => g <> []) groups).
    { eapply Forall_impl; [|exact Hok]. intros g Hg. apply Hg. }
    assert (Hws : Forall (fun w : str => w <> []) (words_of text)).
    { apply split_sp_tidy. now apply normalized_tidy. }
    rewrite Hs. split.
    + rewrite join_sp_concat by exact Hgs. rewrite Hcat.
      unfold words_of. rewrite join_split_sp. exact E.
    + rewrite split_join_groups; [| exact Hgs |].
      * rewrite Hcat. symmetry. apply forallb_filter_id.
        apply forallb_forall. intros w Hw. apply truthy_nonempty.
        rewrite Forall_forall in Hws. now apply Hws.
      * rewrite Hcat. apply split_sp_no_sp.
Qed.

End WordWrapSpec.

(** ** The pipeline *)

Module PipelineFacts.

Import Segmenter Pipeline.

Lemma progress_only_refl j : progress_only j j.
Proof. destruct j; reflexivity. Qed.

Section Page.

Variable pf : Platform.
Variable state : JobState.
Variable voices : list VoiceOption.

Lemma spoken_from (chunks : list str) : forall n k s s' r,
  n = length chunks - k ->
  speakChunk pf state voices k (nth k chunks [])
    (onEnd pf state voices chunks k) throw s = (s', r) ->
  exists u rest,
    log s' = log s ++ SynthSpeak k u :: rest /\
    u_text u = nth k chunks [] /\
    Spoken chunks k rest /\
    isBusy s' = isBusy s /\
    progress_only (job s) (job s').
Proof.
  induction n as [n IH] using lt_wf_ind. intros k s s' r Hn.
  unfold speakChunk, call. 
  destruct (utterance_ends pf k _) as [[]|e|] eqn:Eu.
  - unfold bind at 1, emit at 1. rewrite onEnd_equation_1. cbv zeta.
    unfold bind at 1, setState at 1. cbn [job isBusy log].
    destruct (lt_dec (k + 1) (length chunks)) as [Hlt|Hge].
    + intros H.
      apply (IH (length chunks - (k + 1)) ltac:(lia) (k + 1)) in H;
        [|reflexivity].
      destruct H as [u' [rest [Hlog [Hu [Hsp [Hbusy Hjob]]]]]].
      cbn [job isBusy log] in *.
      do 2 eexists.
      split; [rewrite Hlog, <- !app_assoc; reflexivity|].
      split; [reflexivity|]. split; [|split; [exact Hbusy|]].
      * apply Spoken_next; auto.
      * unfold progress_only in *. rewrite Hjob. destruct (job s); reflexivity.
    + unfold ret. intros H. inversion H; subst; clear H. cbn [job isBusy log].
      do 2 eexists.
      split; [rewrite <- !app_assoc; reflexivity|].
      split; [reflexivity|]. split; [|split; [reflexivity|]].
      * apply Spoken_last; auto.
      * unfold progress_only. destruct (job s); reflexivity.
  - unfold bind, emit, throw. intros H. inversion H; subst; clear H.
    cbn [job isBusy log].
    do 2 eexists.
    split; [rewrite <- !app_assoc; reflexivity|].
    split; [reflexivity|]. split; [|split; [reflexivity|]].
    * apply Spoken_error.
    * apply progress_only_refl.
  - intros H. inversion H; subst; clear H. cbn [job isBusy log].
    eexists. exists [].
    split; [reflexivity|].
    split; [reflexivity|]. split; [|split; [reflexivity|]].
    * apply Spoken_pending.
    * apply progress_only_refl.
Qed.


(** What [speakText] adds to the record: a cancel when the synthesizer
    was speaking, the first chunk handed over, and what follows it. *)
Lemma speakText_log input s s' r :
  speakText pf state voices input s = (s', r) ->
  exists first u rest,
    log s' = log s ++ first ++ SynthSpeak 0 u :: rest /\
    (first = [] \/ first = [SynthCancel]) /\
    u_text u = nth 0 (splitText input 1800) [] /\
    Spoken (splitText input 1800) 0 rest /\
    isBusy s' = isBusy s /\
    progress_only (job s) (job s').
Proof.
  unfold speakText. cbv zeta. unfold bind.
  destruct (speaking pf).
  - unfold emit. intros E.
    apply (spoken_from _ _ _ _ _ _ eq_refl) in E.
    destruct E as [u [rest [Hlog [Hu [Hsp [Hbusy Hjob]]]]]].
    cbn [job isBusy log fst] in *.
    exists [SynthCancel], u, rest. rewrite Hlog, <- !app_assoc. auto 10.
  - unfold ret. intros E.
    apply (spoken_from _ _ _ _ _ _ eq_refl) in E.
    destruct E as [u [rest [Hlog [Hu [Hsp [Hbusy Hjob]]]]]].
    exists [], u, rest. rewrite Hlog. auto 10.
Qed.

End Page.

Lemma Spoken_synth chunks k rest :
  Spoken chunks k rest -> forallb synth_event rest = true.
Proof. induction 1; simpl; auto. Qed.







End PipelineFacts.

(** *** What the specification says of the pipeline *)

Module PipelineSpec.

Import Segmenter Pipeline PipelineFacts.

(** The specification's first scenario on a platform where everything
    works: the job ends ready, with both links set. *)
Example handleGenerate_scenario_ready :
  let st := Samples.fresh_job (lit "Hello world. This is a test.") in
  let after :=
    fst (handleGenerate (Samples.platform_with (Ok tt) (fun _ _ => Ok tt))
           st [] (at_click st)) in
  status (job after) = st_ready /\
  mp3Url (job after) = Some (lit "blob:local") /\
  mp4Url (job after) = Some (lit "blob:local") /\
  progress (job after) = Some 100%Z /\
  isBusy after = false /\
  exec_args (log after) = [mp3_args; probe_args; mp4_args].
Proof. repeat split. Qed.

(** Blank input: the generate action does nothing at all. *)
Example handleGenerate_blank_noop :
  let st := Samples.fresh_job (lit "   ") in
  handleGenerate Samples.denied st [] (at_click st) = (at_click st, Ok tt).
Proof. reflexivity. Qed.

(** Two chunks: the second is handed over after the first has ended; when
    the second fails, the job ends in the error state with the error code. *)
Example speakText_two_chunks :
  let st := Samples.fresh_job Samples.two_chunk_text in
  let pf := Samples.platform_with (Ok tt) (fun _ _ => Ok tt) in
  length (splitText Samples.two_chunk_text 1800) = 2 /\
  synth_order (log (fst (speakText pf st [] Samples.two_chunk_text (at_click st))))
    = [inl 0; inr 0; inl 1; inr 1].
Proof. split; vm_compute; reflexivity. Qed.

Example handleGenerate_second_chunk_fails :
  let st := Samples.fresh_job Samples.two_chunk_text in
  let after := fst (handleGenerate Samples.fails_second st [] (at_click st)) in
  synth_order (log after) = [inl 0; inr 0; inl 1] /\
  status (job after) = st_error /\
  error (job after) = Some (lit "synthesis-failed") /\
  mp3Url (job after) = None /\ mp4Url (job after) = None /\
  exec_args (log after) = [].
Proof. repeat split; vm_compute; reflexivity. Qed.






(** C4, as the code has it.  When the trimmed text is longer than 200,000
    code units, [handleGenerate] calls no pipeline stage and makes one state
    update, which sets the error message and leaves every other field,
    the status among them, as it was. *)
Theorem handleGenerate_too_long (pf : Platform) (state : JobState)
  (voices : list VoiceOption) :
  (200000 < Z.of_nat (length (trim (text state))))%Z ->
  let after := fst (handleGenerate pf state voices (at_click state)) in
  log after = [SetState (set_error (Some too_long_message) state)] /\
  filter is_stage_call (log after) = [] /\
  job after = set_error (Some too_long_message) state /\
  status (job after) = status state /\
  isBusy after = false /\
  too_long_message = lit "O texto excede 200.000 caracteres.".
Proof.
  intros Hlen. unfold handleGenerate. cbv zeta.
  destruct (trim (text state)) as [|c r] eqn:E; [simpl in Hlen; lia|].
  change (falsy (c :: r)) with false. cbv iota.
  apply Z.ltb_lt in Hlen. rewrite Hlen.
  repeat split.
Qed.

Lemma handleGenerate_too_long_witness :
  (200000 < Z.of_nat (length (trim (text (Samples.fresh_job Samples.long_text)))))%Z /\
  filter is_stage_call
    (log (fst (handleGenerate Samples.denied
                 (Samples.fresh_job Samples.long_text) []
                 (at_click (Samples.fresh_job Samples.long_text))))) = [].
Proof.
  assert (H : (200000
               < Z.of_nat (length (trim (text (Samples.fresh_job Samples.long_text)))))%Z)
    by (vm_compute; reflexivity).
  split; [exact H|].
  apply (handleGenerate_too_long Samples.denied
           (Samples.fresh_job Samples.long_text) [] H).
Defined.

(** C4 as stated fails: a text of 200,001 code units of which all but the
    first are trailing spaces passes the length check, the capture request
    is made, and the too-long message is not what the job ends with. *)
Lemma handleGenerate_padded_text_runs :
  (200000 < Z.of_nat (length (text (Samples.fresh_job Samples.padded_text))))%Z /\
  existsb is_stage_call
    (log (fst (handleGenerate Samples.denied
                 (Samples.fresh_job Samples.padded_text) []
                 (at_click (Samples.fresh_job Samples.padded_text))))) = true /\
  error (job (fst (handleGenerate Samples.denied
                     (Samples.fresh_job Samples.padded_text) []
                     (at_click (Samples.fresh_job Samples.padded_text)))))
    <> Some too_long_message.
Proof.
  split; [vm_compute; reflexivity|].
  split; [vm_compute; reflexivity|].
  vm_compute. discriminate.
Qed.

End PipelineSpec.

(** * Further properties *)

(** ** Greedy grouping *)

Module GreedyFacts.

Import Greedy.

Lemma tight_last fits gm gb p :
  gb <> [] -> tight fits (gm ++ [gb]) -> tight fits (gm ++ [gb ++ [p]]).
Proof.
  intros Hne. induction gm as [|g gm IH]; simpl; [auto|].
  intros [H1 H2]. split; [|now apply IH].
  destruct gm as [|g' gm]; simpl in *; [|exact H1].
  destruct gb; [congruence | exact H1].
Qed.

Lemma tight_snoc fits gm gb p :
  tight fits (gm ++ [gb]) -> fits (join_sp gb) p = false ->
  tight fits ((gm ++ [gb]) ++ [[p]]).
Proof.
  intros H Hp. induction gm as [|g gm IH]; simpl in *; [auto|].
  destruct H as [H1 H2]. split; [|now apply IH].
  destruct gm as [|g' gm]; simpl in *; exact H1.
Qed.

Lemma tight_at fits pre g1 g2 post :
  tight fits (pre ++ g1 :: g2 :: post) ->
  fits (join_sp g1) (hd [] g2) = false.
Proof.
  induction pre as [|g pre IH]; simpl; [tauto|].
  intros [_ H]. now apply IH.
Qed.

End GreedyFacts.

(** ** More on the Segmenter *)

Module SegmenterExtra.

Import Segmenter JsFacts SegmenterFacts Greedy GreedyFacts.

Lemma merge_step_tight maxLen gm gb p :
  Trimmed p -> Forall (OkGroup maxLen) gm -> OkGroup maxLen gb ->
  tight (fits_len maxLen) (gm ++ [gb]) ->
  exists gm' gb',
    merge_step maxLen (map join_sp gm, join_sp gb) p
      = (map join_sp gm', join_sp gb') /\
    Forall (OkGroup maxLen) gm' /\ OkGroup maxLen gb' /\
    tight (fits_len maxLen) (gm' ++ [gb']) /\
    concat (gm' ++ [gb']) = concat (gm ++ [gb]) ++ [p].
Proof.
  intros Hp Hgm Hgb Ht.
  pose proof Hgb as [Hne [Hall _]].
  pose proof (join_sp_Trimmed gb Hne Hall) as Hbuf.
  unfold merge_step.
  assert (Htrim : trim (join_sp gb ++ [sp] ++ p) = join_sp gb ++ [sp] ++ p)
    by (apply Trimmed_app; assumption).
  rewrite Htrim.
  assert (Hlen : length (join_sp gb ++ [sp] ++ p)
                 = length (join_sp gb) + 1 + length p)
    by (rewrite !length_app; simpl; lia).
  rewrite Hlen. fold (fits_len maxLen (join_sp gb) p).
  destruct (fits_len maxLen (join_sp gb) p) eqn:Hfit.
  - exists gm, (gb ++ [p]). split; [|split; [exact Hgm|split; [|split]]].
    + destruct Hbuf as [Hb _]. apply truthy_nonempty in Hb. rewrite Hb.
      rewrite join_sp_snoc by exact Hne. now rewrite <- app_assoc.
    + split; [destruct gb; discriminate|]. split.
      * apply Forall_app. split; [exact Hall | now constructor].
      * right. rewrite join_sp_snoc by exact Hne. rewrite Hlen.
        now apply Z.leb_le.
    + now apply tight_last.
    + rewrite !concat_app. simpl. now rewrite !app_nil_r, app_assoc.
  - exists (gm ++ [gb]), [p]. split; [|split; [|split; [|split]]].
    + rewrite push_truthy_app. simpl filter.
      destruct Hbuf as [Hb _]. apply truthy_nonempty in Hb. rewrite Hb.
      now rewrite map_app.
    + apply Forall_app. split; [exact Hgm | now constructor].
    + now apply OkGroup_single.
    + now apply tight_snoc.
    + rewrite !concat_app. simpl. now rewrite !app_nil_r.
Qed.

Lemma merge_fold_tight maxLen parts : forall gm gb,
  Forall Trimmed parts ->
  Forall (OkGroup maxLen) gm -> OkGroup maxLen gb ->
  tight (fits_len maxLen) (gm ++ [gb]) ->
  exists gm' gb',
    fold_left (merge_step maxLen) parts (map join_sp gm, join_sp gb)
      = (map join_sp gm', join_sp gb') /\
    Forall (OkGroup maxLen) gm' /\ OkGroup maxLen gb' /\
    tight (fits_len maxLen) (gm' ++ [gb']) /\
    concat (gm' ++ [gb']) = concat (gm ++ [gb]) ++ parts.
Proof.
  induction parts as [|p parts IH]; intros gm gb Hps Hgm Hgb Ht.
  - exists gm, gb. rewrite app_nil_r. auto.
  - inversion Hps as [|? ? Hp Hps']; subst.
    destruct (merge_step_tight maxLen gm gb p Hp Hgm Hgb Ht)
      as [gm1 [gb1 [Hstep [Hgm1 [Hgb1 [Ht1 Hcat1]]]]]].
    destruct (IH gm1 gb1 Hps' Hgm1 Hgb1 Ht1)
      as [gm' [gb' [Hfold [Hgm' [Hgb' [Ht' Hcat]]]]]].
    exists gm', gb'. cbn [fold_left]. rewrite Hstep, Hfold.
    split; [reflexivity|]. split; [exact Hgm'|]. split; [exact Hgb'|].
    split; [exact Ht'|].
    rewrite Hcat, Hcat1, <- app_assoc. reflexivity.
Qed.

(** The chunks, as groups of segments none of which could have taken the
    first segment of the next. *)
Lemma splitText_tight input maxLen :
  trim input <> [] ->
  exists groups,
    splitText input maxLen = map join_sp groups /\
    Forall (OkGroup maxLen) groups /\
    concat groups = segments (trim input) /\
    tight (fits_len maxLen) groups.
Proof.
  intros Hne. pose proof (Trimmed_trim input Hne) as Hrem.
  assert (Hparts : Forall Trimmed (segments (trim input))).
  { destruct (segments_pieces (trim input)) as [pcs [_ [_ ->]]].
    apply trimmed_pieces_Trimmed. }
  pose proof (segments_nonempty _ Hrem) as Hsne.
  destruct (segments (trim input)) as [|p parts] eqn:Eseg; [congruence|].
  inversion Hparts as [|? ? Hp Hps]; subst.
  destruct (merge_fold_tight maxLen parts [] [p] Hps (Forall_nil _)
              (OkGroup_single maxLen p Hp) (conj I I))
    as [gm [gb [Hfold [Hgm [Hgb [Ht Hcat]]]]]].
  exists (gm ++ [gb]). split; [|split; [|split]].
  - unfold splitText. cbv zeta. rewrite Eseg. cbn [fold_left].
    assert (Hfirst : merge_step maxLen ([], []) p = ([], p)).
    { unfold merge_step. simpl. destruct (_ <=? _)%Z; reflexivity. }
    rewrite Hfirst.
    change (@nil str, p) with (map join_sp [], join_sp [p]).
    rewrite Hfold, push_truthy_app. simpl filter.
    destruct Hgb as [Hn [Hall _]].
    pose proof (join_sp_Trimmed gb Hn Hall) as [Hb _].
    apply truthy_nonempty in Hb. rewrite Hb, map_app. simpl.
    destruct (map join_sp gm ++ [join_sp gb]) eqn:E; [|reflexivity].
    destruct (map join_sp gm); discriminate.
  - apply Forall_app. split; [exact Hgm | now constructor].
  - rewrite Hcat. reflexivity.
  - exact Ht.
Qed.

Lemma join_sp_head_length p rest : length p <= length (join_sp (p :: rest)).
Proof.
  destruct rest as [|q rest]; [simpl; lia|].
  rewrite join_sp_cons2, length_app. lia.
Qed.

Lemma join_sp_two_groups_length (g1 : list str) p rest :
  g1 <> [] ->
  length (join_sp g1) + 1 + length p <= length (join_sp (g1 ++ p :: rest)).
Proof.
  intros Hne. rewrite WordWrapFacts.join_sp_app by (auto; discriminate).
  rewrite length_app. 
  pose proof (join_sp_head_length p rest) as H.
  change (length (sp :: join_sp (p :: rest)))
    with (S (length (join_sp (p :: rest)))). lia.
Qed.

(** X1.  [splitText] is greedy: a chunk is closed only when the next segment
    does not fit.  Of two chunks in a row, the second starts with a segment
    that, added to the first with a space, would have passed [maxLen]. *)
Theorem splitText_greedy (input : str) (maxLen : Z) pre c1 c2 post :
  splitText input maxLen = pre ++ c1 :: c2 :: post ->
  exists p tail,
    c2 = p ++ tail /\ In p (segments (trim input)) /\
    (maxLen < Z.of_nat (length c1) + 1 + Z.of_nat (length p))%Z.
Proof.
  intros Hs.
  destruct (trim input) as [|c0 r0] eqn:Et.
  - exfalso. unfold splitText in Hs. rewrite Et in Hs.
    change (segments []) with (@nil str) in Hs. simpl in Hs.
    destruct pre as [|x [|y pre]]; discriminate.
  - assert (Hne : trim input <> []) by (rewrite Et; discriminate).
    destruct (splitText_tight input maxLen Hne) as [groups [Hg [Hok [Hcat Ht]]]].
    rewrite Et in *. rewrite Hg in Hs.
    apply map_eq_app in Hs. destruct Hs as [gpre [grest [-> [_ Hrest]]]].
    destruct grest as [|g1 [|g2 gpost]]; try discriminate.
    injection Hrest as <- <- _.
    apply tight_at in Ht.
    rewrite Forall_forall in Hok.
    destruct (Hok g2) as [Hn2 _]; [apply in_or_app; right; right; now left|].
    destruct g2 as [|p rest]; [congruence|]. simpl hd in Ht.
    exists p, (match rest with [] => [] | _ :: _ => sp :: join_sp rest end).
    split; [destruct rest; [simpl; now rewrite app_nil_r | reflexivity]|].
    split.
    + rewrite <- Hcat. apply in_concat. exists (p :: rest).
      split; [apply in_or_app; right; right; now left | now left].
    + unfold fits_len in Ht. apply Z.leb_gt in Ht. lia.
Qed.

Lemma splitText_greedy_witness :
  splitText (lit "Hello world. This is a test.") 20
    = [] ++ lit "Hello world." :: lit "This is a test." :: [] /\
  exists p tail,
    lit "This is a test." = p ++ tail /\
    In p (segments (trim (lit "Hello world. This is a test."))) /\
    (20 < Z.of_nat (length (lit "Hello world.")) + 1 + Z.of_nat (length p))%Z.
Proof.
  assert (H : splitText (lit "Hello world. This is a test.") 20
              = [] ++ lit "Hello world." :: lit "This is a test." :: [])
    by reflexivity.
  split; [exact H|].
  apply (splitText_greedy (lit "Hello world. This is a test.") 20 _ _ _ _ H).
Defined.

(** X2.  When all the segments joined with single spaces fit [maxLen],
    [splitText] returns exactly that join as its one chunk. *)
Theorem splitText_single_when_fits (input : str) (maxLen : Z) :
  trim input <> [] ->
  (Z.of_nat (length (join_sp (segments (trim input)))) <= maxLen)%Z ->
  splitText input maxLen = [join_sp (segments (trim input))].
Proof.
  intros Hne Hfit.
  destruct (splitText_tight input maxLen Hne) as [groups [Hg [Hok [Hcat Ht]]]].
  destruct groups as [|g1 [|g2 gs]].
  - exfalso. apply (splitText_nonempty input maxLen). now rewrite Hg.
  - rewrite Hg. simpl in Hcat. rewrite app_nil_r in Hcat. now rewrite Hcat.
  - exfalso. destruct Ht as [Ht _].
    inversion Hok as [|? ? [Hn1 _] Hok']; subst.
    inversion Hok' as [|? ? [Hn2 _] _]; subst.
    destruct g2 as [|p rest]; [congruence|]. simpl hd in Ht.
    unfold fits_len in Ht. apply Z.leb_gt in Ht.
    rewrite <- Hcat in Hfit.
    change (concat (g1 :: (p :: rest) :: gs))
      with (g1 ++ p :: (rest ++ concat gs)) in Hfit.
    pose proof (join_sp_two_groups_length g1 p (rest ++ concat gs) Hn1).
    unfold str, char in *. lia.
Qed.

Lemma splitText_single_when_fits_witness :
  trim (lit " One. Two!  Three? ") <> [] /\
  (Z.of_nat (length (join_sp (segments (trim (lit " One. Two!  Three? ")))))
   <= 17)%Z /\
  splitText (lit " One. Two!  Three? ") 17 = [lit "One. Two! Three?"].
Proof.
  assert (H1 : trim (lit " One. Two!  Three? ") <> [])
    by (vm_compute; discriminate).
  assert (H2 : (Z.of_nat (length (join_sp (segments
                   (trim (lit " One. Two!  Three? "))))) <= 17)%Z)
    by (vm_compute; discriminate).
  split; [exact H1|]. split; [exact H2|].
  apply (splitText_single_when_fits (lit " One. Two!  Three? ") 17 H1 H2).
Defined.

Lemma length_concat_groups (groups : list (list str)) :
  Forall (fun g => g <> []) groups -> length groups <= length (concat groups).
Proof.
  induction 1 as [|g groups Hg _ IH]; simpl; [lia|].
  rewrite length_app. destruct g; [congruence|]. simpl. lia.
Qed.

(** X3.  [splitText] returns at least one chunk, and for an input that is
    not blank no more chunks than the trimmed input has segments. *)
Theorem splitText_count (input : str) (maxLen : Z) :
  1 <= length (splitText input maxLen) /\
  (trim input <> [] ->
   length (splitText input maxLen) <= length (segments (trim input))).
Proof.
  split.
  - pose proof (splitText_nonempty input maxLen).
    destruct (splitText input maxLen); [congruence | simpl; lia].
  - intros Hne.
    destruct (splitText_groups input maxLen Hne) as [groups [Hg [Hok Hcat]]].
    rewrite Hg, length_map, <- Hcat. apply length_concat_groups.
    eapply Forall_impl; [|exact Hok]. intros g H. apply H.
Qed.

(** X4.  White space around the input does not matter to [splitText]. *)
Theorem splitText_ignores_outer_space (w1 input w2 : str) (maxLen : Z) :
  all_ws w1 = true -> all_ws w2 = true ->
  splitText (w1 ++ input ++ w2) maxLen = splitText input maxLen.
Proof.
  intros H1 H2. unfold splitText.
  rewrite trim_app_ws_l, trim_app_ws_r by assumption. reflexivity.
Qed.

Lemma splitText_ignores_outer_space_witness :
  all_ws [9; 10; 32]%N = true /\ all_ws [160; 13]%N = true /\
  splitText ([9; 10; 32]%N ++ lit "Hi there. Go!" ++ [160; 13]%N) 9
    = splitText (lit "Hi there. Go!") 9.
Proof.
  split; [reflexivity|]. split; [reflexivity|].
  apply (splitText_ignores_outer_space [9; 10; 32]%N (lit "Hi there. Go!")
           [160; 13]%N 9); reflexivity.
Defined.

End SegmenterExtra.

(** ** More on the word wrap *)

Module WordWrapExtra.

Import Segmenter WordWrap JsFacts SegmenterFacts WordWrapFacts Greedy GreedyFacts.

Section Wrap.

Variable measure : str -> Q.
Variable maxWidth : Q.

Local Abbreviation OkLine := (WordWrap.OkLine measure maxWidth).
Local Abbreviation fits := (fits_width measure maxWidth).

Lemma wrap_step_tight gl gc w :
  w <> [] -> Forall OkLine gl -> OkLine gc -> tight fits (gl ++ [gc]) ->
  exists gl' gc',
    wrap_step measure maxWidth (map join_sp gl, join_sp gc) w
      = (map join_sp gl', join_sp gc') /\
    Forall OkLine gl' /\ OkLine gc' /\ tight fits (gl' ++ [gc']) /\
    concat (gl' ++ [gc']) = concat (gl ++ [gc]) ++ [w].
Proof.
  intros Hw Hgl Hgc Ht.
  pose proof Hgc as [Hne [Hall _]].
  pose proof (join_sp_nonempty gc Hne Hall) as Hline.
  unfold wrap_step. apply truthy_nonempty in Hline. rewrite Hline.
  rewrite <- app_assoc. fold (fits (join_sp gc) w).
  destruct (fits (join_sp gc) w) eqn:Hfit; simpl negb; cbv iota.
  - exists gl, (gc ++ [w]). split; [|split; [exact Hgl|split; [|split]]].
    + now rewrite join_sp_snoc by exact Hne.
    + split; [destruct gc; discriminate|]. split.
      * apply Forall_app. split; [exact Hall | now constructor].
      * right. rewrite join_sp_snoc by exact Hne. exact Hfit.
    + now apply tight_last.
    + rewrite !concat_app. simpl. now rewrite !app_nil_r, app_assoc.
  - exists (gl ++ [gc]), [w]. split; [|split; [|split; [|split]]].
    + rewrite push_truthy_app. simpl filter. rewrite Hline.
      now rewrite map_app.
    + apply Forall_app. split; [exact Hgl | now constructor].
    + split; [discriminate|]. split; [now constructor | now left].
    + now apply tight_snoc.
    + rewrite !concat_app. simpl. now rewrite !app_nil_r.
Qed.

Lemma wrap_fold_tight words : forall gl gc,
  Forall (fun w => w <> []) words ->
  Forall OkLine gl -> OkLine gc -> tight fits (gl ++ [gc]) ->
  exists gl' gc',
    fold_left (wrap_step measure maxWidth) words (map join_sp gl, join_sp gc)
      = (map join_sp gl', join_sp gc') /\
    Forall OkLine gl' /\ OkLine gc' /\ tight fits (gl' ++ [gc']) /\
    concat (gl' ++ [gc']) = concat (gl ++ [gc]) ++ words.
Proof.
  induction words as [|w words IH]; intros gl gc Hws Hgl Hgc Ht.
  - exists gl, gc. rewrite app_nil_r. auto.
  - inversion Hws as [|? ? Hw Hws']; subst.
    destruct (wrap_step_tight gl gc w Hw Hgl Hgc Ht)
      as [gl1 [gc1 [Hstep [Hgl1 [Hgc1 [Ht1 Hcat1]]]]]].
    destruct (IH gl1 gc1 Hws' Hgl1 Hgc1 Ht1)
      as [gl' [gc' [Hfold [Hgl' [Hgc' [Ht' Hcat]]]]]].
    exists gl', gc'. cbn [fold_left]. rewrite Hstep, Hfold.
    split; [reflexivity|]. split; [exact Hgl'|]. split; [exact Hgc'|].
    split; [exact Ht'|].
    rewrite Hcat, Hcat1, <- app_assoc. reflexivity.
Qed.

(** The lines, as groups of words none of which could have taken the first
    word of the next. *)
Lemma wrapText_tight text :
  trim (replace_ws false text) <> [] ->
  exists groups,
    wrapText measure text maxWidth = map join_sp groups /\
    Forall OkLine groups /\
    concat groups = words_of text /\
    tight fits groups.
Proof.
  intros Hne.
  assert (Hws : Forall (fun w => w <> []) (words_of text)).
  { apply split_sp_tidy. now apply normalized_tidy. }
  destruct (words_of text) as [|w words] eqn:Ew.
  { exfalso. unfold words_of in Ew. now apply split_sp_nonnil in Ew. }
  inversion Hws as [|? ? Hw Hws']; subst.
  assert (Hsingle : OkLine [w]).
  { split; [discriminate|]. split; [now constructor | now left]. }
  destruct (wrap_fold_tight words [] [w] Hws' (Forall_nil _) Hsingle (conj I I))
    as [gl [gc [Hfold [Hgl [Hgc [Ht Hcat]]]]]].
  exists (gl ++ [gc]). split; [|split; [|split]].
  - unfold wrapText. cbv zeta. rewrite Ew. cbn [fold_left].
    assert (Hfirst : wrap_step measure maxWidth ([], []) w = ([], w)).
    { unfold wrap_step. change (truthy []) with false. simpl.
      destruct (negb _); reflexivity. }
    rewrite Hfirst.
    change (@nil str, w) with (map join_sp [], join_sp [w]).
    rewrite Hfold, push_truthy_app. simpl filter.
    destruct Hgc as [Hn [Hall _]].
    pose proof (join_sp_nonempty gc Hn Hall) as Hb.
    apply truthy_nonempty in Hb. now rewrite Hb, map_app.
  - apply Forall_app. split; [exact Hgl | now constructor].
  - rewrite Hcat. reflexivity.
  - exact Ht.
Qed.

End Wrap.

(** X5.  [wrapText] is greedy: of two lines in a row, the second starts with
    a word that, added to the first with a space, measures more than
    [maxWidth]. *)
Theorem wrapText_greedy_lines (measure : str -> Q) (text : str) (maxWidth : Q)
  pre l1 l2 post :
  wrapText measure text maxWidth = pre ++ l1 :: l2 :: post ->
  exists w tail,
    l2 = w ++ tail /\ In w (words_of text) /\
    (maxWidth < measure (l1 ++ sp :: w))%Q.
Proof.
  intros Hs.
  destruct (trim (replace_ws false text)) as [|c0 r0] eqn:Et.
  - rewrite wrapText_blank in Hs by exact Et.
    destruct pre; discriminate.
  - assert (Hne : trim (replace_ws false text) <> []) by (rewrite Et; discriminate).
    destruct (wrapText_tight measure maxWidth text Hne)
      as [groups [Hg [Hok [Hcat Ht]]]].
    rewrite Hg in Hs.
    apply map_eq_app in Hs. destruct Hs as [gpre [grest [-> [_ Hrest]]]].
    destruct grest as [|g1 [|g2 gpost]]; try discriminate.
    injection Hrest as <- <- _.
    apply tight_at in Ht.
    rewrite Forall_forall in Hok.
    destruct (Hok g2) as [Hn2 _]; [apply in_or_app; right; right; now left|].
    destruct g2 as [|w rest]; [congruence|]. simpl hd in Ht.
    exists w, (match rest with [] => [] | _ :: _ => sp :: join_sp rest end).
    split; [destruct rest; [simpl; now rewrite app_nil_r | reflexivity]|].
    split.
    + rewrite <- Hcat. apply in_concat. exists (w :: rest).
      split; [apply in_or_app; right; right; now left | now left].
    + unfold fits_width in Ht. apply Qnot_le_lt. intros H.
      apply Qle_bool_iff in H. simpl app in Ht. congruence.
Qed.

Lemma wrapText_greedy_lines_witness :
  let measure := fun s : str => inject_Z (7 * Z.of_nat (length s)) in
  wrapText measure (lit "  to be   or not to be ") 40
    = [lit "to be"] ++ lit "or" :: lit "not" :: [lit "to be"] /\
  exists w tail,
    lit "not" = w ++ tail /\
    In w (words_of (lit "  to be   or not to be ")) /\
    (40 < measure (lit "or" ++ sp :: w))%Q.
Proof.
  intros measure.
  assert (H : wrapText measure (lit "  to be   or not to be ") 40
              = [lit "to be"] ++ lit "or" :: lit "not" :: [lit "to be"])
    by reflexivity.
  split; [exact H|].
  apply (wrapText_greedy_lines measure (lit "  to be   or not to be ") 40
           _ _ _ _ H).
Defined.

(** X6.  With a measure that does not shrink when words are added at the
    end, a text whose normalized form measures within [maxWidth] comes back
    as that one line. *)
Theorem wrapText_single_when_fits (measure : str -> Q) (text : str)
  (maxWidth : Q) :
  (forall a b, (measure a <= measure (a ++ sp :: b))%Q) ->
  trim (replace_ws false text) <> [] ->
  (measure (trim (replace_ws false text)) <= maxWidth)%Q ->
  wrapText measure text maxWidth = [trim (replace_ws false text)].
Proof.
  intros Hmono Hne Hfit.
  destruct (wrapText_tight measure maxWidth text Hne)
    as [groups [Hg [Hok [Hcat Ht]]]].
  assert (Hjoin : join_sp (concat groups) = trim (replace_ws false text)).
  { rewrite Hcat. unfold words_of. apply join_split_sp. }
  destruct groups as [|g1 [|g2 gs]].
  - exfalso. simpl in Hjoin. congruence.
  - rewrite Hg. simpl in *. rewrite app_nil_r in Hjoin. now rewrite Hjoin.
  - exfalso. destruct Ht as [Ht _].
    inversion Hok as [|? ? [Hn1 _] Hok']; subst.
    inversion Hok' as [|? ? [Hn2 _] _]; subst.
    destruct g2 as [|w rest]; [congruence|]. simpl hd in Ht.
    unfold fits_width in Ht. simpl app in Ht.
    assert (Hle : (measure (join_sp g1 ++ sp :: w)
                   <= measure (trim (replace_ws false text)))%Q).
    { rewrite <- Hjoin.
      change (concat (g1 :: (w :: rest) :: gs))
        with (g1 ++ w :: (rest ++ concat gs)).
      rewrite join_sp_app by (auto; discriminate).
      destruct (rest ++ concat gs) as [|x xs].
      - apply Qle_refl.
      - rewrite join_sp_cons by discriminate.
        change (join_sp g1 ++ sp :: w ++ sp :: join_sp (x :: xs))
          with (join_sp g1 ++ (sp :: w) ++ sp :: join_sp (x :: xs)).
        rewrite app_assoc. apply Hmono. }
    assert (H : Qle_bool (measure (join_sp g1 ++ sp :: w)) maxWidth = true).
    { apply Qle_bool_iff. eapply Qle_trans; eassumption. }
    congruence.
Qed.

Lemma wrapText_single_when_fits_witness :
  let measure := fun s : str => inject_Z (7 * Z.of_nat (length s)) in
  (forall a b, (measure a <= measure (a ++ sp :: b))%Q) /\
  wrapText measure (lit "  to be   or not ") 100 = [lit "to be or not"].
Proof.
  intros measure.
  assert (Hmono : forall a b, (measure a <= measure (a ++ sp :: b))%Q).
  { intros a b. unfold measure. rewrite <- Zle_Qle, length_app. lia. }
  split; [exact Hmono|].
  apply (wrapText_single_when_fits measure (lit "  to be   or not ") 100 Hmono).
  - vm_compute. discriminate.
  - vm_compute. discriminate.
Defined.

Lemma single_spaced_words s : forall b,
  single_spaced b s = true ->
  Forall (fun w => forallb (fun c => negb (is_ws c)) w = true) (split_sp s).
Proof.
  induction s as [|c s IH]; intros b; simpl; [now constructor|].
  destruct (is_ws c) eqn:Ew.
  - intros H. apply andb_true_iff in H. destruct H as [H1 H].
    apply andb_true_iff in H1. destruct H1 as [_ Hc]. rewrite Hc.
    constructor; [reflexivity | now apply IH in H].
  - intros H. apply IH in H.
    destruct (c =? sp)%N eqn:Ec; [now rewrite (sp_is_ws _ Ec) in Ew|].
    destruct (split_sp s) as [|w ws]; [constructor; [|constructor]|].
    + simpl. now rewrite Ew.
    + inversion H; subst. constructor; [|assumption].
      simpl. rewrite Ew. assumption.
Qed.

Lemma words_of_no_ws text :
  Forall (fun w => forallb (fun c => negb (is_ws c)) w = true) (words_of text).
Proof.
  unfold words_of.
  destruct (trim_split (replace_ws false text)) as [w1 [w2 [Hs _]]].
  pose proof (replace_ws_single_spaced text false) as Hss.
  rewrite Hs in Hss. apply single_spaced_suffix in Hss.
  apply single_spaced_prefix in Hss.
  eapply single_spaced_words. exact Hss.
Qed.

(** X7.  A line of [wrapText] is never empty, and splitting it at spaces
    gives words of the text that are not empty and hold no white space: the
    only white space of a line is one space between two words. *)
Theorem wrapText_lines_clean (measure : str -> Q) (text : str) (maxWidth : Q) :
  forall line, In line (wrapText measure text maxWidth) ->
    line <> [] /\
    Forall (fun w => w <> [] /\ In w (words_of text) /\
                     forallb (fun c => negb (is_ws c)) w = true)
           (split_sp line).
Proof.
  intros line Hin.
  destruct (trim (replace_ws false text)) as [|c r] eqn:E.
  - rewrite wrapText_blank in Hin by exact E. destruct Hin.
  - destruct (wrapText_groups measure maxWidth text) as [groups [Hs [Hok Hcat]]];
      [rewrite E; discriminate|].
    rewrite Hs in Hin. apply in_map_iff in Hin. destruct Hin as [g [<- Hg]].
    rewrite Forall_forall in Hok. destruct (Hok g Hg) as [Hne [Hall _]].
    split; [now apply join_sp_nonempty|].
    assert (Hsub : forall w, In w g -> In w (words_of text)).
    { intros w Hw. rewrite <- Hcat. apply in_concat. exists g. auto. }
    assert (Hns : Forall (fun w => no_sp w = true) g).
    { apply Forall_forall. intros w Hw.
      pose proof (split_sp_no_sp (trim (replace_ws false text))) as Hns.
      fold (words_of text) in Hns. rewrite Forall_forall in Hns. auto. }
    rewrite split_join_sp by assumption.
    apply Forall_forall. intros w Hw. split; [|split].
    + rewrite Forall_forall in Hall. auto.
    + auto.
    + pose proof (words_of_no_ws text) as Hnw.
      rewrite Forall_forall in Hnw. auto.
Qed.

Lemma wrapText_lines_clean_witness :
  let measure := fun s : str => inject_Z (7 * Z.of_nat (length s)) in
  In (lit "to be") (wrapText measure (lit "  to be   or not to be ") 40) /\
  lit "to be" <> [] /\
  Forall (fun w => w <> [] /\ In w (words_of (lit "  to be   or not to be ")) /\
                   forallb (fun c => negb (is_ws c)) w = true)
         (split_sp (lit "to be")).
Proof.
  intros measure.
  assert (H : In (lit "to be")
                (wrapText measure (lit "  to be   or not to be ") 40))
    by (vm_compute; auto).
  split; [exact H|].
  apply (wrapText_lines_clean measure (lit "  to be   or not to be ") 40 _ H).
Defined.

(** X8.  [wrapText] returns no line exactly when the text is empty or all
    white space, and never more lines than the normalized text has words. *)
Theorem wrapText_count (measure : str -> Q) (text : str) (maxWidth : Q) :
  (wrapText measure text maxWidth = [] <-> all_ws text = true) /\
  length (wrapText measure text maxWidth) <= length (words_of text).
Proof.
  assert (Hblank : trim (replace_ws false text) = [] <-> all_ws text = true).
  { rewrite trim_nil. unfold all_ws.
    assert (G : forall b, forallb is_ws (replace_ws b text) = forallb is_ws text).
    { induction text as [|c t IH]; intros b; simpl; [reflexivity|].
      destruct (is_ws c) eqn:Ec; simpl.
      - destruct b; simpl; [apply IH|].
        change (is_ws sp) with true. simpl. apply IH.
      - now rewrite Ec. }
    now rewrite G. }
  destruct (trim (replace_ws false text)) as [|c r] eqn:E.
  - rewrite wrapText_blank by exact E. split; [|simpl; lia].
    split; intros _; [now apply Hblank | reflexivity].
  - destruct (wrapText_groups measure maxWidth text) as [groups [Hs [Hok Hcat]]];
      [rewrite E; discriminate|].
    split.
    + split.
      * intros H. rewrite Hs in H. destruct groups; [|discriminate].
        simpl in Hcat. unfold words_of in Hcat. symmetry in Hcat.
        now apply split_sp_nonnil in Hcat.
      * intros H. apply Hblank in H. discriminate.
    + rewrite Hs, length_map, <- Hcat.
      apply SegmenterExtra.length_concat_groups.
      eapply Forall_impl; [|exact Hok]. intros g H. apply H.
Qed.

End WordWrapExtra.

(** ** More on the pipeline *)

Module PipelineExtra.

Import Segmenter WordWrap Pipeline PipelineFacts Trace JsFacts SegmenterFacts.

Lemma set_progress_twice a b j :
  set_progress a (set_progress b j) = set_progress a j.
Proof. reflexivity. Qed.

Section Page.

Variable pf : Platform.
Variable state : JobState.
Variable voices : list VoiceOption.

Local Abbreviation events := (tts_events pf state voices).

Lemma tts_events_job chunks a j ks :
  flat_map (events chunks (set_progress a j)) ks = flat_map (events chunks j) ks.
Proof. reflexivity. Qed.

(** Chunks [k] and on, all ending well. *)
Lemma speak_run_ok (chunks : list str) :
  (forall k, k < length chunks -> answer pf state voices chunks k = Ok tt) ->
  forall d k s,
    d = length chunks - k -> k < length chunks ->
    speakChunk pf state voices k (nth k chunks [])
      (onEnd pf state voices chunks k) throw s
    = ({| job := set_progress
                   (Some (tts_progress (length chunks) (length chunks))) (job s);
          isBusy := isBusy s;
          log := log s ++ flat_map (events chunks (job s)) (seq k d) |},
       Ok tt).
Proof.
  intros Hok. induction d as [|d IH]; intros k s Hd Hk; [lia|].
  unfold speakChunk, call.
  change (utterance_ends pf k _) with (answer pf state voices chunks k).
  rewrite Hok by exact Hk.
  unfold bind at 1, emit at 1. rewrite onEnd_equation_1. cbv zeta.
  unfold bind at 1, setState at 1. cbn [job isBusy log].
  destruct (lt_dec (k + 1) (length chunks)) as [Hlt|Hge].
  - rewrite (IH (k + 1)) by lia. cbn [job isBusy log].
    rewrite set_progress_twice, tts_events_job.
    replace (k + 1) with (S k) by lia.
    cbn [seq flat_map]. unfold tts_events at 2, utterance_for.
    replace (k + 1) with (S k) by lia.
    rewrite <- !app_assoc. reflexivity.
  - assert (d = 0) by lia. subst d. unfold ret. cbn [seq flat_map].
    unfold tts_events, utterance_for. rewrite app_nil_r, <- !app_assoc.
    replace (k + 1) with (length chunks) by lia. reflexivity.
Qed.

(** Chunks [k] to [f - 1] ending well, chunk [f] not. *)
Lemma speak_run_fails (chunks : list str) f (r : Result unit) :
  f < length chunks ->
  (forall k, k < f -> answer pf state voices chunks k = Ok tt) ->
  answer pf state voices chunks f = r -> r <> Ok tt ->
  forall d k s,
    d = f - k -> k <= f ->
    exists s',
      speakChunk pf state voices k (nth k chunks [])
        (onEnd pf state voices chunks k) throw s = (s', r) /\
      log s' = log s ++ flat_map (events chunks (job s)) (seq k d)
                 ++ SynthSpeak f (utterance_for pf state voices (nth f chunks []))
                 :: failure_events f r.
Proof.
  intros Hf Hok Hr Hnok. induction d as [|d IH]; intros k s Hd Hk.
  - assert (k = f) by lia. subst k.
    unfold speakChunk, call.
    change (utterance_ends pf f _) with (answer pf state voices chunks f).
    rewrite Hr.
    destruct r as [[]|e|]; [congruence| |].
    + unfold bind, emit, throw. cbn [job isBusy log].
      eexists. split; [reflexivity|]. cbn [job isBusy log seq flat_map].
      unfold failure_events, utterance_for. now rewrite <- !app_assoc.
    + eexists. split; [reflexivity|]. reflexivity.
  - unfold speakChunk, call.
    change (utterance_ends pf k _) with (answer pf state voices chunks k).
    rewrite Hok by lia.
    unfold bind at 1, emit at 1. rewrite onEnd_equation_1. cbv zeta.
    unfold bind at 1, setState at 1. cbn [job isBusy log].
    destruct (lt_dec (k + 1) (length chunks)) as [Hlt|Hge]; [|lia].
    match goal with
    | |- context [speakChunk _ _ _ _ _ _ _ ?S] =>
        destruct (IH (k + 1) S ltac:(lia) ltac:(lia)) as [s' [Hrun Hlog]]
    end.
    exists s'. split; [exact Hrun|].
    rewrite Hlog. cbn [job isBusy log].
    rewrite tts_events_job.
    cbn [seq flat_map]. rewrite <- (Nat.add_1_r k).
    rewrite <- !app_assoc. reflexivity.
Qed.

(** When chunks [k] and on are spoken to a good end, each of them has had
    its completion callback. *)
Lemma speak_ok_ends (chunks : list str) : forall n k s s',
  n = length chunks - k ->
  speakChunk pf state voices k (nth k chunks [])
    (onEnd pf state voices chunks k) throw s = (s', Ok tt) ->
  forall j, k <= j < length chunks -> In (UtteranceEnd j) (log s').
Proof.
  induction n as [n IH] using lt_wf_ind. intros k s s' Hn.
  unfold speakChunk, call.
  destruct (utterance_ends pf k _) as [[]|e|]; [| |discriminate].
  - unfold bind at 1, emit at 1. rewrite onEnd_equation_1. cbv zeta.
    unfold bind at 1, setState at 1. cbn [job isBusy log].
    destruct (lt_dec (k + 1) (length chunks)) as [Hlt|Hge].
    + intros H j Hj.
      destruct (Nat.eq_dec j k) as [->|Hjk].
      * pose proof (spoken_from pf state voices chunks _ _ _ _ _ eq_refl H)
          as [u [rest [Hlog _]]].
        rewrite Hlog. cbn [log]. apply in_or_app. left.
        apply in_or_app. left. apply in_or_app. right. now left.
      * eapply (IH (length chunks - (k + 1))); [lia|reflexivity|exact H|lia].
    + unfold ret. intros H j Hj. injection H as <-. cbn [log].
      assert (j = k) by lia. subst j.
      apply in_or_app. left. apply in_or_app. right. now left.
  - unfold bind, emit, throw. discriminate.
Qed.

End Page.

Lemma find_seq_some (p : nat -> bool) : forall n a f,
  find p (seq a n) = Some f ->
  a <= f < a + n /\ p f = true /\ forall k, a <= k < f -> p k = false.
Proof.
  induction n as [|n IH]; intros a f; simpl; [discriminate|].
  destruct (p a) eqn:Ea.
  - intros H; injection H as <-. repeat split; try lia; auto.
  - intros H. apply IH in H. destruct H as [H1 [H2 H3]].
    repeat split; try lia; auto.
    intros k Hk. destruct (Nat.eq_dec k a) as [->|Hne]; [exact Ea|].
    apply H3. lia.
Qed.

Lemma find_seq_none (p : nat -> bool) : forall n a,
  find p (seq a n) = None -> forall k, a <= k < a + n -> p k = false.
Proof.
  induction n as [|n IH]; intros a; simpl; [lia|].
  destruct (p a) eqn:Ea; [discriminate|].
  intros H k Hk. destruct (Nat.eq_dec k a) as [->|Hne]; [exact Ea|].
  apply (IH (S a) H). lia.
Qed.

Lemma is_ok_true r : is_ok r = true -> r = Ok tt.
Proof. destruct r as [[]| |]; simpl; congruence. Qed.

Lemma spoken_texts_app a b :
  spoken_texts (a ++ b) = spoken_texts a ++ spoken_texts b.
Proof.
  induction a as [|ev a IH]; [reflexivity|].
  destruct ev; simpl; rewrite ?IH; reflexivity.
Qed.

Lemma spoken_texts_events pf state voices chunks j ks :
  spoken_texts (flat_map (tts_events pf state voices chunks j) ks)
  = map (fun k => nth k chunks []) ks.
Proof.
  induction ks as [|k ks IH]; [reflexivity|].
  simpl. now rewrite IH.
Qed.

Lemma synth_order_events pf state voices chunks j ks :
  synth_order (flat_map (tts_events pf state voices chunks j) ks)
  = flat_map (fun k => [inl k; inr k]) ks.
Proof.
  induction ks as [|k ks IH]; [reflexivity|].
  simpl. now rewrite IH.
Qed.

Lemma map_nth_seq (l : list str) : forall m,
  m <= length l -> map (fun k => nth k l []) (seq 0 m) = firstn m l.
Proof.
  induction l as [|x l IH]; intros m Hm.
  - simpl in Hm. assert (m = 0) by lia. subst. reflexivity.
  - destruct m as [|m]; [reflexivity|].
    simpl. f_equal. rewrite <- seq_shift, map_map. simpl.
    apply IH. simpl in Hm. lia.
Qed.

Lemma tts_progress_full n : 0 < n -> tts_progress n n = 25%Z.
Proof.
  intros Hn.
  assert (Hex : ((50 * Z.of_nat n + Z.of_nat n) / (2 * Z.of_nat n) = 25)%Z).
  { symmetry. apply (Z.div_unique _ _ 25 (Z.of_nat n)); lia. }
  unfold tts_progress.
  destruct (Double.of_Z (Z.of_nat n)) as [s|s| |s m e].
  - exact Hex.
  - exact Hex.
  - exact Hex.
  - rewrite DoubleFacts.div_diag. vm_compute. reflexivity.
Qed.



(** The run of [speakText] when chunk [f] is the first that does not end
    well: its result, what it adds to the record, and [isBusy] left
    alone. *)
Lemma speakText_run_some (pf : Platform) (state : JobState)
  (voices : list VoiceOption) (input : str) (s : Sys) (f : nat) :
  first_failure pf state voices (splitText input 1800) = Some f ->
  snd (speakText pf state voices input s)
    = answer pf state voices (splitText input 1800) f /\
  log (fst (speakText pf state voices input s))
    = log s ++ (if speaking pf then [SynthCancel] else [])
        ++ flat_map (tts_events pf state voices (splitText input 1800) (job s))
             (seq 0 f)
        ++ SynthSpeak f (utterance_for pf state voices
                           (nth f (splitText input 1800) []))
        :: failure_events f (answer pf state voices (splitText input 1800) f) /\
  isBusy (fst (speakText pf state voices input s)) = isBusy s.
Proof.
  intros Ef. set (chunks := splitText input 1800) in *.
  destruct (speakText pf state voices input s) as [s1 r1] eqn:E.
  cbn [fst snd]. revert E.
  unfold speakText. cbv zeta. fold chunks. unfold bind.
  unfold first_failure in Ef.
  apply find_seq_some in Ef. destruct Ef as [Hf [Hbad Hgood]].
  assert (Hok : forall k, k < f -> answer pf state voices chunks k = Ok tt).
  { intros k Hk. apply is_ok_true. apply negb_false_iff. apply Hgood. lia. }
  assert (Hr : answer pf state voices chunks f <> Ok tt).
  { intros E. rewrite E in Hbad. discriminate. }
  destruct (speaking pf); [unfold emit|unfold ret];
    match goal with
    | |- context [speakChunk _ _ _ _ _ _ _ ?S] =>
        destruct (speak_run_fails pf state voices chunks f _ ltac:(lia) Hok
                    eq_refl Hr f 0 S ltac:(lia) ltac:(lia))
          as [s' [Hrun Hlog]]
    end;
    pose proof (spoken_from pf state voices chunks _ _ _ _ _ eq_refl Hrun)
      as [_ [_ [_ [_ [_ [Hbusy _]]]]]];
    rewrite Hrun; intros E; injection E as <- <-;
    rewrite Hlog; cbn [job isBusy log] in *;
    (split; [reflexivity|]); (split; [|exact Hbusy]);
    rewrite <- ?app_assoc; reflexivity.
Qed.

(** The run of [speakText] when every chunk ends well. *)
Lemma speakText_run_none (pf : Platform) (state : JobState)
  (voices : list VoiceOption) (input : str) (s : Sys) :
  first_failure pf state voices (splitText input 1800) = None ->
  snd (speakText pf state voices input s) = Ok tt /\
  log (fst (speakText pf state voices input s))
    = log s ++ (if speaking pf then [SynthCancel] else [])
        ++ flat_map (tts_events pf state voices (splitText input 1800) (job s))
             (seq 0 (length (splitText input 1800))) /\
  isBusy (fst (speakText pf state voices input s)) = isBusy s.
Proof.
  intros Ef. set (chunks := splitText input 1800) in *.
  assert (Hn : 0 < length chunks).
  { pose proof (splitText_nonempty input 1800). subst chunks.
    destruct (splitText input 1800); [congruence | simpl; lia]. }
  destruct (speakText pf state voices input s) as [s1 r1] eqn:E.
  cbn [fst snd]. revert E.
  unfold speakText. cbv zeta. fold chunks. unfold bind.
  unfold first_failure in Ef.
  pose proof (find_seq_none _ _ _ Ef) as Hgood.
  assert (Hok : forall k, k < length chunks ->
                          answer pf state voices chunks k = Ok tt).
  { intros k Hk. apply is_ok_true. apply negb_false_iff. apply Hgood. lia. }
  destruct (speaking pf); [unfold emit|unfold ret];
    rewrite (speak_run_ok pf state voices chunks Hok (length chunks) 0)
      by lia;
    intros E; injection E as <- <-;
    cbn [fst snd job isBusy log];
    (split; [reflexivity|]); (split; [|reflexivity]);
    rewrite <- ?app_assoc; reflexivity.
Qed.

(** X12.  [speakText], driven by callbacks, is a plain iteration: the chunks
    are spoken in order up to the first one that does not end well; that one
    is still handed over, its error rejects [speakText] (or, with no answer,
    [speakText] never settles), and no later chunk is spoken.  With no
    failure all chunks are spoken and [speakText] resolves. *)
Theorem speakText_trace (pf : Platform) (state : JobState)
  (voices : list VoiceOption) (input : str) (s : Sys) :
  let chunks := splitText input 1800 in
  snd (speakText pf state voices input s) = tts_result pf state voices chunks /\
  log (fst (speakText pf state voices input s))
    = log s ++ (if speaking pf then [SynthCancel] else [])
        ++ tts_trace pf state voices chunks (job s) /\
  isBusy (fst (speakText pf state voices input s)) = isBusy s.
Proof.
  intros chunks. subst chunks. unfold tts_result, tts_trace.
  destruct (first_failure pf state voices (splitText input 1800))
    as [f|] eqn:Ef.
  - destruct (speakText_run_some pf state voices input s f Ef)
      as [Hres [Hlog Hbusy]].
    split; [exact Hres|]. split; [exact Hlog|exact Hbusy].
  - destruct (speakText_run_none pf state voices input s Ef)
      as [Hres [Hlog Hbusy]].
    split; [exact Hres|]. split; [exact Hlog|exact Hbusy].
Qed.

(** X13.  When every chunk ends well, [speakText] resolves, the texts handed
    to the synthesizer are exactly the chunks, each once and in order, and
    the job's progress stands at 25. *)
Theorem speakText_all_end_well (pf : Platform) (state : JobState)
  (voices : list VoiceOption) (input : str) (s : Sys) :
  (forall k, k < length (splitText input 1800) ->
     answer pf state voices (splitText input 1800) k = Ok tt) ->
  snd (speakText pf state voices input s) = Ok tt /\
  spoken_texts (log (fst (speakText pf state voices input s)))
    = spoken_texts (log s) ++ splitText input 1800 /\
  progress (job (fst (speakText pf state voices input s))) = Some 25%Z.
Proof.
  intros Hok.
  assert (Hn : 0 < length (splitText input 1800)).
  { pose proof (splitText_nonempty input 1800).
    destruct (splitText input 1800); [congruence | simpl; lia]. }
  unfold speakText. cbv zeta. unfold bind.
  destruct (speaking pf); [unfold emit|unfold ret];
    rewrite (speak_run_ok pf state voices _ Hok (length (splitText input 1800)) 0)
      by lia;
    cbn [fst snd job isBusy log];
    (split; [reflexivity|]);
    (split; [|cbn; now rewrite tts_progress_full]);
    rewrite !spoken_texts_app, spoken_texts_events, map_nth_seq, firstn_all
      by lia;
    simpl; now rewrite ?app_nil_r.
Qed.

Lemma speakText_all_end_well_witness :
  let pf := Samples.platform_with (Ok tt) (fun _ _ => Ok tt) in
  let st := Samples.fresh_job Samples.two_chunk_text in
  snd (speakText pf st [] Samples.two_chunk_text (at_click st)) = Ok tt /\
  spoken_texts (log (fst (speakText pf st [] Samples.two_chunk_text (at_click st))))
    = spoken_texts (log (at_click st)) ++ splitText Samples.two_chunk_text 1800 /\
  progress (job (fst (speakText pf st [] Samples.two_chunk_text (at_click st))))
    = Some 25%Z.
Proof.
  intros pf st.
  apply (speakText_all_end_well pf st [] Samples.two_chunk_text (at_click st)).
  intros k _. reflexivity.
Defined.

(** X14.  When chunk [f] is the first that does not end well, the texts
    handed to the synthesizer are the chunks up to and with [f] and no
    other, the completion callbacks are those of the chunks before [f], and
    [speakText] does not resolve. *)
Theorem speakText_stops_at_failure (pf : Platform) (state : JobState)
  (voices : list VoiceOption) (input : str) (s : Sys) (f : nat) :
  first_failure pf state voices (splitText input 1800) = Some f ->
  snd (speakText pf state voices input s) <> Ok tt /\
  spoken_texts (log (fst (speakText pf state voices input s)))
    = spoken_texts (log s) ++ firstn (S f) (splitText input 1800) /\
  synth_order (log (fst (speakText pf state voices input s)))
    = synth_order (log s) ++ flat_map (fun k => [inl k; inr k]) (seq 0 f)
        ++ [inl f].
Proof.
  intros Ef.
  destruct (speakText_run_some pf state voices input s f Ef) as [Hres [Hlog _]].
  unfold first_failure in Ef. apply find_seq_some in Ef.
  destruct Ef as [Hf [Hbad _]].
  split; [|split].
  - rewrite Hres. intros E. rewrite E in Hbad. discriminate.
  - rewrite Hlog, !spoken_texts_app, spoken_texts_events.
    assert (Hc : spoken_texts (if speaking pf then [SynthCancel] else []) = [])
      by (destruct (speaking pf); reflexivity).
    rewrite Hc, app_nil_l. f_equal.
    change (spoken_texts (SynthSpeak f ?u :: ?x))
      with (u_text u :: spoken_texts x).
    assert (Ht : spoken_texts
                   (failure_events f (answer pf state voices
                                        (splitText input 1800) f)) = []).
    { destruct (answer _ _ _ _ f); reflexivity. }
    rewrite Ht.
    rewrite <- (map_nth_seq _ (S f)) by lia.
    rewrite seq_S, map_app. reflexivity.
  - rewrite Hlog.
    assert (Happ : forall a b, synth_order (a ++ b) = synth_order a ++ synth_order b).
    { induction a as [|ev a IH]; intros b; [reflexivity|].
      destruct ev; simpl; rewrite ?IH; reflexivity. }
    rewrite !Happ. f_equal.
    assert (Hc : synth_order (if speaking pf then [SynthCancel] else []) = [])
      by (destruct (speaking pf); reflexivity).
    rewrite Hc, app_nil_l. f_equal.
    + apply synth_order_events.
    + simpl. destruct (answer _ _ _ _ f); reflexivity.
Qed.

Lemma speakText_stops_at_failure_witness :
  let st := Samples.fresh_job Samples.two_chunk_text in
  first_failure Samples.fails_second st [] (splitText Samples.two_chunk_text 1800)
    = Some 1 /\
  snd (speakText Samples.fails_second st [] Samples.two_chunk_text (at_click st))
    <> Ok tt.
Proof.
  intros st.
  assert (H : first_failure Samples.fails_second st []
                (splitText Samples.two_chunk_text 1800) = Some 1)
    by (vm_compute; reflexivity).
  split; [exact H|].
  apply (speakText_stops_at_failure Samples.fails_second st []
           Samples.two_chunk_text (at_click st) 1 H).
Defined.

(** One step of running the pipeline by hand: the next answer of the
    platform is taken apart; [speakText] is taken as a whole. *)
Ltac platform_step pf :=
  match goal with
  | |- context [speakText ?a ?b ?c ?i ?S] =>
      let Esp := fresh "Esp" in
      destruct (speakText a b c i S) as [s2 [[]|e2|]] eqn:Esp;
      apply speakText_log in Esp;
      destruct Esp as [first [u [rest [Hlog [Hfirst [_ [Hsp [Hbusy Hjob]]]]]]]];
      cbn [job isBusy log] in Hlog, Hbusy, Hjob
  | |- context [getDisplayMedia pf] => destruct (getDisplayMedia pf) as [[]|?|]
  | |- context [newMediaRecorder pf] => destruct (newMediaRecorder pf) as [[]|?|]
  | |- context [recorder_stop pf] => destruct (recorder_stop pf) as [[]|?|]
  | |- context [ffmpeg_import pf ?g] =>
      destruct (ffmpeg_import pf g) as [[]|?|]
  | |- context [ffmpeg_load pf ?g] =>
      destruct (ffmpeg_load pf g) as [[]|?|]
  | |- context [ffmpeg_writeFile pf ?g ?n ?b] =>
      destruct (ffmpeg_writeFile pf g n b) as [[]|?|]
  | |- context [ffmpeg_exec pf ?g ?a] =>
      destruct (ffmpeg_exec pf g a) as [[]|?|]
  | |- context [ffmpeg_readFile pf ?g ?n] =>
      destruct (ffmpeg_readFile pf g n) as [?|?|]
  | |- context [toBlob pf ?c] => destruct (toBlob pf c) as [?|]
  end.

Ltac unfold_pipeline :=
  unfold speakAndRecord, transcodeWebmToMp3, generateImageFromText,
    composeVideo, bind, try_finally, try_catch, setIsBusy, setState, call,
    emit, throw, ret;
  cbn [job isBusy log].

(** [handleGenerate] past its two guards. *)
Lemma handleGenerate_entered pf state voices :
  trim (text state) <> [] ->
  (Z.of_nat (length (trim (text state))) <= 200000)%Z ->
  handleGenerate pf state voices
  = try_catch
      (r <- speakAndRecord pf state voices (trim (text state)) ;;
       let '(mp3Blob, durationMs) := r in
       finish pf (trim (text state)) mp3Blob durationMs)
      (fun _ => ret tt).
Proof.
  intros Hne Hlen. unfold handleGenerate. cbv zeta.
  destruct (trim (text state)) as [|c t] eqn:Et; [congruence|].
  change (falsy (c :: t)) with false. cbv iota.
  apply Z.leb_le in Hlen. rewrite Z.leb_antisym in Hlen.
  apply negb_true_iff in Hlen. rewrite Hlen. reflexivity.
Qed.

Lemma speakAndRecord_ends pf state voices input s s' r :
  speakAndRecord pf state voices input s = (s', r) ->
  same_settings (job s) (job s') /\
  imageUrl (job s') = imageUrl (job s) /\
  match r with
  | Ok (mp3Blob, d) =>
      isBusy s' = false /\ d = elapsed pf /\
      status (job s') = st_encoding /\ error (job s') = None /\
      progress (job s') = Some 100%Z /\
      mp3Url (job s') = Some (createObjectURL pf mp3Blob) /\
      mp4Url (job s') = None /\ durationMs (job s') = Some (elapsed pf)
  | Throw e =>
      isBusy s' = false /\
      status (job s') = st_error /\ error (job s') = Some (error_text e) /\
      mp3Url (job s') = None /\ mp4Url (job s') = None /\
      durationMs (job s') = durationMs (job s)
  | Pending =>
      isBusy s' = true /\ status (job s') = st_capturing /\
      error (job s') = None /\
      mp3Url (job s') = None /\ mp4Url (job s') = None
  end.
Proof.
  unfold same_settings. unfold_pipeline.
  repeat platform_step pf;
  cbn [job isBusy log];
  intros H; injection H as <- <-;
  cbn [job isBusy log];
  try (unfold progress_only in Hjob; rewrite Hjob);
  repeat split; try exact Hbusy.
Qed.

Lemma generateImageFromText_ends pf input width height s s' r :
  generateImageFromText pf input width height s = (s', r) ->
  job s' = job s /\ isBusy s' = isBusy s.
Proof.
  unfold_pipeline. repeat platform_step pf; cbn [job isBusy log];
  intros H; injection H as <- <-; split; reflexivity.
Qed.

Lemma composeVideo_ends pf mp3Blob imageBlob s s' r :
  composeVideo pf mp3Blob imageBlob
    (fun p => setState (fun s => set_progress (Some (Z.max 70 p)) s)) s
  = (s', r) ->
  isBusy s' = isBusy s /\
  job s' = set_progress (progress (job s')) (set_status st_encoding (job s)).
Proof.
  unfold_pipeline. repeat platform_step pf; cbn [job isBusy log];
  intros H; injection H as <- <-; cbn [job isBusy log];
  split; reflexivity.
Qed.

(** Where the rest of [handleGenerate] leaves the job. *)
Lemma finish_ends pf input mp3Blob d s s' r :
  finish pf input mp3Blob d s = (s', r) ->
  isBusy s' = isBusy s /\
  same_settings (job s) (job s') /\
  error (job s') = error (job s) /\ mp3Url (job s') = mp3Url (job s) /\
  match r with
  | Ok _ =>
      status (job s') = st_ready /\ progress (job s') = Some 100%Z /\
      durationMs (job s') = Some d /\
      (exists img, imageUrl (job s') = Some img) /\
      (exists mp4, mp4Url (job s') = Some mp4)
  | Throw _ =>
      status (job s') = st_encoding /\ mp4Url (job s') = mp4Url (job s) /\
      durationMs (job s') = durationMs (job s)
  | Pending => status (job s') = st_encoding /\ mp4Url (job s') = mp4Url (job s)
  end.
Proof.
  unfold finish, same_settings.
  unfold bind at 1, setState at 1. cbn [job isBusy log].
  unfold bind at 1.
  destruct (generateImageFromText pf input 1920 1080 _) as [s1 r1] eqn:E1.
  apply generateImageFromText_ends in E1. destruct E1 as [Hj1 Hb1].
  cbn [job isBusy log] in Hj1, Hb1.
  destruct r1 as [[imageBlob imageUrl]|e1|].
  - unfold bind at 1, setState at 1. cbn [job isBusy log].
    unfold bind at 1.
    destruct (composeVideo pf mp3Blob imageBlob _ _) as [s2 r2] eqn:E2.
    apply composeVideo_ends in E2. destruct E2 as [Hb2 Hj2].
    cbn [job isBusy log] in Hj2, Hb2.
    destruct r2 as [mp4Blob|e2|].
    + unfold bind, call, setState. cbn [job isBusy log].
      intros H; injection H as <- <-. cbn [job isBusy log].
      rewrite Hj2, Hj1, Hb2, Hb1. repeat split; eexists; reflexivity.
    + intros H; injection H as <- <-.
      rewrite Hj2, Hj1, Hb2, Hb1. repeat split.
    + intros H; injection H as <- <-.
      rewrite Hj2, Hj1, Hb2, Hb1. repeat split.
  - intros H; injection H as <- <-. rewrite Hj1, Hb1. repeat split.
  - intros H; injection H as <- <-. rewrite Hj1, Hb1. repeat split.
Qed.

(** X9.  Once past its guards, [handleGenerate] can resolve in three ways
    only: ready, with all three links, progress 100 and the duration; in
    error after a failure in [speakAndRecord], with a message and no MP3 or
    MP4 link; or, after a failure of the image or the video stage, with the
    status left at encoding and no error message at all.  In each case the
    page is no longer busy. *)
Theorem handleGenerate_endings (pf : Platform) (state : JobState)
  (voices : list VoiceOption) :
  trim (text state) <> [] ->
  (Z.of_nat (length (trim (text state))) <= 200000)%Z ->
  snd (handleGenerate pf state voices (at_click state)) = Ok tt ->
  isBusy (fst (handleGenerate pf state voices (at_click state))) = false /\
  Ending pf state (job (fst (handleGenerate pf state voices (at_click state)))).
Proof.
  intros Hne Hlen. rewrite handleGenerate_entered by assumption.
  unfold try_catch, bind.
  destruct (speakAndRecord pf state voices (trim (text state)) (at_click state))
    as [s1 r1] eqn:E1.
  apply speakAndRecord_ends in E1. destruct E1 as [_ [Himg H1]].
  cbn [job at_click] in Himg, H1.
  destruct r1 as [[mp3Blob d]|e|]; cbn [fst snd].
  - destruct H1 as [Hb [-> [Hst [Herr [_ [Hmp3 [Hmp4 Hdur]]]]]]].
    destruct (finish pf (trim (text state)) mp3Blob (elapsed pf) s1)
      as [s2 r2] eqn:E2.
    apply finish_ends in E2.
    destruct E2 as [Hb2 [_ [Herr2 [Hmp32 H2]]]].
    destruct r2 as [[]|e2|]; cbn [fst snd]; intros Hr; try discriminate Hr.
    + destruct H2 as [Hst2 [Hp2 [Hd2 [[img Hi2] [mp4 Hm2]]]]].
      split; [congruence|].
      apply (Ended_ready pf state (job s2) (createObjectURL pf mp3Blob) img mp4);
        congruence.
    + unfold ret. cbn [fst snd]. destruct H2 as [Hst2 [Hm2 Hd2]].
      split; [congruence|].
      apply (Ended_later_failed pf state (job s2) (createObjectURL pf mp3Blob));
        congruence.
  - unfold ret. cbn [fst snd]. intros _.
    destruct H1 as [Hb [Hst [Herr [Hmp3 [Hmp4 Hdur]]]]].
    split; [exact Hb|].
    apply (Ended_driver_failed pf state (job s1) (error_text e)); congruence.
  - discriminate.
Qed.

Lemma handleGenerate_endings_witness :
  isBusy (fst (handleGenerate Samples.fails_second
                 (Samples.fresh_job Samples.two_chunk_text) []
                 (at_click (Samples.fresh_job Samples.two_chunk_text))))
    = false /\
  Ending Samples.fails_second (Samples.fresh_job Samples.two_chunk_text)
    (job (fst (handleGenerate Samples.fails_second
                 (Samples.fresh_job Samples.two_chunk_text) []
                 (at_click (Samples.fresh_job Samples.two_chunk_text))))).
Proof.
  apply (handleGenerate_endings Samples.fails_second
           (Samples.fresh_job Samples.two_chunk_text) []).
  - vm_compute. discriminate.
  - vm_compute. discriminate.
  - vm_compute. reflexivity.
Defined.

(** X10.  [handleGenerate] never rejects, whatever the platform answers and
    whatever the job holds; when it resolves the page is not busy; and it
    never touches what the user has set: text, voice, rate, pitch and
    volume. *)
Theorem handleGenerate_quiet (pf : Platform) (state : JobState)
  (voices : list VoiceOption) :
  (forall e, snd (handleGenerate pf state voices (at_click state)) <> Throw e) /\
  (snd (handleGenerate pf state voices (at_click state)) = Ok tt ->
   isBusy (fst (handleGenerate pf state voices (at_click state))) = false) /\
  same_settings state
    (job (fst (handleGenerate pf state voices (at_click state)))).
Proof.
  destruct (trim (text state)) as [|c t] eqn:Et.
  { unfold handleGenerate. rewrite Et. cbn. unfold same_settings.
    repeat split; discriminate. }
  destruct (Z.ltb_spec 200000 (Z.of_nat (length (trim (text state)))))
    as [Hlong|Hlen].
  { unfold handleGenerate. cbv zeta. rewrite Et in *.
    change (falsy (c :: t)) with false. cbv iota.
    apply Z.ltb_lt in Hlong. rewrite Hlong. cbn. unfold same_settings.
    repeat split; discriminate. }
  assert (Hne : trim (text state) <> []) by (rewrite Et; discriminate).
  rewrite handleGenerate_entered by assumption.
  unfold try_catch, bind.
  destruct (speakAndRecord pf state voices (trim (text state)) (at_click state))
    as [s1 r1] eqn:E1.
  apply speakAndRecord_ends in E1. destruct E1 as [Hset [_ H1]].
  cbn [job at_click] in Hset, H1.
  destruct r1 as [[mp3Blob d]|e|]; cbn [fst snd].
  - destruct H1 as [Hb _].
    destruct (finish pf (trim (text state)) mp3Blob d s1) as [s2 r2] eqn:E2.
    apply finish_ends in E2. destruct E2 as [Hb2 [Hset2 _]].
    assert (Hs : same_settings state (job s2)).
    { unfold same_settings in *. intuition congruence. }
    destruct r2 as [[]|e2|]; unfold ret; cbn [fst snd];
      (split; [intros e0; discriminate|]);
      (split; [intros _; congruence | exact Hs]).
  - unfold ret. cbn [fst snd]. destruct H1 as [Hb _].
    split; [intros e0; discriminate|]. split; [intros _; exact Hb | exact Hset].
  - split; [intros e0; discriminate|]. split; [discriminate | exact Hset].
Qed.

(** X11.  With a text that is empty or all white space [handleGenerate]
    does nothing: no state update, no call, the component is as it was. *)
Theorem handleGenerate_blank (pf : Platform) (state : JobState)
  (voices : list VoiceOption) (s : Sys) :
  all_ws (text state) = true ->
  handleGenerate pf state voices s = (s, Ok tt).
Proof.
  intros H. apply trim_nil in H. unfold handleGenerate. rewrite H. reflexivity.
Qed.

Lemma handleGenerate_blank_witness :
  all_ws (text (Samples.fresh_job [9; 10; 32; 160]%N)) = true /\
  handleGenerate Samples.denied (Samples.fresh_job [9; 10; 32; 160]%N) []
    (at_click (Samples.fresh_job [9; 10; 32; 160]%N))
  = (at_click (Samples.fresh_job [9; 10; 32; 160]%N), Ok tt).
Proof.
  split; [reflexivity|].
  apply (handleGenerate_blank Samples.denied
           (Samples.fresh_job [9; 10; 32; 160]%N) []). reflexivity.
Defined.





(** Where the doubles show: 29 chunks of 50 give 14, though 29 / 50 * 25 is
    14.5, which rounds to 15. *)
Example tts_progress_29_of_50 :
  tts_progress 29 50 = 14%Z /\
  ((50 * 29 + 50) / (2 * 50) = 15)%Z.
Proof. split; vm_compute; reflexivity. Qed.



Lemma Spoken_no_stop chunks k rest :
  Spoken chunks k rest -> ~ In RecorderStop rest.
Proof. induction 1; simpl; intuition discriminate. Qed.

Lemma speakText_ok_ends pf state voices input s s' :
  speakText pf state voices input s = (s', Ok tt) ->
  first_failure pf state voices (splitText input 1800) = None /\
  forall k, k < length (splitText input 1800) -> In (UtteranceEnd k) (log s').
Proof.
  intros E. split.
  - destruct (first_failure pf state voices (splitText input 1800)) as [f|] eqn:Ef;
      [|reflexivity].
    destruct (speakText_run_some pf state voices input s f Ef) as [Hres _].
    rewrite E in Hres. cbn [snd] in Hres.
    unfold first_failure in Ef. apply find_seq_some in Ef.
    destruct Ef as [_ [Hbad _]]. rewrite <- Hres in Hbad. discriminate.
  - revert E. unfold speakText. cbv zeta. unfold bind.
    destruct (speaking pf); [unfold emit|unfold ret]; intros E k Hk;
      eapply speak_ok_ends; try exact E; try reflexivity; lia.
Qed.

(** X17.  The recorder is stopped only after every chunk has been spoken to
    its end: if [rec.stop()] is in the record of [speakAndRecord], no chunk
    failed and each has had its completion callback.  So when a chunk fails
    or never ends, the recorder is not stopped. *)
Theorem recorder_stopped_after_speech (pf : Platform) (state : JobState)
  (voices : list VoiceOption) (input : str) (s : Sys) :
  ~ In RecorderStop (log s) ->
  In RecorderStop (log (fst (speakAndRecord pf state voices input s))) ->
  first_failure pf state voices (splitText input 1800) = None /\
  forall k, k < length (splitText input 1800) ->
    In (UtteranceEnd k) (log (fst (speakAndRecord pf state voices input s))).
Proof.
  intros Hno.
  destruct (speakAndRecord pf state voices input s) as [s' r] eqn:E.
  cbn [fst]. revert E. unfold_pipeline.
  repeat match goal with
  | |- context [speakText ?a ?b ?c ?i ?S] =>
      let Esp := fresh "Esp" in
      destruct (speakText a b c i S) as [s2 [[]|e2|]] eqn:Esp;
      [ apply speakText_ok_ends in Esp; destruct Esp as [Hnone Hends]
      | apply speakText_log in Esp;
        destruct Esp as [first [u [rest [Hlog [Hfirst [_ [Hsp _]]]]]]];
        cbn [job isBusy log] in Hlog
      | apply speakText_log in Esp;
        destruct Esp as [first [u [rest [Hlog [Hfirst [_ [Hsp _]]]]]]];
        cbn [job isBusy log] in Hlog ]
  | _ => platform_step pf
  end;
  cbn [job isBusy log];
  intros E; injection E as <- <-; cbn [job isBusy log];
  first
    [ intros _; split; [exact Hnone|];
      intros k Hk; repeat (apply in_or_app; left); now apply Hends
    | try rewrite Hlog; intros H; exfalso;
      repeat (apply in_app_or in H; destruct H as [H|H]);
      try (simpl in H; intuition discriminate);
      try (now apply Hno);
      try (destruct Hfirst as [->| ->]; simpl in H; intuition discriminate);
      try (destruct H as [H|H]; [discriminate|];
           now apply (Spoken_no_stop _ _ _ Hsp)) ].
Qed.

Lemma recorder_stopped_after_speech_witness :
  let pf := Samples.platform_with (Ok tt) (fun _ _ => Ok tt) in
  let st := Samples.fresh_job (lit "Hello world. This is a test.") in
  first_failure pf st [] (splitText (lit "Hello world. This is a test.") 1800)
    = None /\
  forall k, k < length (splitText (lit "Hello world. This is a test.") 1800) ->
    In (UtteranceEnd k)
       (log (fst (speakAndRecord pf st [] (lit "Hello world. This is a test.")
                    (at_click st)))).
Proof.
  intros pf st.
  apply (recorder_stopped_after_speech pf st []
           (lit "Hello world. This is a test.") (at_click st)).
  - simpl. tauto.
  - vm_compute. tauto.
Defined.

End PipelineExtra.

(** ** The image and the encoder stages *)

Module StagesExtra.

Import Segmenter WordWrap Pipeline Trace Canvas.

Lemma body_lines_app a b : body_lines (a ++ b) = body_lines a ++ body_lines b.
Proof.
  induction a as [|c a IH]; [reflexivity|].
  destruct c as [x y w h|font line x y]; simpl; [exact IH|].
  destruct (String.eqb font body_font); simpl; now rewrite IH.
Qed.

Lemma body_lines_draw_texts lines : forall padding y,
  map fst (body_lines (draw_lines lines padding y)) = lines.
Proof.
  induction lines as [|l lines IH]; intros padding y; [reflexivity|].
  simpl. now rewrite IH.
Qed.

Lemma body_lines_draw_at lines : forall padding y i line x y',
  nth_error (body_lines (draw_lines lines padding y)) i = Some (line, (x, y')) ->
  x = padding /\ y' = (y + 40 * Z.of_nat i)%Z.
Proof.
  induction lines as [|l lines IH]; intros padding y i line x y'.
  - destruct i; discriminate.
  - destruct i as [|i]; simpl.
    + intros H; injection H as _ <- <-. split; [reflexivity|lia].
    + intros H. apply IH in H. destruct H as [-> ->]. split; [reflexivity|lia].
Qed.

Lemma slice_0 (input : str) n : slice input 0 n = firstn n input.
Proof. unfold slice. now rewrite Nat.sub_0_r. Qed.

(** X18.  The body of the image: the first 14 lines of the wrapped first 800
    code units of the text, wrapped to the width less 160, each drawn at
    x = 80, line [i] at y = 180 + 40 i, so never below y = 700. *)
Theorem generateImageFromText_layout (pf : Platform) (input : str)
  (width height : Z) (s : Sys) :
  exists cmds rest,
    log (fst (generateImageFromText pf input width height s))
      = log s ++ CanvasDraw cmds :: rest /\
    map fst (body_lines cmds)
      = firstn 14 (wrapText (measureText pf) (firstn 800 input)
                     (inject_Z (width - 160))) /\
    length (body_lines cmds) <= 14 /\
    (forall i line x y,
       nth_error (body_lines cmds) i = Some (line, (x, y)) ->
       x = 80%Z /\ y = (180 + 40 * Z.of_nat i)%Z /\ (y <= 700)%Z).
Proof.
  unfold generateImageFromText. cbv zeta. rewrite slice_0.
  change (width - 80 * 2)%Z with (width - 160)%Z.
  set (lines := firstn 14 (wrapText (measureText pf) (firstn 800 input)
                             (inject_Z (width - 160)))).
  match goal with
  | |- context [emit (CanvasDraw ?c)] => set (cmds := c)
  end.
  assert (Hbody : body_lines cmds = body_lines (draw_lines lines 80 (80 + 100))).
  { subst cmds. cbn [body_lines]. change (String.eqb title_font body_font) with false.
    cbv iota. rewrite body_lines_app. cbn [body_lines].
    change (String.eqb footer_font body_font) with false. cbv iota.
    apply app_nil_r. }
  assert (Hlen : length (body_lines cmds) <= 14).
  { rewrite <- (length_map fst), Hbody, body_lines_draw_texts.
    subst lines. apply firstn_le_length. }
  exists cmds.
  unfold bind, emit, call, ret. cbn [job isBusy log].
  destruct (toBlob pf cmds) as [b|]; cbn [fst log];
    eexists; (split; [rewrite <- !app_assoc; reflexivity|]);
    (split; [rewrite Hbody; apply body_lines_draw_texts|]);
    (split; [exact Hlen|]);
    intros i line x y Hi;
    assert (Hi' : i < length (body_lines cmds))
      by (apply nth_error_Some; congruence);
    rewrite Hbody in Hi; apply body_lines_draw_at in Hi;
    destruct Hi as [-> ->]; repeat split; lia.
Qed.

(** X19.  Only the first 800 code units of the text reach the image: two
    texts that agree on them are rendered alike. *)
Theorem generateImageFromText_prefix (pf : Platform) (a b : str)
  (width height : Z) :
  firstn 800 a = firstn 800 b ->
  generateImageFromText pf a width height
  = generateImageFromText pf b width height.
Proof.
  intros H. unfold generateImageFromText. rewrite !slice_0, H. reflexivity.
Qed.

Lemma generateImageFromText_prefix_witness :
  firstn 800 (N.iter 800 (cons 97%N) (lit "left"))
    = firstn 800 (N.iter 800 (cons 97%N) (lit "right")) /\
  generateImageFromText (Samples.platform_with (Ok tt) (fun _ _ => Ok tt))
    (N.iter 800 (cons 97%N) (lit "left")) 1920 1080
  = generateImageFromText (Samples.platform_with (Ok tt) (fun _ _ => Ok tt))
      (N.iter 800 (cons 97%N) (lit "right")) 1920 1080.
Proof.
  split; [vm_compute; reflexivity|].
  apply (generateImageFromText_prefix
           (Samples.platform_with (Ok tt) (fun _ _ => Ok tt))
           (N.iter 800 (cons 97%N) (lit "left"))
           (N.iter 800 (cons 97%N) (lit "right")) 1920 1080).
  vm_compute. reflexivity.
Defined.

(** What [generateImageFromText] does, with the drawing fixed by the text,
    the sizes and the platform alone. *)
Lemma generateImageFromText_run (pf : Platform) (input : str)
  (width height : Z) :
  exists cmds, forall s,
    generateImageFromText pf input width height s
    = match toBlob pf cmds with
      | Some b =>
          ({| job := job s; isBusy := isBusy s;
              log := log s ++ [CanvasDraw cmds; CanvasToBlob; CreateObjectURL b] |},
           Ok (b, createObjectURL pf b))
      | None =>
          ({| job := job s; isBusy := isBusy s;
              log := log s ++ [CanvasDraw cmds; CanvasToBlob] |},
           Throw (Error "Falha ao gerar imagem"))
      end.
Proof.
  unfold generateImageFromText. cbv zeta.
  match goal with
  | |- context [emit (CanvasDraw ?c)] => exists c; generalize c; intros cmds
  end.
  intros s. unfold bind, emit, call, ret. cbn [job isBusy log].
  destruct (toBlob pf cmds); cbn [job isBusy log];
    rewrite <- ?app_assoc; reflexivity.
Qed.


(** X21.  Whatever the blob, the platform and the job state,
    [transcodeWebmToMp3] writes the capture as [in.webm], runs the encoder
    at most once and only with the fixed recipe [mp3_args] (no video
    stream, libmp3lame, 192k, into [out.mp3]), and when it resolves it has
    done all of this and resolves with what the encoder left in
    [out.mp3]. *)
Theorem transcodeWebmToMp3_fixed_recipe (pf : Platform) (webm : Blob)
  (upd : Z -> JobState -> JobState) (s : Sys) :
  (exists added,
     log (fst (transcodeWebmToMp3 pf webm (fun p => setState (upd p)) s))
       = log s ++ added /\
     (exec_args added = [] \/ exec_args added = [mp3_args]) /\
     (written added = [] \/
      written added = [(Transcode, "in.webm"%string, webm)]) /\
     (forall mp3,
        snd (transcodeWebmToMp3 pf webm (fun p => setState (upd p)) s) = Ok mp3 ->
        exec_args added = [mp3_args] /\
        written added = [(Transcode, "in.webm"%string, webm)] /\
        read_back added = [(Transcode, "out.mp3"%string)] /\
        ffmpeg_readFile pf Transcode "out.mp3" = Ok mp3 /\
        job (fst (transcodeWebmToMp3 pf webm (fun p => setState (upd p)) s))
          = upd 100%Z (job s))) /\
  has_opt "-i" "in.webm" mp3_args = true /\
  In "-vn"%string mp3_args /\
  has_opt "-acodec" "libmp3lame" mp3_args = true /\
  has_opt "-b:a" "192k" mp3_args = true /\
  last mp3_args ""%string = "out.mp3"%string.
Proof.
  split; [|repeat split; try reflexivity; simpl; tauto].
  unfold transcodeWebmToMp3, bind, call, setState, ret. cbn [job isBusy log].
  destruct (ffmpeg_import pf Transcode) as [[]|?|];
  [destruct (ffmpeg_load pf Transcode) as [[]|?|];
   [destruct (ffmpeg_writeFile pf Transcode "in.webm" webm) as [[]|?|];
    [destruct (ffmpeg_exec pf Transcode mp3_args) as [[]|?|];
     [destruct (ffmpeg_readFile pf Transcode "out.mp3") as [?|?|] eqn:Er| |]
    | |]
   | |]
  | |];
  cbn [fst snd job isBusy log];
  (eexists; split; [rewrite <- ?app_assoc; reflexivity|];
   split; [simpl; auto|];
   split; [simpl; auto|];
   intros mp3 H; try discriminate; injection H as <-; repeat split).
Qed.

End StagesExtra.

(** ** The whole job *)

Module JobExtra.

Import Segmenter WordWrap Pipeline PipelineFacts Trace Canvas Controls.
Import JsFacts SegmenterFacts PipelineExtra StagesExtra.

Lemma exec_args_app a b : exec_args (a ++ b) = exec_args a ++ exec_args b.
Proof.
  induction a as [|ev a IH]; [reflexivity|].
  destruct ev; simpl; rewrite ?IH; reflexivity.
Qed.

Lemma written_app a b : written (a ++ b) = written a ++ written b.
Proof.
  induction a as [|ev a IH]; [reflexivity|].
  destruct ev; simpl; rewrite ?IH; reflexivity.
Qed.

Lemma exec_args_events pf state voices chunks j ks :
  exec_args (flat_map (tts_events pf state voices chunks j) ks) = [].
Proof. induction ks as [|k ks IH]; [reflexivity|exact IH]. Qed.

Lemma written_events pf state voices chunks j ks :
  written (flat_map (tts_events pf state voices chunks j) ks) = [].
Proof. induction ks as [|k ks IH]; [reflexivity|exact IH]. Qed.

(** [speakText] when the synthesizer speaks every utterance to its end. *)
Lemma speakText_ok_run pf state voices input s :
  (forall k u, utterance_ends pf k u = Ok tt) ->
  speakText pf state voices input s
  = ({| job := set_progress (Some 25%Z) (job s);
        isBusy := isBusy s;
        log := log s ++ (if speaking pf then [SynthCancel] else [])
                 ++ flat_map (tts_events pf state voices (splitText input 1800)
                                (job s))
                      (seq 0 (length (splitText input 1800))) |},
     Ok tt).
Proof.
  intros Hutt.
  assert (Hn : 0 < length (splitText input 1800)).
  { pose proof (splitText_nonempty input 1800).
    destruct (splitText input 1800); [congruence | simpl; lia]. }
  assert (Hok : forall k, k < length (splitText input 1800) ->
                  answer pf state voices (splitText input 1800) k = Ok tt).
  { intros k _. apply Hutt. }
  unfold speakText. cbv zeta. unfold bind.
  destruct (speaking pf); [unfold emit|unfold ret];
    rewrite (speak_run_ok pf state voices _ Hok (length (splitText input 1800)) 0)
      by lia;
    cbn [job isBusy log]; rewrite tts_progress_full by exact Hn;
    rewrite <- ?app_assoc, ?app_nil_r; reflexivity.
Qed.

Lemma cancel_silent pf :
  spoken_texts (if speaking pf then [SynthCancel] else []) = [] /\
  exec_args (if speaking pf then [SynthCancel] else []) = [] /\
  written (if speaking pf then [SynthCancel] else []) = [].
Proof. destruct (speaking pf); repeat split. Qed.

(** [speakAndRecord] when every step succeeds. *)
Lemma speakAndRecord_all_ok pf state voices input mp3 s :
  all_ok pf ->
  ffmpeg_readFile pf Transcode "out.mp3" = Ok mp3 ->
  exists added,
    speakAndRecord pf state voices input s
    = ({| job := set_durationMs (Some (elapsed pf))
                   (set_mp4Url None
                      (set_mp3Url (Some (createObjectURL pf mp3))
                         (set_progress (Some 100%Z)
                            (set_error None
                               (set_status st_encoding (job s))))));
          isBusy := false;
          log := log s ++ added |},
       Ok (mp3, elapsed pf)) /\
    spoken_texts added = splitText input 1800 /\
    exec_args added = [mp3_args] /\
    written added = [(Transcode, "in.webm"%string, recorded pf)].
Proof.
  intros Hall Hmp3.
  destruct Hall as (Hgdm & Hrec & Hutt & Hstop & Himp & Hload & Hwr & Hex
                    & _ & _).
  assert (Hn : 0 < length (splitText input 1800)).
  { pose proof (splitText_nonempty input 1800).
    destruct (splitText input 1800); [congruence | simpl; lia]. }
  destruct (cancel_silent pf) as (Hc1 & Hc2 & Hc3).
  unfold speakAndRecord, transcodeWebmToMp3.
  cbv [try_finally try_catch bind setIsBusy setState call emit throw ret
       job isBusy log].
  rewrite Hgdm, Hrec.
  rewrite (speakText_ok_run pf state voices _ _ Hutt).
  cbv [job isBusy log].
  rewrite Hstop, Himp, Hload, Hwr, Hex, Hmp3.
  eexists. split; [|split; [|split]].
  - f_equal. f_equal. rewrite <- !app_assoc. reflexivity.
  - cbn [app spoken_texts].
    rewrite !spoken_texts_app, spoken_texts_events, Hc1.
    rewrite map_nth_seq, firstn_all by lia.
    cbn [app spoken_texts]. apply app_nil_r.
  - cbn [app exec_args]. rewrite !exec_args_app, exec_args_events, Hc2.
    reflexivity.
  - cbn [app written]. rewrite !written_app, written_events, Hc3.
    reflexivity.
Qed.

(** The rest of [handleGenerate] when every step succeeds. *)
Lemma finish_all_ok pf input mp3 d img cmds mp4 s :
  all_ok pf ->
  (forall s0,
     generateImageFromText pf input 1920 1080 s0
     = ({| job := job s0; isBusy := isBusy s0;
           log := log s0 ++ [CanvasDraw cmds; CanvasToBlob; CreateObjectURL img] |},
        Ok (img, createObjectURL pf img))) ->
  ffmpeg_readFile pf Compose "out.mp4" = Ok mp4 ->
  exists added,
    finish pf input mp3 d s
    = ({| job := set_durationMs (Some d)
                   (set_mp4Url (Some (createObjectURL pf mp4))
                      (set_imageUrl (Some (createObjectURL pf img))
                         (set_progress (Some 100%Z)
                            (set_status st_ready (job s)))));
          isBusy := isBusy s;
          log := log s ++ added |},
       Ok tt) /\
    spoken_texts added = [] /\
    exec_args added = [probe_args; mp4_args] /\
    written added = [(Compose, "bg.png"%string, img);
                     (Compose, "audio.mp3"%string, mp3)].
Proof.
  intros Hall Hgen Hmp4.
  destruct Hall as (_ & _ & _ & _ & Himp & Hload & Hwr & Hex & _ & _).
  unfold finish, composeVideo.
  cbv [bind setState call ret job isBusy log].
  rewrite Hgen. cbv [job isBusy log].
  rewrite Himp, Hload, !Hwr, !Hex, Hmp4.
  eexists. split; [|split; [|split]].
  - f_equal. f_equal. rewrite <- !app_assoc. reflexivity.
  - reflexivity.
  - reflexivity.
  - reflexivity.
Qed.

(** X22.  On a platform where every step succeeds, a text that passes the
    guards of [handleGenerate] ends ready: all chunks are spoken, in order;
    the capture goes into the first encoder as [in.webm]; what that encoder
    leaves in [out.mp3] is linked as the MP3 and goes, with the image of the
    canvas, into the second encoder; what that one leaves in [out.mp4] is
    linked as the MP4; the encoder runs are the three fixed recipes. *)
Theorem handleGenerate_all_ok (pf : Platform) (state : JobState)
  (voices : list VoiceOption) :
  all_ok pf ->
  trim (text state) <> [] ->
  (Z.of_nat (length (trim (text state))) <= 200000)%Z ->
  exists mp3 img mp4,
    ffmpeg_readFile pf Transcode "out.mp3" = Ok mp3 /\
    ffmpeg_readFile pf Compose "out.mp4" = Ok mp4 /\
    snd (handleGenerate pf state voices (at_click state)) = Ok tt /\
    isBusy (fst (handleGenerate pf state voices (at_click state))) = false /\
    job (fst (handleGenerate pf state voices (at_click state)))
    = set_durationMs (Some (elapsed pf))
        (set_mp4Url (Some (createObjectURL pf mp4))
           (set_imageUrl (Some (createObjectURL pf img))
              (set_mp3Url (Some (createObjectURL pf mp3))
                 (set_progress (Some 100%Z)
                    (set_error None (set_status st_ready state)))))) /\
    spoken_texts (log (fst (handleGenerate pf state voices (at_click state))))
    = splitText (trim (text state)) 1800 /\
    exec_args (log (fst (handleGenerate pf state voices (at_click state))))
    = [mp3_args; probe_args; mp4_args] /\
    written (log (fst (handleGenerate pf state voices (at_click state))))
    = [(Transcode, "in.webm"%string, recorded pf);
       (Compose, "bg.png"%string, img);
       (Compose, "audio.mp3"%string, mp3)].
Proof.
  intros Hall Hne Hlen.
  pose proof Hall as (_ & _ & _ & _ & _ & _ & _ & _ & Hrd & Htb).
  destruct (Hrd Transcode "out.mp3"%string) as [mp3 Hmp3].
  destruct (Hrd Compose "out.mp4"%string) as [mp4 Hmp4].
  destruct (generateImageFromText_run pf (trim (text state)) 1920 1080)
    as [cmds Hgen].
  destruct (toBlob pf cmds) as [img|] eqn:Etb; [|now apply Htb in Etb].
  exists mp3, img, mp4.
  split; [exact Hmp3|]. split; [exact Hmp4|].
  destruct (speakAndRecord_all_ok pf state voices (trim (text state)) mp3
              (at_click state) Hall Hmp3) as (l1 & Hrun1 & Hs1 & He1 & Hw1).
  match type of Hrun1 with
  | _ = (?S, _) =>
      destruct (finish_all_ok pf (trim (text state)) mp3 (elapsed pf) img cmds
                  mp4 S Hall Hgen Hmp4) as (l2 & Hrun2 & Hs2 & He2 & Hw2)
  end.
  cbn [job isBusy log at_click app] in Hrun1, Hrun2.
  assert (Hrun : handleGenerate pf state voices (at_click state)
                 = ({| job := set_durationMs (Some (elapsed pf))
                         (set_mp4Url (Some (createObjectURL pf mp4))
                            (set_imageUrl (Some (createObjectURL pf img))
                               (set_mp3Url (Some (createObjectURL pf mp3))
                                  (set_progress (Some 100%Z)
                                     (set_error None
                                        (set_status st_ready state))))));
                       isBusy := false;
                       log := l1 ++ l2 |}, Ok tt)).
  { rewrite handleGenerate_entered by assumption.
    unfold try_catch, bind. cbn [at_click] in Hrun1 |- *.
    rewrite Hrun1, Hrun2. reflexivity. }
  rewrite Hrun. cbn [fst snd job isBusy log].
  split; [reflexivity|]. split; [reflexivity|]. split; [reflexivity|].
  rewrite spoken_texts_app, exec_args_app, written_app.
  rewrite Hs1, Hs2, He1, He2, Hw1, Hw2, app_nil_r. repeat split.
Qed.

Lemma handleGenerate_all_ok_witness :
  let pf := Samples.platform_with (Ok tt) (fun _ _ => Ok tt) in
  let st := Samples.fresh_job (lit "Hello world. This is a test.") in
  exists mp3 img mp4,
    ffmpeg_readFile pf Transcode "out.mp3" = Ok mp3 /\
    ffmpeg_readFile pf Compose "out.mp4" = Ok mp4 /\
    snd (handleGenerate pf st [] (at_click st)) = Ok tt /\
    isBusy (fst (handleGenerate pf st [] (at_click st))) = false /\
    job (fst (handleGenerate pf st [] (at_click st)))
    = set_durationMs (Some (elapsed pf))
        (set_mp4Url (Some (createObjectURL pf mp4))
           (set_imageUrl (Some (createObjectURL pf img))
              (set_mp3Url (Some (createObjectURL pf mp3))
                 (set_progress (Some 100%Z)
                    (set_error None (set_status st_ready st)))))) /\
    spoken_texts (log (fst (handleGenerate pf st [] (at_click st))))
    = splitText (trim (text st)) 1800 /\
    exec_args (log (fst (handleGenerate pf st [] (at_click st))))
    = [mp3_args; probe_args; mp4_args] /\
    written (log (fst (handleGenerate pf st [] (at_click st))))
    = [(Transcode, "in.webm"%string, recorded pf);
       (Compose, "bg.png"%string, img);
       (Compose, "audio.mp3"%string, mp3)].
Proof.
  intros pf st.
  apply (handleGenerate_all_ok pf st []).
  - unfold all_ok. repeat split; try reflexivity.
    + intros g n. eexists. reflexivity.
    + intros cmds. discriminate.
  - vm_compute. discriminate.
  - vm_compute. discriminate.
Defined.

Lemma speakAndRecord_starts pf state voices input s :
  exists rest,
    log (fst (speakAndRecord pf state voices input s))
    = log s ++ SetIsBusy true
        :: SetState (set_mp4Url None (set_mp3Url None (set_progress (Some 0%Z)
                       (set_error None (set_status st_capturing (job s))))))
        :: GetDisplayMedia :: rest.
Proof.
  unfold_pipeline.
  repeat platform_step pf; cbn [fst job isBusy log];
    try rewrite Hlog; eexists; rewrite <- ?app_assoc; cbn [app]; reflexivity.
Qed.

Lemma finish_log pf input mp3 d s :
  exists added, log (fst (finish pf input mp3 d s)) = log s ++ added.
Proof.
  destruct (generateImageFromText_run pf input 1920 1080) as [cmds Hgen].
  unfold finish, composeVideo. cbv [bind setState call ret job isBusy log].
  rewrite Hgen.
  destruct (toBlob pf cmds); cbv [job isBusy log];
    [|eexists; cbn [fst log]; rewrite <- ?app_assoc; reflexivity].
  repeat platform_step pf; cbn [fst job isBusy log];
    eexists; rewrite <- ?app_assoc; reflexivity.
Qed.

Lemma length_trim (t : str) : length (trim t) <= length t.
Proof.
  destruct (trim_split t) as [w1 [w2 [E _]]].
  apply (f_equal (@length _)) in E. rewrite !length_app in E. lia.
Qed.

(** X23.  The two guards of [handleGenerate] cannot fire through the page's
    own controls: with the generate button enabled and a text within the
    [maxLength] of the text area, a click always enters the pipeline, sets
    the page busy and the job to capturing, and asks for the capture. *)
Theorem generate_button_enters (pf : Platform) (state : JobState)
  (voices : list VoiceOption) :
  generate_disabled false state = false ->
  (Z.of_nat (length (text state)) <= maxLength)%Z ->
  exists j rest,
    log (fst (handleGenerate pf state voices (at_click state)))
    = SetIsBusy true :: SetState j :: GetDisplayMedia :: rest /\
    status j = st_capturing /\ error j = None /\ progress j = Some 0%Z.
Proof.
  intros Hen Hlen.
  assert (Hne : trim (text state) <> []).
  { unfold generate_disabled in Hen. cbn [orb] in Hen.
    destruct (trim (text state)); discriminate. }
  assert (Hle : (Z.of_nat (length (trim (text state))) <= 200000)%Z).
  { pose proof (length_trim (text state)). unfold maxLength in Hlen. lia. }
  rewrite handleGenerate_entered by assumption.
  unfold try_catch, bind.
  destruct (speakAndRecord_starts pf state voices (trim (text state))
              (at_click state)) as [rest Hst].
  destruct (speakAndRecord pf state voices (trim (text state)) (at_click state))
    as [s1 r1].
  cbn [fst log at_click app] in Hst.
  destruct r1 as [[mp3 d]|e|].
  - destruct (finish_log pf (trim (text state)) mp3 d s1) as [added Hf].
    destruct (finish pf (trim (text state)) mp3 d s1) as [s2 r2].
    cbn [fst] in Hf.
    destruct r2; unfold ret; cbn [fst]; rewrite Hf, Hst; cbn [app];
      do 2 eexists; (split; [reflexivity|repeat split]).
  - unfold ret. cbn [fst]. rewrite Hst.
    do 2 eexists; (split; [reflexivity|repeat split]).
  - cbn [fst]. rewrite Hst.
    do 2 eexists; (split; [reflexivity|repeat split]).
Qed.

Lemma generate_button_enters_witness :
  let st := Samples.fresh_job (lit "  Hello world.  ") in
  exists j rest,
    log (fst (handleGenerate Samples.denied st [] (at_click st)))
    = SetIsBusy true :: SetState j :: GetDisplayMedia :: rest /\
    status j = st_capturing /\ error j = None /\ progress j = Some 0%Z.
Proof.
  intros st.
  apply (generate_button_enters Samples.denied st []).
  - reflexivity.
  - vm_compute. discriminate.
Defined.

Lemma str_eqb_eq : forall a b, str_eqb a b = true -> a = b.
Proof.
  induction a as [|x a IH]; intros [|y b]; simpl; try discriminate;
    [reflexivity|].
  intros H. apply andb_true_iff in H. destruct H as [Hx Hab].
  apply N.eqb_eq in Hx. subst. f_equal. now apply IH.
Qed.

Lemma str_eqb_refl : forall a, str_eqb a a = true.
Proof.
  induction a as [|x a IH]; [reflexivity|].
  simpl. now rewrite N.eqb_refl.
Qed.

(** The voice of an utterance, when there is one: a voice of the platform
    with the URI chosen in the job, which the page's list holds as well. *)
Lemma utterance_for_voice pf state voices chunk v :
  u_voice (utterance_for pf state voices chunk) = Some v ->
  In v (getVoices pf) /\ voiceURI state = Some (v_voiceURI v) /\
  exists sel, In sel voices /\ v_voiceURI sel = v_voiceURI v.
Proof.
  unfold utterance_for, selectedVoice. cbn [u_voice].
  destruct (voiceURI state) as [uri|]; [|discriminate].
  destruct (find _ voices) as [sel|] eqn:Esel; [|discriminate].
  apply find_some in Esel. destruct Esel as [Hsel Huri].
  apply str_eqb_eq in Huri.
  intros Hv. apply find_some in Hv. destruct Hv as [Hv Heq].
  apply str_eqb_eq in Heq.
  split; [exact Hv|]. split; [congruence|].
  exists sel. split; [exact Hsel|]. congruence.
Qed.

Lemma In_speak_events pf state voices chunks j k u ks :
  In (SynthSpeak k u) (flat_map (tts_events pf state voices chunks j) ks) ->
  In k ks /\ u = utterance_for pf state voices (nth k chunks []).
Proof.
  induction ks as [|a ks IH]; [intros []|].
  cbn [flat_map]. intros H. apply in_app_or in H. destruct H as [H|H].
  - destruct H as [H|[H|[H|[]]]]; try discriminate.
    injection H as -> <-. split; [now left|reflexivity].
  - apply IH in H. destruct H as [H1 H2]. split; [now right|exact H2].
Qed.

(** X24.  Every utterance handed over by [speakText] is for a chunk of the
    text and carries the rate, pitch and volume the job had at the click.
    It has a voice only if one is chosen in the job, and then that voice is
    one of the platform's, with the chosen URI, which the page's list
    holds as well. *)
Theorem utterances_carry_settings (pf : Platform) (state : JobState)
  (voices : list VoiceOption) (input : str) (s : Sys) :
  exists added,
    log (fst (speakText pf state voices input s)) = log s ++ added /\
    forall k u,
      In (SynthSpeak k u) added ->
      k < length (splitText input 1800) /\
      u_text u = nth k (splitText input 1800) [] /\
      u_rate u = rate state /\ u_pitch u = pitch state /\
      u_volume u = volume state /\
      (voiceURI state = None -> u_voice u = None) /\
      (forall v, u_voice u = Some v ->
         In v (getVoices pf) /\ voiceURI state = Some (v_voiceURI v) /\
         exists sel, In sel voices /\ v_voiceURI sel = v_voiceURI v).
Proof.
  destruct (first_failure pf state voices (splitText input 1800))
    as [f|] eqn:Ef;
    [destruct (speakText_run_some pf state voices input s f Ef) as [_ [Hlog _]]
    |destruct (speakText_run_none pf state voices input s Ef) as [_ [Hlog _]]];
    (eexists; split; [exact Hlog|]);
    intros k u Hin;
    (assert (Hku : k < length (splitText input 1800) /\
                   u = utterance_for pf state voices
                         (nth k (splitText input 1800) []));
     [|destruct Hku as [Hk ->];
       split; [exact Hk|]; repeat split;
       [intros Hnone; unfold utterance_for, selectedVoice; rewrite Hnone;
        reflexivity
       |apply (utterance_for_voice pf state voices _ v H)
       |apply (utterance_for_voice pf state voices _ v H)
       |apply (utterance_for_voice pf state voices _ v H)]]).
  - apply in_app_or in Hin. destruct Hin as [Hin|Hin].
    { destruct (speaking pf); [destruct Hin as [Hin|[]]; discriminate
                              |destruct Hin]. }
    unfold first_failure in Ef. apply find_seq_some in Ef.
    destruct Ef as [Hf _].
    apply in_app_or in Hin. destruct Hin as [Hin|[Hin|Hin]].
    + apply In_speak_events in Hin. destruct Hin as [Hk ->].
      apply in_seq in Hk. split; [lia|reflexivity].
    + injection Hin as <- <-. split; [lia|reflexivity].
    + destruct (answer _ _ _ _ f) as [[]|e|]; simpl in Hin;
        intuition discriminate.
  - apply in_app_or in Hin. destruct Hin as [Hin|Hin].
    { destruct (speaking pf); [destruct Hin as [Hin|[]]; discriminate
                              |destruct Hin]. }
    apply In_speak_events in Hin. destruct Hin as [Hk ->].
    apply in_seq in Hk. split; [lia|reflexivity].
Qed.

End JobExtra.

(** ** The controls *)

Module ControlsExtra.

Import Pipeline Trace Controls JobExtra.

Lemma find_split {A} (p : A -> bool) : forall l v,
  find p l = Some v ->
  exists pre post,
    l = pre ++ v :: post /\ p v = true /\ forall x, In x pre -> p x = false.
Proof.
  induction l as [|a l IH]; intros v; simpl; [discriminate|].
  destruct (p a) eqn:Ea.
  - intros H; injection H as <-. exists [], l. repeat split; auto.
    intros x [].
  - intros H. apply IH in H. destruct H as [pre [post [-> [Hv Hpre]]]].
    exists (a :: pre), post. repeat split; auto.
    intros x [<-|Hx]; auto.
Qed.

Lemma find_uri_self v : forall l,
  In v l ->
  exists w, find (fun x => str_eqb (v_voiceURI x) (v_voiceURI v)) l = Some w /\
            v_voiceURI w = v_voiceURI v.
Proof.
  induction l as [|a l IH]; intros Hin; [destruct Hin|].
  simpl. destruct (str_eqb (v_voiceURI a) (v_voiceURI v)) eqn:Ea.
  - exists a. split; [reflexivity|]. now apply str_eqb_eq.
  - destruct Hin as [->|Hin]; [now rewrite str_eqb_refl in Ea|].
    now apply IH.
Qed.

(** X25.  With no voice chosen yet and a platform that has voices,
    [loadVoices] chooses one of them: the first whose lower-cased language
    tag starts with "pt", or, when there is none, the first of the list.
    Nothing else in the job changes, and from then on every utterance gets
    a voice with the chosen URI. *)
Theorem loadVoices_default (toLowerCase : str -> str) (pf : Platform)
  (state : JobState) :
  no_voice state = true ->
  getVoices pf <> [] ->
  exists v pre post,
    getVoices pf = pre ++ v :: post /\
    voices_loaded toLowerCase pf state
    = (set_voiceURI (Some (v_voiceURI v)) state, getVoices pf) /\
    ((is_pt toLowerCase v = true /\
      forall p, In p pre -> is_pt toLowerCase p = false) \/
     (pre = [] /\
      forall p, In p (getVoices pf) -> is_pt toLowerCase p = false)) /\
    forall chunk,
      exists w,
        u_voice (utterance_for pf (fst (voices_loaded toLowerCase pf state))
                   (snd (voices_loaded toLowerCase pf state)) chunk)
        = Some w /\
        v_voiceURI w = v_voiceURI v.
Proof.
  intros Hno Hne.
  assert (Hsel : forall v, In v (getVoices pf) ->
            forall chunk, exists w,
              u_voice (utterance_for pf (set_voiceURI (Some (v_voiceURI v)) state)
                         (getVoices pf) chunk) = Some w /\
              v_voiceURI w = v_voiceURI v).
  { intros v Hv chunk. unfold utterance_for, selectedVoice.
    cbn [u_voice voiceURI set_voiceURI].
    destruct (find_uri_self v _ Hv) as [sel [-> Hs]].
    rewrite Hs. apply (find_uri_self v _ Hv). }
  unfold voices_loaded, loadVoices. cbv zeta. rewrite Hno.
  destruct (getVoices pf) as [|first tl] eqn:Evs; [congruence|].
  destruct (find (is_pt toLowerCase) (first :: tl)) as [v|] eqn:Ef.
  - destruct (find_split _ _ _ Ef) as [pre [post [El [Hv Hpre]]]].
    exists v, pre, post. split; [exact El|]. split; [reflexivity|].
    split; [left; auto|].
    cbn [fst snd]. apply Hsel. rewrite El. apply in_elt.
  - exists first, [], tl. split; [reflexivity|]. split; [reflexivity|].
    split; [right; split; [reflexivity|]; intros p Hp;
            exact (find_none _ _ Ef p Hp)|].
    cbn [fst snd]. apply Hsel. now left.
Qed.

Lemma loadVoices_default_witness :
  let st := Samples.fresh_job (lit "Hello") in
  exists v pre post,
    getVoices VoiceSamples.two_voices = pre ++ v :: post /\
    voices_loaded VoiceSamples.ascii_lower VoiceSamples.two_voices st
    = (set_voiceURI (Some (v_voiceURI v)) st,
       getVoices VoiceSamples.two_voices) /\
    ((is_pt VoiceSamples.ascii_lower v = true /\
      forall p, In p pre -> is_pt VoiceSamples.ascii_lower p = false) \/
     (pre = [] /\
      forall p, In p (getVoices VoiceSamples.two_voices) ->
                is_pt VoiceSamples.ascii_lower p = false)) /\
    forall chunk,
      exists w,
        u_voice (utterance_for VoiceSamples.two_voices
                   (fst (voices_loaded VoiceSamples.ascii_lower
                           VoiceSamples.two_voices st))
                   (snd (voices_loaded VoiceSamples.ascii_lower
                           VoiceSamples.two_voices st)) chunk)
        = Some w /\
        v_voiceURI w = v_voiceURI v.
Proof.
  intros st.
  apply (loadVoices_default VoiceSamples.ascii_lower VoiceSamples.two_voices st).
  - reflexivity.
  - discriminate.
Defined.

(** X26.  [loadVoices] never overwrites a choice: with a voice chosen it
    leaves the job as it is.  In any case it changes nothing but the chosen
    voice, and running it again on its own result changes nothing more. *)
Theorem loadVoices_settles (toLowerCase : str -> str) (pf : Platform)
  (state : JobState) :
  (no_voice state = false ->
   voices_loaded toLowerCase pf state = (state, getVoices pf)) /\
  fst (voices_loaded toLowerCase pf state)
  = set_voiceURI (voiceURI (fst (voices_loaded toLowerCase pf state))) state /\
  voices_loaded toLowerCase pf (fst (voices_loaded toLowerCase pf state))
  = voices_loaded toLowerCase pf state.
Proof.
  unfold voices_loaded, loadVoices. cbv zeta.
  destruct (getVoices pf) as [|first tl] eqn:Evs.
  - repeat split. destruct state; reflexivity.
  - destruct (no_voice state) eqn:Hno.
    + cbn [fst snd]. split; [discriminate|]. split; [reflexivity|].
      destruct (no_voice (set_voiceURI _ state)); reflexivity.
    + cbn [fst snd]. rewrite Hno. repeat split. destruct state; reflexivity.
Qed.

End ControlsExtra.

(** ** The theme toggle *)

Module ThemeToggleExtra.

Import ThemeToggle.

Local Open Scope string_scope.

(** X27.  A click sets an explicit theme, light exactly when the active
    theme is dark.  After the first click the system theme no longer
    matters and the clicks alternate between the two. *)
Theorem onClick_alternates (theme systemTheme systemTheme' : option string) :
  let first := onClick theme systemTheme in
  (first = "light" <-> activeTheme theme systemTheme = Some "dark") /\
  (first = "light" \/ first = "dark") /\
  activeTheme (Some first) systemTheme' = Some first /\
  onClick (Some first) systemTheme' <> first /\
  onClick (Some (onClick (Some first) systemTheme')) systemTheme' = first.
Proof.
  cbv zeta. unfold onClick.
  destruct (activeTheme theme systemTheme) as [a|].
  - destruct (String.eqb a "dark") eqn:Ea.
    + apply String.eqb_eq in Ea. subst a.
      repeat split; auto; discriminate.
    + apply String.eqb_neq in Ea.
      repeat split; auto; try discriminate.
      intros H; injection H as ->. now elim Ea.
  - repeat split; auto; discriminate.
Qed.

End ThemeToggleExtra.
